(** * websocket-tunnel: a TCP-over-WebSocket relay

    A shallow embedding of the tunnel protocol engine of
    [src/commands/server.ts] (the relay), [src/commands/client.ts] (the
    local listener and tunnel session) and [src/utils.ts], together with
    the properties of the protocol that the design document states.

    Conventions.
    - Byte buffers ([Buffer]) are [list byte]; JavaScript strings are
      [string]; an optional property of a JSON body is an [option].
    - A JavaScript object used as a dictionary is a [gmap string _] of
      its own properties.  Where the key comes from a frame or from the
      passphrase file (a passphrase, a host name, the id of a TRAFFIC
      frame), the lookup is [Wire.get], which also finds the members
      inherited from [Object.prototype]; where it is an id that the relay
      drew with [UUIDv4()], it is the lookup of the map.
    - A number is a [Z]; where [parseInt] or [toString] would leave the
      integers that a double holds exactly, the embedding says that it
      does not follow the value ([Utils.Unknown], [Loader.Outside]).
    - A callback is a transition of the state record of its closure; what
      a callback does to the outside world (a frame sent, a socket
      written, a connection closed) is appended to a log of effects, in
      the order of the calls.
    - Library calls whose code is not part of the repository ([JSON.parse],
      [Buffer]'s base64 codec, [async-mutex]) are modelled from their
      documented behaviour, and say so. *)

From Stdlib Require Import Strings.String Strings.Ascii Strings.Byte.
From Stdlib Require Import ZArith List Bool Lia DecimalString.
From Stdlib Require DecimalPos.
From stdpp Require Import gmap strings list fin_maps.
Import ListNotations.

Local Open Scope string_scope.
Local Open Scope list_scope.

(* ===================================================================== *)
(** * Base64: [Buffer.prototype.toString('base64')] and
      [Buffer.from(_, 'base64')] *)
(* ===================================================================== *)

Module Base64.

(** Six bits, most significant first. *)
Definition sextet : Type := (bool * bool * bool * bool * bool * bool)%type.

Definition sextet_index (s : sextet) : nat :=
  let '(b5, b4, b3, b2, b1, b0) := s in
  (if b5 then 32 else 0) + (if b4 then 16 else 0) + (if b3 then 8 else 0)
  + (if b2 then 4 else 0) + (if b1 then 2 else 0) + (if b0 then 1 else 0).

Definition sextet_of_index (n : nat) : sextet :=
  (Nat.testbit n 5, Nat.testbit n 4, Nat.testbit n 3,
   Nat.testbit n 2, Nat.testbit n 1, Nat.testbit n 0).

(** The alphabet of RFC 4648, section 4. *)
Definition table : string :=
  "ABCDEFGHIJKLMNOPQRSTUVWXYZabcdefghijklmnopqrstuvwxyz0123456789+/".

Definition pad : ascii := "="%char.

Definition table_char (s : sextet) : ascii :=
  match String.get (sextet_index s) table with
  | Some c => c
  | None => pad
  end.

Fixpoint index_of (c : ascii) (t : string) (i : nat) : option nat :=
  match t with
  | EmptyString => None
  | String d t' => if Ascii.eqb c d then Some i else index_of c t' (S i)
  end.

(** The decoder's table: the standard alphabet and the two characters of
    the URL-safe one; every other character is illegal. *)
Definition unbase64 (c : ascii) : option sextet :=
  match index_of c table 0 with
  | Some i => Some (sextet_of_index i)
  | None =>
      if Ascii.eqb c "-"%char then Some (sextet_of_index 62)
      else if Ascii.eqb c "_"%char then Some (sextet_of_index 63)
      else None
  end.

(** ** Encoding: three bytes become four characters *)

Definition bits (b : byte) : bool * bool * bool * bool * bool * bool * bool * bool :=
  let '(b0, (b1, (b2, (b3, (b4, (b5, (b6, b7))))))) := Byte.to_bits b in
  (b7, b6, b5, b4, b3, b2, b1, b0).

Definition of_msb_bits (b7 b6 b5 b4 b3 b2 b1 b0 : bool) : byte :=
  Byte.of_bits (b0, (b1, (b2, (b3, (b4, (b5, (b6, b7))))))).

(** [a >> 2] *)
Definition enc0 (a : byte) : sextet :=
  let '(a7, a6, a5, a4, a3, a2, _, _) := bits a in (a7, a6, a5, a4, a3, a2).
(** [((a & 3) << 4) | (b >> 4)] *)
Definition enc1 (a b : byte) : sextet :=
  let '(_, _, _, _, _, _, a1, a0) := bits a in
  let '(b7, b6, b5, b4, _, _, _, _) := bits b in (a1, a0, b7, b6, b5, b4).
(** [((b & 0x0f) << 2) | (c >> 6)] *)
Definition enc2 (b c : byte) : sextet :=
  let '(_, _, _, _, b3, b2, b1, b0) := bits b in
  let '(c7, c6, _, _, _, _, _, _) := bits c in (b3, b2, b1, b0, c7, c6).
(** [c & 0x3f] *)
Definition enc3 (c : byte) : sextet :=
  let '(_, _, c5, c4, c3, c2, c1, c0) := bits c in (c5, c4, c3, c2, c1, c0).

Definition zero : byte := Byte.x00.

(** The sextets of a buffer; a last group of one or two bytes is filled
    with zero bits. *)
Fixpoint sextets_of_bytes (bs : list byte) : list sextet :=
  match bs with
  | [] => []
  | [a] => [enc0 a; enc1 a zero]
  | [a; b] => [enc0 a; enc1 a b; enc2 b zero]
  | a :: b :: c :: rest =>
      enc0 a :: enc1 a b :: enc2 b c :: enc3 c :: sextets_of_bytes rest
  end.

Fixpoint encode_chars (bs : list byte) : list ascii :=
  match bs with
  | [] => []
  | [a] => [table_char (enc0 a); table_char (enc1 a zero); pad; pad]
  | [a; b] =>
      [table_char (enc0 a); table_char (enc1 a b); table_char (enc2 b zero); pad]
  | a :: b :: c :: rest =>
      table_char (enc0 a) :: table_char (enc1 a b)
        :: table_char (enc2 b c) :: table_char (enc3 c) :: encode_chars rest
  end.

(** [buf.toString('base64')] *)
Definition encode (bs : list byte) : string :=
  string_of_list_ascii (encode_chars bs).

(** ** Decoding: illegal characters are skipped, [=] stops the decoder *)

Fixpoint legal_sextets (cs : list ascii) : list sextet :=
  match cs with
  | [] => []
  | c :: cs' =>
      match unbase64 c with
      | Some s => s :: legal_sextets cs'
      | None => if Ascii.eqb c pad then [] else legal_sextets cs'
      end
  end.

(** [(hi << 2) | (lo >> 4)] *)
Definition dec0 (hi lo : sextet) : byte :=
  let '(h5, h4, h3, h2, h1, h0) := hi in
  let '(l5, l4, _, _, _, _) := lo in of_msb_bits h5 h4 h3 h2 h1 h0 l5 l4.
(** [((hi & 0x0f) << 4) | (lo >> 2)] *)
Definition dec1 (hi lo : sextet) : byte :=
  let '(_, _, h3, h2, h1, h0) := hi in
  let '(l5, l4, l3, l2, _, _) := lo in of_msb_bits h3 h2 h1 h0 l5 l4 l3 l2.
(** [((hi & 0x03) << 6) | lo] *)
Definition dec2 (hi lo : sextet) : byte :=
  let '(_, _, _, _, h1, h0) := hi in
  let '(l5, l4, l3, l2, l1, l0) := lo in of_msb_bits h1 h0 l5 l4 l3 l2 l1 l0.

(** A byte is produced as soon as the sextet that completes it has been
    read; a single trailing sextet produces nothing. *)
Fixpoint bytes_of_sextets (ss : list sextet) : list byte :=
  match ss with
  | s0 :: s1 :: s2 :: s3 :: rest =>
      dec0 s0 s1 :: dec1 s1 s2 :: dec2 s2 s3 :: bytes_of_sextets rest
  | [s0; s1; s2] => [dec0 s0 s1; dec1 s1 s2]
  | [s0; s1] => [dec0 s0 s1]
  | _ => []
  end.

(** [Buffer.from(str, 'base64')] *)
Definition decode (str : string) : list byte :=
  bytes_of_sextets (legal_sextets (list_ascii_of_string str)).

End Base64.

(* ===================================================================== *)
(** * Messages ([src/utils.ts]) *)
(* ===================================================================== *)

Module Wire.

(** The body of a control message: a JSON object read field by field.
    An absent property is [None]. *)
Record Body := {
  body_type : option string;
  body_command : option string;
  body_passphrase : option string;
  body_host : option string;
  body_port : option Z;
  body_connection : option string;
  body_id : option string;
  body_data : option string;
  body_status : option string;
  body_error : option string;
  body_hadError : option bool
}.

(** What the relay sends: [{command, status, connection, error, data,
    hadError}], each property optional. *)
Definition reply (command status connection error data : option string)
    (hadError : option bool) : Body :=
  {| body_type := None; body_command := command; body_passphrase := None;
     body_host := None; body_port := None; body_connection := connection;
     body_id := None; body_data := data; body_status := status;
     body_error := error; body_hadError := hadError |}.

(** What the client sends: [{type, passphrase, host, port, id, data}]. *)
Definition request (type passphrase host : option string) (port : option Z)
    (id data : option string) : Body :=
  {| body_type := type; body_command := None; body_passphrase := passphrase;
     body_host := host; body_port := port; body_connection := None;
     body_id := id; body_data := data; body_status := None;
     body_error := None; body_hadError := None |}.

(** JavaScript truthiness of an optional string: [undefined] and the
    empty string are falsy. *)
Definition truthy (v : option string) : bool :=
  match v with
  | Some s => negb (String.eqb s EmptyString)
  | None => false
  end.

(** [v === s] *)
Definition is_str (v : option string) (s : string) : bool :=
  match v with
  | Some s' => String.eqb s' s
  | None => false
  end.

(** The names of the members of [Object.prototype].  A plain object
    [{}] used as a dictionary answers [obj[k]] with its own property
    [k], and with the inherited member when it has no such property
    and [k] is one of these names. *)
Definition prototype_members : list string :=
  ["constructor"; "__defineGetter__"; "__defineSetter__"; "hasOwnProperty";
   "__lookupGetter__"; "__lookupSetter__"; "isPrototypeOf";
   "propertyIsEnumerable"; "toString"; "valueOf"; "__proto__";
   "toLocaleString"].

Definition inherited (k : string) : bool :=
  bool_decide (k ∈ prototype_members).

(** The value of [obj[k]]: an own property, a member of
    [Object.prototype] (a function, or [Object.prototype] itself for
    [__proto__]: truthy, and without any property that the tunnel
    reads), or [undefined]. *)
Inductive Property (A : Type) :=
| Own (v : A)
| Member
| Undefined.
Arguments Own {A} v.
Arguments Member {A}.
Arguments Undefined {A}.

Definition get {A : Type} (obj : gmap string A) (k : string) : Property A :=
  match obj !! k with
  | Some v => Own v
  | None => if inherited k then Member else Undefined
  end.

(** [IMessage] of the websocket library: a text or a binary frame. *)
Inductive IMessage :=
| Utf8 (utf8Data : string)
| Binary (binaryData : list byte).

Definition isUTF8Message (msg : IMessage) : bool :=
  match msg with Utf8 _ => true | Binary _ => false end.

Definition isBinaryMessage (msg : IMessage) : bool :=
  match msg with Utf8 _ => false | Binary _ => true end.

(** The three outcomes of [JSON.parse(text)] that the handlers tell
    apart: it throws a [SyntaxError]; it returns [null], on which every
    property access throws; it returns a value whose properties can be
    read. *)
Inductive Parsed :=
| Invalid
| Null
| Object (body : Body).

Record TunnelError := { reason : string }.

Inductive Exception :=
| SyntaxError
| TypeError
| SocketFailure
| Tunnel (e : TunnelError).

(** How a callback ends. *)
Inductive Completion :=
| Normal
| Throw (e : Exception).

Record HostPortPair := {
  host : option string;
  port : option Z
}.

(** [HostPortPair.fromBody]: the two-argument constructor assigns the
    fields only when [host] is a string and [port] a number. *)
Definition fromBody (body : Body) : HostPortPair :=
  match body_host body, body_port body with
  | Some h, Some p => {| host := Some h; port := Some p |}
  | _, _ => {| host := None; port := None |}
  end.

End Wire.

(* ===================================================================== *)
(** * A decoder for control frames *)
(* ===================================================================== *)

(** [JSON.parse] is a built-in, and the handlers below take it as a
    parameter.  To run them on concrete frames, this module decodes the
    texts that the two ends write with [JSON.stringify]: one flat object
    whose values are strings, integers, booleans or [null], or the text
    [null].  On that fragment it agrees with [JSON.parse]; a text outside
    the fragment (nested values, fractions, unicode escapes, a scalar at
    top level, a property of the protocol with a value of another type) is
    not covered and is reported like a malformed one. *)
Module Json.
Import Wire.

Inductive Value :=
| VString (s : string)
| VNumber (n : Z)
| VBool (b : bool)
| VNull.

Definition quote : ascii := "034"%char.
Definition backslash : ascii := "092"%char.

Definition is_ws (c : ascii) : bool :=
  Ascii.eqb c " "%char || Ascii.eqb c "009"%char
  || Ascii.eqb c "010"%char || Ascii.eqb c "013"%char.

Fixpoint skip_ws (cs : list ascii) : list ascii :=
  match cs with
  | c :: cs' => if is_ws c then skip_ws cs' else cs
  | [] => []
  end.

Definition unescape (c : ascii) : option ascii :=
  if Ascii.eqb c quote then Some quote
  else if Ascii.eqb c backslash then Some backslash
  else if Ascii.eqb c "/"%char then Some "/"%char
  else if Ascii.eqb c "b"%char then Some "008"%char
  else if Ascii.eqb c "f"%char then Some "012"%char
  else if Ascii.eqb c "n"%char then Some "010"%char
  else if Ascii.eqb c "r"%char then Some "013"%char
  else if Ascii.eqb c "t"%char then Some "009"%char
  else None.

(** The characters of a string literal after its opening quote;
    [escaped] tells that the previous character was a backslash. *)
Fixpoint string_chars (escaped : bool) (cs : list ascii)
    : option (string * list ascii) :=
  match cs with
  | [] => None
  | c :: cs' =>
      if escaped then
        match unescape c, string_chars false cs' with
        | Some c', Some (s, rest) => Some (String c' s, rest)
        | _, _ => None
        end
      else if Ascii.eqb c quote then Some (EmptyString, cs')
      else if Ascii.eqb c backslash then string_chars true cs'
      else if (nat_of_ascii c <? 32)%nat then None
      else
        match string_chars false cs' with
        | Some (s, rest) => Some (String c s, rest)
        | None => None
        end
  end.

Definition digit (c : ascii) : option Z :=
  let n := nat_of_ascii c in
  if ((48 <=? n) && (n <=? 57))%nat then Some (Z.of_nat (n - 48)) else None.

Fixpoint digits (acc : Z) (cs : list ascii) : Z * list ascii :=
  match cs with
  | c :: cs' =>
      match digit c with
      | Some d => digits (10 * acc + d)%Z cs'
      | None => (acc, cs)
      end
  | [] => (acc, [])
  end.

(** An integer literal: [0], or a non-zero digit and more digits. *)
Definition natural (cs : list ascii) : option (Z * list ascii) :=
  match cs with
  | c :: cs' =>
      match digit c with
      | Some 0%Z => Some (0%Z, cs')
      | Some d => Some (digits d cs')
      | None => None
      end
  | [] => None
  end.

Definition value (cs : list ascii) : option (Value * list ascii) :=
  match cs with
  | "t"%char :: "r"%char :: "u"%char :: "e"%char :: rest => Some (VBool true, rest)
  | "f"%char :: "a"%char :: "l"%char :: "s"%char :: "e"%char :: rest =>
      Some (VBool false, rest)
  | "n"%char :: "u"%char :: "l"%char :: "l"%char :: rest => Some (VNull, rest)
  | "-"%char :: cs' =>
      match natural cs' with
      | Some (n, rest) => Some (VNumber (- n), rest)
      | None => None
      end
  | c :: cs' =>
      if Ascii.eqb c quote then
        match string_chars false cs' with
        | Some (s, rest) => Some (VString s, rest)
        | None => None
        end
      else
        match natural cs with
        | Some (n, rest) => Some (VNumber n, rest)
        | None => None
        end
  | [] => None
  end.

Definition empty : Body := request None None None None None None.

(** [body[k] = v]; a later duplicate of a name replaces an earlier one,
    a name that the protocol does not use is dropped. *)
Definition set_string (k : string) (v : option string) (b : Body) : Body :=
  {| body_type := if String.eqb k "type" then v else body_type b;
     body_command := if String.eqb k "command" then v else body_command b;
     body_passphrase := if String.eqb k "passphrase" then v else body_passphrase b;
     body_host := if String.eqb k "host" then v else body_host b;
     body_port := body_port b;
     body_connection := if String.eqb k "connection" then v else body_connection b;
     body_id := if String.eqb k "id" then v else body_id b;
     body_data := if String.eqb k "data" then v else body_data b;
     body_status := if String.eqb k "status" then v else body_status b;
     body_error := if String.eqb k "error" then v else body_error b;
     body_hadError := body_hadError b |}.

Definition set_port (v : option Z) (b : Body) : Body :=
  {| body_type := body_type b; body_command := body_command b;
     body_passphrase := body_passphrase b; body_host := body_host b;
     body_port := v; body_connection := body_connection b;
     body_id := body_id b; body_data := body_data b;
     body_status := body_status b; body_error := body_error b;
     body_hadError := body_hadError b |}.

Definition set_hadError (v : option bool) (b : Body) : Body :=
  {| body_type := body_type b; body_command := body_command b;
     body_passphrase := body_passphrase b; body_host := body_host b;
     body_port := body_port b; body_connection := body_connection b;
     body_id := body_id b; body_data := body_data b;
     body_status := body_status b; body_error := body_error b;
     body_hadError := v |}.

Definition string_names : list string :=
  ["type"; "command"; "passphrase"; "host"; "connection"; "id"; "data";
   "status"; "error"].

Definition set (k : string) (v : Value) (b : Body) : option Body :=
  if bool_decide (k ∈ string_names) then
    match v with
    | VString s => Some (set_string k (Some s) b)
    | VNull => Some (set_string k None b)
    | _ => None
    end
  else if String.eqb k "port" then
    match v with
    | VNumber n => Some (set_port (Some n) b)
    | VNull => Some (set_port None b)
    | _ => None
    end
  else if String.eqb k "hadError" then
    match v with
    | VBool x => Some (set_hadError (Some x) b)
    | VNull => Some (set_hadError None b)
    | _ => None
    end
  else Some b.

(** The members of an object, from the first name to the closing brace;
    every member consumes input, so the length of the text is fuel
    enough. *)
Fixpoint members (fuel : nat) (cs : list ascii) (b : Body)
    : option (Body * list ascii) :=
  match fuel with
  | O => None
  | S fuel' =>
      match cs with
      | c :: cs1 =>
          if Ascii.eqb c quote then
            match string_chars false cs1 with
            | Some (k, cs2) =>
                match skip_ws cs2 with
                | ":"%char :: cs3 =>
                    match value (skip_ws cs3) with
                    | Some (v, cs4) =>
                        match set k v b, skip_ws cs4 with
                        | Some b', ","%char :: cs5 => members fuel' (skip_ws cs5) b'
                        | Some b', "}"%char :: cs5 => Some (b', cs5)
                        | _, _ => None
                        end
                    | None => None
                    end
                | _ => None
                end
            | None => None
            end
          else None
      | [] => None
      end
  end.

Definition parse_chars (cs : list ascii) : Parsed :=
  match skip_ws cs with
  | "{"%char :: cs1 =>
      match skip_ws cs1 with
      | "}"%char :: cs2 =>
          match skip_ws cs2 with [] => Object empty | _ => Invalid end
      | cs2 =>
          match members (length cs2) cs2 empty with
          | Some (b, cs3) =>
              match skip_ws cs3 with [] => Object b | _ => Invalid end
          | None => Invalid
          end
      end
  | "n"%char :: "u"%char :: "l"%char :: "l"%char :: cs1 =>
      match skip_ws cs1 with [] => Null | _ => Invalid end
  | _ => Invalid
  end.

Definition parse (text : string) : Parsed :=
  parse_chars (list_ascii_of_string text).

(** ** [JSON.stringify] of a body *)

Fixpoint escape (s : string) : string :=
  match s with
  | EmptyString => EmptyString
  | String c s' =>
      if Ascii.eqb c quote then String backslash (String quote (escape s'))
      else if Ascii.eqb c backslash then String backslash (String backslash (escape s'))
      else if Ascii.eqb c "010"%char then String backslash (String "n"%char (escape s'))
      else if Ascii.eqb c "013"%char then String backslash (String "r"%char (escape s'))
      else if Ascii.eqb c "009"%char then String backslash (String "t"%char (escape s'))
      else if Ascii.eqb c "008"%char then String backslash (String "b"%char (escape s'))
      else if Ascii.eqb c "012"%char then String backslash (String "f"%char (escape s'))
      else String c (escape s')
  end.

Definition quoted (s : string) : string :=
  String quote (escape s +:+ String quote EmptyString).

Definition member (k : string) (v : option string) : list string :=
  match v with
  | Some text => [quoted k +:+ ":" +:+ text]
  | None => []
  end.

Definition number (n : Z) : string := NilZero.string_of_int (Z.to_int n).

Definition boolean (b : bool) : string := if b then "true" else "false".

Fixpoint join (l : list string) : string :=
  match l with
  | [] => EmptyString
  | [x] => x
  | x :: l' => x +:+ "," +:+ join l'
  end.

(** A property whose value is [undefined] is left out. *)
Definition stringify (b : Body) : string :=
  "{" +:+ join
    (member "type" (quoted <$> body_type b)
     ++ member "command" (quoted <$> body_command b)
     ++ member "passphrase" (quoted <$> body_passphrase b)
     ++ member "host" (quoted <$> body_host b)
     ++ member "port" (number <$> body_port b)
     ++ member "connection" (quoted <$> body_connection b)
     ++ member "id" (quoted <$> body_id b)
     ++ member "data" (quoted <$> body_data b)
     ++ member "status" (quoted <$> body_status b)
     ++ member "error" (quoted <$> body_error b)
     ++ member "hadError" (boolean <$> body_hadError b)) +:+ "}".

End Json.

(* ===================================================================== *)
(** * The relay ([src/commands/server.ts]) *)
(* ===================================================================== *)

Module Server.
Import Wire.

(** Modelled from the spec: [ICredential] is imported from [utils] but its
    declaration is not among the sources.  A credential is a passphrase
    and an optional [allowed] mapping from a host to its permitted
    ports; the loader of [Server.run] builds that mapping as an object
    of number arrays, pushing [0] for the port [*]. *)
Record ICredential := {
  passphrase : string;
  allowed : option (gmap string (list Z))
}.

(** [class SocketConnection]; [socket] names the [net.Socket] of the
    connection by the logical id it was dialled for. *)
Record SocketConnection := {
  target : HostPortPair;
  socket : option string
}.

(** What the callbacks do to the outside world, in call order. *)
Inductive Effect :=
| SendJSON (conn : string) (body : Body)
| ConnClose (conn : string)
| NetConnect (id : string) (target : HostPortPair)
| SocketWrite (id : string) (data : list byte)
| SocketEnd (id : string)
| Unhandled (e : Exception).

(** The variables that the closures of [Server.run] share.
    - [sockets]: the registry, [conn.id] to (logical id to connection);
    - [passphrases]: the property [conn.passphrase] of every connection;
    - [dials]: logical ids whose [start()] promise is pending, with the
      connection and target captured by the [then]/[catch] callbacks;
    - [streams]: logical ids whose target socket carries the [data] and
      [close] listeners, with the captured connection;
    - [writes]: [socket.write] callbacks not yet called. *)
Record State := {
  sockets : gmap string (gmap string SocketConnection);
  passphrases : gmap string string;
  dials : gmap string (string * HostPortPair);
  streams : gmap string string;
  writes : list (string * string);
  effects : list Effect
}.

Definition initial : State :=
  {| sockets := ∅; passphrases := ∅; dials := ∅; streams := ∅;
     writes := []; effects := [] |}.

Definition emit (e : Effect) (st : State) : State :=
  {| sockets := sockets st; passphrases := passphrases st;
     dials := dials st; streams := streams st; writes := writes st;
     effects := effects st ++ [e] |}.

Definition set_sockets (m : gmap string (gmap string SocketConnection))
    (st : State) : State :=
  {| sockets := m; passphrases := passphrases st;
     dials := dials st; streams := streams st; writes := writes st;
     effects := effects st |}.

Definition set_passphrases (m : gmap string string) (st : State) : State :=
  {| sockets := sockets st; passphrases := m;
     dials := dials st; streams := streams st; writes := writes st;
     effects := effects st |}.

Definition set_dials (m : gmap string (string * HostPortPair))
    (st : State) : State :=
  {| sockets := sockets st; passphrases := passphrases st;
     dials := m; streams := streams st; writes := writes st;
     effects := effects st |}.

Definition set_streams (m : gmap string string) (st : State) : State :=
  {| sockets := sockets st; passphrases := passphrases st;
     dials := dials st; streams := m; writes := writes st;
     effects := effects st |}.

Definition set_writes (w : list (string * string)) (st : State) : State :=
  {| sockets := sockets st; passphrases := passphrases st;
     dials := dials st; streams := streams st; writes := w;
     effects := effects st |}.

(** [sendJSON(conn, log, body)] *)
Definition sendJSON (conn : string) (body : Body) (st : State) : State :=
  emit (SendJSON conn body) st.

(** [Array.prototype.indexOf] on a number array: the first index of the
    value, or [-1]. *)
Fixpoint indexOf_from (l : list Z) (v : Z) (i : Z) : Z :=
  match l with
  | [] => (-1)%Z
  | x :: l' => if Z.eqb x v then i else indexOf_from l' v (i + 1)%Z
  end.

Definition indexOf (l : list Z) (v : option Z) : Z :=
  match v with
  | Some v => indexOf_from l v 0%Z
  | None => (-1)%Z
  end.

(** The key of a property access [obj[k]]: [undefined] is converted to
    the string [undefined]. *)
Definition key (k : option string) : string :=
  match k with Some s => s | None => "undefined" end.

(** The outcome of the authorization block of the START handler. *)
Inductive Access :=
| Granted
| Refused (error : string)
| Raised (e : Exception).

Section Run.

(** [JSON.parse], a built-in. *)
Variable JSON_parse : string -> Parsed.
(** [credentials], assigned once before the server listens. *)
Variable credentials : option (gmap string ICredential).

(** [isAuthenticated], lines 133-138.  [credentials] is a plain
    object: [credentials[passphrase]] is also defined when the
    passphrase is the name of a member of [Object.prototype]. *)
Definition isAuthenticated (body : Body) : bool :=
  match credentials with
  | None => true
  | Some creds =>
      if negb (truthy (body_passphrase body)) then false
      else
        match get creds (key (body_passphrase body)) with
        | Undefined => false
        | _ => true
        end
  end.

(** Lines 205-214: the port is refused when neither it nor the
    wildcard port [0] is in the array. *)
Definition checkPorts (allowedPorts : list Z) (pair : HostPortPair) : Access :=
  if Z.eqb (indexOf allowedPorts (port pair)) (-1)
     && Z.eqb (indexOf allowedPorts (Some 0%Z)) (-1)
  then Refused "FORBIDDEN"
  else Granted.

(** Lines 186-216 of the START handler: [passphrase] is
    [conn.passphrase] and [pair] the requested target.  Both
    [credentials] and [allowed] are plain objects.
    - [credentials[passphrase]]: destructuring [undefined] throws; a
      member of [Object.prototype] has no property [allowed], and the
      request is granted.
    - [allowed[pair.host] || allowed['*']]: a member of
      [Object.prototype] is truthy, so it is the value of both
      occurrences, and it has no [indexOf], whose call throws. *)
Definition authorize (passphrase : option string) (pair : HostPortPair)
    : Access :=
  match credentials with
  | None => Granted
  | Some creds =>
      if negb (truthy passphrase) then Refused "AUTHFAIL"
      else
        match get creds (key passphrase) with
        | Undefined => Raised TypeError
        | Member => Granted
        | Own credential =>
            match allowed credential with
            | None => Granted
            | Some allowed =>
                match get allowed (key (host pair)) with
                | Own allowedPorts => checkPorts allowedPorts pair
                | Member => Raised TypeError
                | Undefined =>
                    match get allowed "*" with
                    | Own allowedPorts => checkPorts allowedPorts pair
                    | Member => Raised TypeError
                    | Undefined => Refused "FORBIDDEN"
                    end
                end
            end
        end
  end.

(** [net.connect(options)] throws at once when the port is missing or
    is no integer from 0 to 65535. *)
Definition dialable (pair : HostPortPair) : bool :=
  match port pair with
  | Some p => (0 <=? p)%Z && (p <=? 65535)%Z
  | None => false
  end.

(** The CONNECT branch, lines 164-175. *)
Definition onConnect (conn : string) (body : Body) (st : State)
    : State * Completion :=
  if negb (isAuthenticated body) then
    (sendJSON conn (reply (Some "CONNECT") None None (Some "AUTHFAIL") None None) st,
     Normal)
  else
    let st1 :=
      if truthy (body_passphrase body)
      then set_passphrases
             (<[conn := key (body_passphrase body)]> (passphrases st)) st
      else st in
    let st2 := set_sockets (<[conn := ∅]> (sockets st1)) st1 in
    (sendJSON conn (reply (Some "CONNECT") None None None None None) st2, Normal).

(** The START branch, lines 176-267, up to the call of
    [socketConnection.start()]; [id] is the fresh [UUIDv4()].  When
    [net.connect] throws inside the executor of the promise of
    [start()], the promise is rejected with an error that has no
    [reason], and the [catch] callback answers FAILED in the same
    turn of the loop. *)
Definition onStart (conn : string) (body : Body) (id : string) (st : State)
    : State * Completion :=
  match sockets st !! conn with
  | None =>
      (sendJSON conn (reply (body_type body) None None (Some "AUTHFAIL") None None) st,
       Normal)
  | Some _ =>
      let pair := fromBody body in
      match authorize (passphrases st !! conn) pair with
      | Refused error =>
          (sendJSON conn (reply (body_type body) None None (Some error) None None) st,
           Normal)
      | Raised e => (st, Throw e)
      | Granted =>
          let st1 :=
            sendJSON conn
              (reply (Some "START") (Some "CONNECTING") (Some id) None None None) st in
          if dialable pair then
            let st2 := emit (NetConnect id pair) st1 in
            (set_dials (<[id := (conn, pair)]> (dials st2)) st2, Normal)
          else
            (sendJSON conn
               (reply None (Some "FAILED") (Some id) None None None) st1,
             Normal)
      end
  end.

(** The TRAFFIC branch, lines 268-308.  The mapping of a session is a
    plain object: for an id that names a member of
    [Object.prototype], [sockets[conn.id][body.id]] is that member,
    which is truthy and has no [socket]. *)
Definition onTraffic (conn : string) (body : Body) (st : State)
    : State * Completion :=
  let st1 :=
    match sockets st !! conn with
    | None =>
        sendJSON conn (reply (body_type body) None None (Some "AUTHFAIL") None None) st
    | Some _ => st
    end in
  if negb (truthy (body_id body)) then
    (sendJSON conn
       (reply (Some "TRAFFIC") None (body_id body) (Some "NOID") None None) st1,
     Normal)
  else
    match sockets st1 !! conn with
    | None => (st1, Throw TypeError)
    | Some connections =>
        match get connections (key (body_id body)) with
        | Undefined =>
            (sendJSON conn
               (reply (Some "TRAFFIC") None (body_id body) (Some "INVALIDID") None None)
               st1,
             Normal)
        | Member =>
            (sendJSON conn
               (reply (Some "TRAFFIC") None (body_id body) (Some "CLOSED") None None)
               st1,
             Normal)
        | Own socketConnection =>
            match socket socketConnection with
            | None =>
                (sendJSON conn
                   (reply (Some "TRAFFIC") None (body_id body) (Some "CLOSED") None None)
                   st1,
                 Normal)
            | Some sock =>
                match body_data body with
                | None => (st1, Throw TypeError)
                | Some data =>
                    let st2 := emit (SocketWrite sock (Base64.decode data)) st1 in
                    (set_writes (writes st2 ++ [(conn, key (body_id body))]) st2,
                     Normal)
                end
            end
        end
    end.

(** The [message] listener of a connection, lines 159-316. *)
Definition onMessage (conn : string) (message : IMessage) (id : string)
    (st : State) : State * Completion :=
  match message with
  | Binary _ => (st, Normal)
  | Utf8 utf8Data =>
      match JSON_parse utf8Data with
      | Invalid => (st, Throw SyntaxError)
      | Null => (st, Throw TypeError)
      | Object body =>
          if is_str (body_type body) "CONNECT" then onConnect conn body st
          else if is_str (body_type body) "START" then onStart conn body id st
          else if is_str (body_type body) "TRAFFIC" then onTraffic conn body st
          else
            (sendJSON conn
               (reply (if truthy (body_type body) then body_type body
                       else Some "UNKNOWN")
                  None None (Some "NOTIMPLEMENTED") None None) st,
             Normal)
      end
  end.

(** The socket of [id] emits [connect]: [start()] (lines 32-44) stores
    it and resolves, and the [then] callback (lines 225-259) runs.  If
    the registration on its last line throws, the [catch] callback
    (lines 260-267) runs with an error that has no [reason]. *)
Definition onSocketConnect (id : string) (st : State) : State * Completion :=
  match dials st !! id with
  | None => (st, Normal)
  | Some (conn, hostPort) =>
      let socketConnection := {| target := hostPort; socket := Some id |} in
      let st1 := set_dials (delete id (dials st)) st in
      let st2 :=
        sendJSON conn
          (reply None (Some "ESTABLISHED") (Some id) None None None) st1 in
      let st3 := set_streams (<[id := conn]> (streams st2)) st2 in
      match sockets st3 !! conn with
      | None =>
          (sendJSON conn
             (reply None (Some "FAILED") (Some id) None None None) st3,
           Normal)
      | Some connections =>
          (set_sockets
             (<[conn := <[id := socketConnection]> connections]> (sockets st3)) st3,
           Normal)
      end
  end.

(** The socket of [id] emits [timeout]: [start()] rejects with
    [TunnelError('TIMEOUT')] and the [catch] callback runs. *)
Definition onSocketTimeout (id : string) (st : State) : State * Completion :=
  match dials st !! id with
  | None => (st, Normal)
  | Some (conn, _) =>
      let e := {| reason := "TIMEOUT" |} in
      let st1 := set_dials (delete id (dials st)) st in
      (sendJSON conn
         (reply None (Some "FAILED") (Some id) (Some (reason e)) None None) st1,
       Normal)
  end.

(** The socket of [id] emits [error] (connection refused, unknown
    host, reset): no listener is registered for it, neither by
    [start()] nor by the [then] callback, so the promise of a pending
    dial stays pending and the emitter throws the error. *)
Definition onSocketError (id : string) (st : State) : State * Completion :=
  match dials st !! id, streams st !! id with
  | None, None => (st, Normal)
  | _, _ => (st, Throw SocketFailure)
  end.

(** The [data] listener, lines 241-246. *)
Definition onSocketData (id : string) (data : list byte) (st : State)
    : State * Completion :=
  match streams st !! id with
  | None => (st, Normal)
  | Some conn =>
      (sendJSON conn
         (reply None None (Some id) None (Some (Base64.encode data)) None) st,
       Normal)
  end.

(** The [close] listener, lines 248-256. *)
Definition onSocketClose (id : string) (hadError : bool) (st : State)
    : State * Completion :=
  match streams st !! id with
  | None => (st, Normal)
  | Some conn =>
      let st1 := set_streams (delete id (streams st)) st in
      match sockets st1 !! conn with
      | None => (st1, Throw TypeError)
      | Some connections =>
          let st2 :=
            set_sockets (<[conn := delete id connections]> (sockets st1)) st1 in
          let st3 :=
            sendJSON conn
              (reply None (Some "CLOSED") (Some id) None None (Some hadError)) st2 in
          (emit (ConnClose conn) st3, Normal)
      end
  end.

Fixpoint remove_first (w : string * string) (l : list (string * string))
    : list (string * string) :=
  match l with
  | [] => []
  | x :: l' => if bool_decide (x = w) then l' else x :: remove_first w l'
  end.

(** The callback of [socket.write], lines 298-308. *)
Definition onWriteCallback (conn id : string) (err : option string)
    (st : State) : State * Completion :=
  if bool_decide ((conn, id) ∈ writes st) then
    let st1 := set_writes (remove_first (conn, id) (writes st)) st in
    (sendJSON conn (reply (Some "TRAFFIC") None (Some id) err None None) st1,
     Normal)
  else (st, Normal).

(** [SocketConnection.close], lines 46-55, for every key of the
    mapping.  The listener awaits each [close()] in turn; the model
    runs them in one step, in the order of [map_to_list]. *)
Fixpoint closeAll (conn : string) (open : list (string * SocketConnection))
    (st : State) : State * Completion :=
  match open with
  | [] => (st, Normal)
  | (id, socketConnection) :: rest =>
      match socket socketConnection with
      | None => (st, Throw (Tunnel {| reason := "NOCONNECTION" |}))
      | Some sock =>
          let st1 := emit (SocketEnd sock) st in
          let closed := {| target := target socketConnection; socket := None |} in
          let st2 :=
            match sockets st1 !! conn with
            | Some connections =>
                set_sockets (<[conn := <[id := closed]> connections]> (sockets st1)) st1
            | None => st1
            end in
          closeAll conn rest st2
      end
  end.

(** The [close] listener of a connection, lines 318-323. *)
Definition onConnClose (conn : string) (st : State) : State * Completion :=
  match sockets st !! conn with
  | None => (st, Normal)
  | Some openConnections => closeAll conn (map_to_list openConnections) st
  end.

(** ** The event loop *)

Inductive Event :=
| Message (conn : string) (message : IMessage) (uuid : string)
| SocketConnect (id : string)
| SocketTimeout (id : string)
| SocketError (id : string)
| SocketData (id : string) (data : list byte)
| SocketClose (id : string) (hadError : bool)
| WriteCallback (conn id : string) (err : option string)
| ConnClosed (conn : string).

(** A [Message] event carries the value that [UUIDv4()] returns in
    the handler.  A UUID is never the name of a member of
    [Object.prototype]: an event that says otherwise does not
    occur. *)
Definition step (ev : Event) (st : State) : State * Completion :=
  match ev with
  | Message conn message uuid =>
      if inherited uuid then (st, Normal) else onMessage conn message uuid st
  | SocketConnect id => onSocketConnect id st
  | SocketTimeout id => onSocketTimeout id st
  | SocketError id => onSocketError id st
  | SocketData id data => onSocketData id data st
  | SocketClose id hadError => onSocketClose id hadError st
  | WriteCallback conn id err => onWriteCallback conn id err st
  | ConnClosed conn => onConnClose conn st
  end.

(** One turn of the loop; an exception that leaves a callback is
    logged.  The listeners of a connection are [async] functions: an
    exception that leaves one rejects a promise that nothing handles,
    which Node reports while the loop goes on (from Node 15 on, it
    ends the process).  The exception of an [error] event without a
    listener ends the process.  Where the process ends, no later
    event occurs; [exec] does not enforce it, and a trace may go
    on. *)
Definition exec (st : State) (ev : Event) : State :=
  match step ev st with
  | (st', Normal) => st'
  | (st', Throw e) => emit (Unhandled e) st'
  end.

Definition run (evs : list Event) (st : State) : State :=
  fold_left exec evs st.

End Run.
End Server.

(* ===================================================================== *)
(** * The client ([src/commands/client.ts]) *)
(* ===================================================================== *)

Module Client.
Import Wire.

(** The two asynchronous functions that take the lock: [Client.run]
    itself (lines 216-220) and the [data] listener of a local socket
    (lines 178-190), which carries the chunk to forward. *)
Inductive Kind :=
| Startup
| Forward (data : list byte).

(** Where the holder of the lock is suspended: [lock.acquire()] has
    resolved; [startConnection] of the [k]-th [WSClient] is pending; it
    has resolved. *)
Inductive Pc :=
| Acquired
| Connecting (k : nat)
| Resolved.

Definition Task : Type := (Kind * Pc)%type.

(** A [WSClient] and its connection: [connect] was called; the
    connection is open; it has closed. *)
Inductive Link :=
| Dialling
| Open
| Closed.

(** What the callbacks do to the outside world, in call order.  A
    WebSocket connection is named by the number of the [WSClient] that
    opened it, a local socket by a string. *)
Inductive Effect :=
| WsConnect (k : nat)
| SendJSON (k : nat) (body : Body)
| ConnClose (k : nat)
| SocketWrite (socket : string) (data : list byte)
| SocketEnd (socket : string)
| ServerClose
| Exit
| Unhandled (e : Exception).

(** The variables of [Client.run] that its closures share, and the
    state of the libraries they call.
    - [lock], [waiting]: the [Mutex], as its holder and the queue of
      callers of [acquire()], first come first served;
    - [clients], [links]: the [WSClient]s created by [setupWsClient];
    - [accepted]: the local sockets that carry the [data] and [close]
      listeners of [net.createServer];
    - [exited]: [process.exit] was called. *)
Record State := {
  connectionId : option string;
  wsConnection : option nat;
  isConnected : bool;
  buffers : list (list byte);
  client : option string;
  lock : option Task;
  waiting : list Kind;
  clients : nat;
  links : gmap nat Link;
  accepted : gset string;
  exited : bool;
  effects : list Effect
}.

Definition emit (e : Effect) (s : State) : State :=
  {| connectionId := connectionId s; wsConnection := wsConnection s;
     isConnected := isConnected s; buffers := buffers s; client := client s;
     lock := lock s; waiting := waiting s; clients := clients s;
     links := links s; accepted := accepted s; exited := exited s;
     effects := effects s ++ [e] |}.

Definition set_connectionId (v : option string) (s : State) : State :=
  {| connectionId := v; wsConnection := wsConnection s;
     isConnected := isConnected s; buffers := buffers s; client := client s;
     lock := lock s; waiting := waiting s; clients := clients s;
     links := links s; accepted := accepted s; exited := exited s;
     effects := effects s |}.

Definition set_wsConnection (v : option nat) (s : State) : State :=
  {| connectionId := connectionId s; wsConnection := v;
     isConnected := isConnected s; buffers := buffers s; client := client s;
     lock := lock s; waiting := waiting s; clients := clients s;
     links := links s; accepted := accepted s; exited := exited s;
     effects := effects s |}.

Definition set_isConnected (v : bool) (s : State) : State :=
  {| connectionId := connectionId s; wsConnection := wsConnection s;
     isConnected := v; buffers := buffers s; client := client s;
     lock := lock s; waiting := waiting s; clients := clients s;
     links := links s; accepted := accepted s; exited := exited s;
     effects := effects s |}.

Definition set_buffers (v : list (list byte)) (s : State) : State :=
  {| connectionId := connectionId s; wsConnection := wsConnection s;
     isConnected := isConnected s; buffers := v; client := client s;
     lock := lock s; waiting := waiting s; clients := clients s;
     links := links s; accepted := accepted s; exited := exited s;
     effects := effects s |}.

Definition set_client (v : option string) (s : State) : State :=
  {| connectionId := connectionId s; wsConnection := wsConnection s;
     isConnected := isConnected s; buffers := buffers s; client := v;
     lock := lock s; waiting := waiting s; clients := clients s;
     links := links s; accepted := accepted s; exited := exited s;
     effects := effects s |}.

Definition set_lock (v : option Task) (s : State) : State :=
  {| connectionId := connectionId s; wsConnection := wsConnection s;
     isConnected := isConnected s; buffers := buffers s; client := client s;
     lock := v; waiting := waiting s; clients := clients s;
     links := links s; accepted := accepted s; exited := exited s;
     effects := effects s |}.

Definition set_waiting (v : list Kind) (s : State) : State :=
  {| connectionId := connectionId s; wsConnection := wsConnection s;
     isConnected := isConnected s; buffers := buffers s; client := client s;
     lock := lock s; waiting := v; clients := clients s; links := links s;
     accepted := accepted s; exited := exited s; effects := effects s |}.

Definition set_clients (v : nat) (s : State) : State :=
  {| connectionId := connectionId s; wsConnection := wsConnection s;
     isConnected := isConnected s; buffers := buffers s; client := client s;
     lock := lock s; waiting := waiting s; clients := v; links := links s;
     accepted := accepted s; exited := exited s; effects := effects s |}.

Definition set_links (v : gmap nat Link) (s : State) : State :=
  {| connectionId := connectionId s; wsConnection := wsConnection s;
     isConnected := isConnected s; buffers := buffers s; client := client s;
     lock := lock s; waiting := waiting s; clients := clients s; links := v;
     accepted := accepted s; exited := exited s; effects := effects s |}.

Definition set_accepted (v : gset string) (s : State) : State :=
  {| connectionId := connectionId s; wsConnection := wsConnection s;
     isConnected := isConnected s; buffers := buffers s; client := client s;
     lock := lock s; waiting := waiting s; clients := clients s;
     links := links s; accepted := v; exited := exited s;
     effects := effects s |}.

Definition set_exited (v : bool) (s : State) : State :=
  {| connectionId := connectionId s; wsConnection := wsConnection s;
     isConnected := isConnected s; buffers := buffers s; client := client s;
     lock := lock s; waiting := waiting s; clients := clients s;
     links := links s; accepted := accepted s; exited := v;
     effects := effects s |}.

(** [Client.run] up to its first suspension: the lock is free and
    [acquire()] grants it. *)
Definition initial : State :=
  {| connectionId := Some EmptyString; wsConnection := None;
     isConnected := false; buffers := []; client := None;
     lock := Some (Startup, Acquired); waiting := []; clients := 0;
     links := ∅; accepted := ∅; exited := false; effects := [] |}.

(** [sendJSON(conn, log, body)] *)
Definition sendJSON (k : nat) (body : Body) (s : State) : State :=
  emit (SendJSON k body) s.

(** [panic], [src/utils.ts] lines 79-94: log and [process.exit(-1)]. *)
Definition panic (s : State) : State := set_exited true (emit Exit s).

(** [release()]: the lock goes to the first caller in the queue, whose
    [acquire()] resolves, or becomes free. *)
Definition release (s : State) : State :=
  match waiting s with
  | [] => set_lock None s
  | next :: rest => set_lock (Some (next, Acquired)) (set_waiting rest s)
  end.

Section Run.

(** [JSON.parse], a built-in. *)
Variable JSON_parse : string -> Parsed.
(** The flag [--passphrase] and the two parts of the argument
    [target]: [target.split(':')[0]] and
    [parseInt(target.split(':')[1])]. *)
Variable passphrase : option string.
Variable host : string.
Variable port : option Z.

(** [startConnection(setupWsClient(), relayServer)], lines 14-26 and
    78-175, up to its suspension: a new [WSClient] and its
    [connect] call. *)
Definition startConnection (kind : Kind) (s : State) : State :=
  let k := clients s in
  let s1 := emit (WsConnect k) s in
  let s2 := set_links (<[k := Dialling]> (links s1)) s1 in
  set_lock (Some (kind, Connecting k)) (set_clients (S k) s2).

(** Lines 184-189: forward the chunk on the current connection. *)
Definition forward (data : list byte) (s : State) : State :=
  match wsConnection s with
  | Some k =>
      sendJSON k
        (request (Some "TRAFFIC") None None None (connectionId s)
           (Some (Base64.encode data))) s
  | None => s
  end.

(** The holder of the lock resumes after its [await]. *)
Definition onResume (s : State) : State * Completion :=
  match lock s with
  | Some (Forward data, Acquired) =>
      if negb (isConnected s) then (startConnection (Forward data) s, Normal)
      else (forward data (release s), Normal)
  | Some (Forward data, Resolved) => (forward data (release s), Normal)
  | Some (Startup, Acquired) => (startConnection Startup s, Normal)
  | Some (Startup, Resolved) => (set_isConnected true (release s), Normal)
  | _ => (s, Normal)
  end.

(** The [data] listener of a local socket up to
    [await lock.acquire()], line 179. *)
Definition onLocalData (socket : string) (data : list byte) (s : State)
    : State * Completion :=
  if bool_decide (socket ∈ accepted s) then
    match lock s with
    | None => (set_lock (Some (Forward data, Acquired)) s, Normal)
    | Some _ => (set_waiting (waiting s ++ [Forward data]) s, Normal)
    end
  else (s, Normal).

(** The [close] listener of a local socket, lines 192-195. *)
Definition onLocalClose (socket : string) (s : State) : State * Completion :=
  if bool_decide (socket ∈ accepted s) then
    let s1 := set_accepted (accepted s ∖ {[socket]}) s in
    let s2 :=
      match wsConnection s1 with
      | Some k => emit (ConnClose k) s1
      | None => s1
      end in
    (set_client None s2, Normal)
  else (s, Normal).

(** [while (buffers.length > 0) socket.write(buffers.shift())],
    lines 202-206. *)
Fixpoint flush (socket : string) (pending : list (list byte)) (s : State)
    : State :=
  match pending with
  | [] => s
  | buffer :: rest =>
      flush socket rest (emit (SocketWrite socket buffer) (set_buffers rest s))
  end.

(** A local connection: the callback of [net.createServer], lines
    177-196, registers the listeners of the socket, then the
    [connection] listener, lines 198-210, attaches or rejects it. *)
Definition onLocalConnection (socket : string) (s : State)
    : State * Completion :=
  let s1 := set_accepted (accepted s ∪ {[socket]}) s in
  match client s1 with
  | None => (flush socket (buffers s1) (set_client (Some socket) s1), Normal)
  | Some _ => (emit (SocketEnd socket) s1, Normal)
  end.

(** The [connect] listener of [setupWsClient], lines 86-91. *)
Definition onWsConnect (k : nat) (s : State) : State * Completion :=
  match links s !! k with
  | Some Dialling =>
      let s1 := set_links (<[k := Open]> (links s)) s in
      let s2 := set_wsConnection (Some k) (set_isConnected true s1) in
      (sendJSON k (request (Some "CONNECT") passphrase None None None None) s2,
       Normal)
  | _ => (s, Normal)
  end.

(** The [connectFailed] listener, lines 82-84. *)
Definition onWsConnectFailed (k : nat) (s : State) : State * Completion :=
  match links s !! k with
  | Some Dialling => (panic s, Normal)
  | _ => (s, Normal)
  end.

(** [conn.close(); localServer?.close(); panic(log, body.error)] *)
Definition fatal (k : nat) (s : State) : State :=
  panic (emit ServerClose (emit (ConnClose k) s)).

(** The [switch (body.command)] of the [message] listener, lines
    97-128. *)
Definition onCommand (k : nat) (body : Body) (s : State) : State :=
  if is_str (body_command body) "CONNECT" then
    if truthy (body_error body) then fatal k s
    else sendJSON k (request (Some "START") None (Some host) port None None) s
  else if is_str (body_command body) "START" then
    if truthy (body_error body) then fatal k s
    else set_connectionId (body_connection body) s
  else if is_str (body_command body) "TRAFFIC" then
    if truthy (body_error body) then fatal k s else s
  else s.

(** The [if (body.connection)] of the [message] listener, lines
    130-163. *)
Definition onConnection (body : Body) (s : State) : State * Completion :=
  if truthy (body_connection body) then
    if truthy (body_status body) then
      if is_str (body_status body) "CLOSED" || is_str (body_status body) "FAILED"
      then (panic (emit ServerClose s), Normal)
      else (s, Normal)
    else if truthy (body_data body) then
      let buffer := Base64.decode (default EmptyString (body_data body)) in
      match client s with
      | Some socket => (emit (SocketWrite socket buffer) s, Normal)
      | None => (set_buffers (buffers s ++ [buffer]) s, Normal)
      end
    else (s, Normal)
  else (s, Normal).

(** The [message] listener of [startConnection], lines 18-23:
    ESTABLISHED resolves the promise that the holder of the lock
    awaits. *)
Definition onEstablished (k : nat) (body : Body) (s : State) : State :=
  if is_str (body_status body) "ESTABLISHED" then
    match lock s with
    | Some (kind, Connecting k') =>
        if Nat.eqb k k' then set_lock (Some (kind, Resolved)) s else s
    | _ => s
    end
  else s.

(** A frame on the connection of the [k]-th [WSClient]: the listener
    of [setupWsClient], lines 93-165, then the one of
    [startConnection]. *)
Definition onMessage (k : nat) (message : IMessage) (s : State)
    : State * Completion :=
  match message with
  | Binary _ => (s, Normal)
  | Utf8 utf8Data =>
      match JSON_parse utf8Data with
      | Invalid => (s, Throw SyntaxError)
      | Null => (s, Throw TypeError)
      | Object body =>
          let s1 := onCommand k body s in
          if exited s1 then (s1, Normal)
          else
            match onConnection body s1 with
            | (s2, Normal) =>
                if exited s2 then (s2, Normal)
                else (onEstablished k body s2, Normal)
            | (s2, Throw e) => (s2, Throw e)
            end
      end
  end.

(** The [close] listener of a connection, lines 167-171. *)
Definition onWsClose (k : nat) (s : State) : State * Completion :=
  match links s !! k with
  | Some Open =>
      (set_isConnected false (set_links (<[k := Closed]> (links s)) s), Normal)
  | _ => (s, Normal)
  end.

(** ** The event loop *)

Inductive Event :=
| LocalConnection (socket : string)
| LocalData (socket : string) (data : list byte)
| LocalClose (socket : string)
| Resume
| WsConnected (k : nat)
| WsConnectFailed (k : nat)
| WsMessage (k : nat) (message : IMessage)
| WsClosed (k : nat).

Definition step (ev : Event) (s : State) : State * Completion :=
  if exited s then (s, Normal)
  else
    match ev with
    | LocalConnection socket => onLocalConnection socket s
    | LocalData socket data => onLocalData socket data s
    | LocalClose socket => onLocalClose socket s
    | Resume => onResume s
    | WsConnected k => onWsConnect k s
    | WsConnectFailed k => onWsConnectFailed k s
    | WsMessage k message =>
        match links s !! k with
        | Some Open => onMessage k message s
        | _ => (s, Normal)
        end
    | WsClosed k => onWsClose k s
    end.

(** One turn of the loop; an exception that leaves a listener ends the
    process. *)
Definition exec (s : State) (ev : Event) : State :=
  match step ev s with
  | (s', Normal) => s'
  | (s', Throw e) => set_exited true (emit (Unhandled e) s')
  end.

Definition run (evs : list Event) (s : State) : State :=
  fold_left exec evs s.

End Run.
End Client.

(* ===================================================================== *)
(** * Targets as strings ([src/utils.ts], [HostPortPair]) *)
(* ===================================================================== *)

Module Utils.
Import Wire.

(** [s.split(sep)] for a separator of one character: the pieces between
    the separators, at least one. *)
Fixpoint split (sep : ascii) (s : string) : list string :=
  match s with
  | EmptyString => [EmptyString]
  | String c s' =>
      if Ascii.eqb c sep then EmptyString :: split sep s'
      else
        match split sep s' with
        | first :: rest => String c first :: rest
        | [] => [String c EmptyString]
        end
  end.

(** White space that [parseInt] skips, among the characters of one
    byte: tab, line feed, vertical tab, form feed, carriage return and
    space. *)
Definition is_white (c : ascii) : bool :=
  let n := N_of_ascii c in
  ((9 <=? n) && (n <=? 13) || (n =? 32))%N.

Fixpoint trim_start (s : string) : string :=
  match s with
  | String c s' => if is_white c then trim_start s' else s
  | EmptyString => EmptyString
  end.

(** The value of a digit in a radix up to 36. *)
Definition digit_value (c : ascii) : option Z :=
  let n := Z.of_N (N_of_ascii c) in
  if (48 <=? n)%Z && (n <=? 57)%Z then Some (n - 48)%Z
  else if (97 <=? n)%Z && (n <=? 122)%Z then Some (n - 87)%Z
  else if (65 <=? n)%Z && (n <=? 90)%Z then Some (n - 55)%Z
  else None.

(** The value of the longest prefix of digits of the radix; [acc] is
    the value read so far, [None] before the first digit. *)
Fixpoint digits (radix : Z) (acc : option Z) (s : string) : option Z :=
  match s with
  | EmptyString => acc
  | String c s' =>
      match digit_value c with
      | Some d =>
          if (d <? radix)%Z
          then digits radix (Some (radix * default 0%Z acc + d)%Z) s'
          else acc
      | None => acc
      end
  end.

Definition hex_prefix (s : string) : bool :=
  match s with
  | String c0 (String c1 _) =>
      Ascii.eqb c0 "0" && (Ascii.eqb c1 "x" || Ascii.eqb c1 "X")
  | _ => false
  end.

(** A number, as far as the embedding follows it: [NaN]; an integer
    that a double holds exactly; or a number that it does not
    determine. *)
Inductive Number :=
| NaN
| Integer (n : Z)
| Unknown.

(** The integers up to 2^53 in magnitude: a double holds each of them
    exactly, and [Number.prototype.toString] prints each in plain
    decimal. *)
Definition exact (n : Z) : bool := (Z.abs n <=? 2 ^ 53)%Z.

(** The characters of ASCII.  The strings of the embedding are
    sequences of bytes; beyond ASCII, what [parseInt] skips as white
    space depends on how the bytes are read as characters. *)
Definition is_ascii (c : ascii) : bool := (N_of_ascii c <? 128)%N.

Fixpoint all_ascii (s : string) : bool :=
  match s with
  | EmptyString => true
  | String c s' => is_ascii c && all_ascii s'
  end.

(** The radixes in which ECMA-262 requires [parseInt] to read the
    numeral exactly. *)
Definition precise (radix : Z) : bool :=
  bool_decide (radix ∈ [2; 4; 8; 10; 16; 32]%Z).

(** [parseInt(input, radix)], a built-in, after ECMA-262: [input] is
    converted to a string, leading white space and a sign are skipped,
    a prefix [0x] selects radix 16 when the radix is absent or 16, and
    the longest prefix of digits is read.  The result is the double
    nearest to the numeral: the integer itself up to 2^53, and beyond
    it a rounded integer, an approximation that the standard leaves to
    the implementation (from the 21st significant digit, and in the
    other radixes), or [Infinity], all of which are [Unknown].  So is
    the result for an input with a character beyond ASCII. *)
Definition parseInt (input : option string) (radix : option Z) : Number :=
  let inputString := match input with Some s => s | None => "undefined" end in
  if negb (all_ascii inputString) then Unknown else
  let S := trim_start inputString in
  let negative := match S with String c _ => Ascii.eqb c "-" | _ => false end in
  let S1 :=
    match S with
    | String c rest => if Ascii.eqb c "-" || Ascii.eqb c "+" then rest else S
    | EmptyString => S
    end in
  let R := default 0%Z radix in
  if negb (R =? 0)%Z && ((R <? 2)%Z || (36 <? R)%Z) then NaN
  else
    let hex := ((R =? 0)%Z || (R =? 16)%Z) && hex_prefix S1 in
    let R1 := if hex then 16%Z else if (R =? 0)%Z then 10%Z else R in
    let S2 := if hex then String.substring 2 (String.length S1 - 2) S1 else S1 in
    match digits R1 None S2 with
    | Some mathInt =>
        if precise R1 && exact mathInt
        then Integer (if negative then (- mathInt)%Z else mathInt)
        else Unknown
    | None => NaN
    end.

(** What [parseInt] makes of the value of a numeral in a precise radix. *)
Definition toNumber (negative : bool) (value : option Z) : Number :=
  match value with
  | Some mathInt =>
      if exact mathInt then Integer (if negative then (- mathInt)%Z else mathInt)
      else Unknown
  | None => NaN
  end.

(** [new HostPortPair(s)], lines 44-46: [s.split(':')[0]] and
    [parseInt(s.split(':')[1])]; a port that is [NaN] is [None], as it
    equals no number.  The START message of the client is built by the
    same two expressions ([src/commands/client.ts], lines 106-107).
    The pair is followed when its port is: the result is [None] for a
    port that is [Unknown]. *)
Definition newHostPortPair (s : string) : option HostPortPair :=
  match parseInt (nth_error (split ":" s) 1) None with
  | NaN => Some {| host := nth_error (split ":" s) 0; port := None |}
  | Integer n => Some {| host := nth_error (split ":" s) 0; port := Some n |}
  | Unknown => None
  end.

(** [toString], lines 61-63, of a pair with a host and an integer port
    up to 2^53, which prints in decimal.  Of the other pairs the
    embedding does not determine the string, and the result is [None]:
    an unset field prints as [undefined] and a port that is [NaN] as
    [NaN], which [port] does not tell apart; an integer from 10^21 on
    prints with an exponent. *)
Definition toString (hostPort : HostPortPair) : option string :=
  match host hostPort, port hostPort with
  | Some h, Some n =>
      if exact n then Some (h +:+ ":" +:+ NilZero.string_of_int (Z.to_int n))
      else None
  | _, _ => None
  end.

(** ** Shapes of strings *)

(** The character occurs in the string. *)
Fixpoint occurs (c : ascii) (s : string) : bool :=
  match s with
  | EmptyString => false
  | String c' s' => Ascii.eqb c' c || occurs c s'
  end.

Definition is_decimal (c : ascii) : bool :=
  let n := N_of_ascii c in ((48 <=? n) && (n <=? 57))%N.

Fixpoint all_decimal (s : string) : bool :=
  match s with
  | EmptyString => true
  | String c s' => is_decimal c && all_decimal s'
  end.

(** The value of a decimal numeral read from its first digit, after the
    value [acc] of the digits before it. *)
Fixpoint read (d : Decimal.uint) (acc : Z) : Z :=
  match d with
  | Decimal.Nil => acc
  | Decimal.D0 d' => read d' (10 * acc)
  | Decimal.D1 d' => read d' (10 * acc + 1)
  | Decimal.D2 d' => read d' (10 * acc + 2)
  | Decimal.D3 d' => read d' (10 * acc + 3)
  | Decimal.D4 d' => read d' (10 * acc + 4)
  | Decimal.D5 d' => read d' (10 * acc + 5)
  | Decimal.D6 d' => read d' (10 * acc + 6)
  | Decimal.D7 d' => read d' (10 * acc + 7)
  | Decimal.D8 d' => read d' (10 * acc + 8)
  | Decimal.D9 d' => read d' (10 * acc + 9)
  end%Z.

End Utils.

(* ===================================================================== *)
(** * The passphrase file ([src/commands/server.ts], lines 86-125) *)
(* ===================================================================== *)

Module Loader.
Import Wire Server Utils.

(** An item of the YAML document, as [YAML.load] returns it: a
    passphrase and an optional list of [host:port] strings. *)
Record Item := {
  item_passphrase : string;
  item_allowed : option (list string)
}.

(** How a part of the loader ends: it returns; it throws, and the
    relay does not start; or it goes on with a value that the
    embedding does not follow. *)
Inductive Outcome (A : Type) :=
| Returns (v : A)
| Throws (e : Exception)
| Outside.
Arguments Returns {A} v.
Arguments Throws {A} e.
Arguments Outside {A}.

(** [array.forEach(callback)] with a callback that updates [a]. *)
Fixpoint forEach {A B : Type} (callback : A -> B -> Outcome A)
    (array : list B) (a : A) : Outcome A :=
  match array with
  | [] => Returns a
  | x :: rest =>
      match callback a x with
      | Returns a' => forEach callback rest a'
      | Throws e => Throws e
      | Outside => Outside
      end
  end.

(** The two pieces that [const [host, port] = hostPortPair.split(':')]
    binds. *)
Definition entry_host (hostPortPair : string) : string :=
  default EmptyString (nth_error (split ":" hostPortPair) 0).

Definition entry_piece (hostPortPair : string) : option string :=
  nth_error (split ":" hostPortPair) 1.

(** The number that the entry pushes: [0] for the port [*], and
    [parseInt(port, 10)] otherwise, which may be [NaN]. *)
Definition entry_port (hostPortPair : string) : Number :=
  if is_str (entry_piece hostPortPair) "*" then Integer 0%Z
  else parseInt (entry_piece hostPortPair) (Some 10%Z).

(** [allowedHosts[host].push(number)].  An array of numbers is a list
    in which [None] is [NaN]. *)
Definition push (allowedHosts : gmap string (list (option Z))) (host : string)
    (number : Number) : Outcome (gmap string (list (option Z))) :=
  let array := default [] (allowedHosts !! host) in
  match number with
  | NaN => Returns (<[host := array ++ [None]]> allowedHosts)
  | Integer n => Returns (<[host := array ++ [Some n]]> allowedHosts)
  | Unknown => Outside
  end.

(** The body of [item.allowed.forEach], lines 106-117.  [allowedHosts]
    is a plain object: for a host that names a member of
    [Object.prototype], [allowedHosts[host]] is that member and not
    [undefined], no array is created, and the call of its [push]
    throws. *)
Definition addAllowed (allowedHosts : gmap string (list (option Z)))
    (hostPortPair : string) : Outcome (gmap string (list (option Z))) :=
  let host := entry_host hostPortPair in
  match get allowedHosts host with
  | Undefined => push (<[host := []]> allowedHosts) host (entry_port hostPortPair)
  | Own _ => push allowedHosts host (entry_port hostPortPair)
  | Member => Throws TypeError
  end.

(** [indexOf] compares with [===], and [NaN] equals nothing: in an
    array of numbers, only its numbers can be found. *)
Definition numbers (ports : list (option Z)) : list Z := omap id ports.

(** [Array.prototype.indexOf] on an array that may hold [NaN]. *)
Fixpoint indexOfNumber (l : list (option Z)) (v : Z) (i : Z) : Z :=
  match l with
  | [] => (-1)%Z
  | Some x :: l' => if Z.eqb x v then i else indexOfNumber l' v (i + 1)%Z
  | None :: l' => indexOfNumber l' v (i + 1)%Z
  end.

(** Lines 103-120, for one item. *)
Definition loadItem (item : Item) : Outcome ICredential :=
  match item_allowed item with
  | None => Returns {| passphrase := item_passphrase item; allowed := None |}
  | Some entries =>
      match forEach addAllowed entries ∅ with
      | Returns allowedHosts =>
          Returns {| passphrase := item_passphrase item;
                     allowed := Some (numbers <$> allowedHosts) |}
      | Throws e => Throws e
      | Outside => Outside
      end
  end.

(** The body of [passphraseDefinitionYAML.forEach], lines 103-122.
    The assignment [_credentials[item.passphrase] = item] adds or
    replaces a property, except for the passphrase [__proto__], where
    it replaces the prototype of [_credentials]: an object that is not
    a table of its own properties. *)
Definition addCredential (_credentials : gmap string ICredential) (item : Item)
    : Outcome (gmap string ICredential) :=
  match loadItem item with
  | Returns credential =>
      if String.eqb (item_passphrase item) "__proto__" then Outside
      else Returns (<[item_passphrase item := credential]> _credentials)
  | Throws e => Throws e
  | Outside => Outside
  end.

(** [passphraseDefinitionYAML.forEach], lines 102-123: a later item
    replaces an earlier one with the same passphrase. *)
Definition load (items : list Item) : Outcome (gmap string ICredential) :=
  forEach addCredential items ∅.

(** The number that an entry adds to the array of its host, [None]
    for [NaN]. *)
Definition entry_number (hostPortPair : string) : option Z :=
  match entry_port hostPortPair with
  | Integer n => Some n
  | _ => None
  end.

(** No array of the object is under the name of a member of
    [Object.prototype]. *)
Definition clean (allowedHosts : gmap string (list (option Z))) : Prop :=
  forall host, is_Some (allowedHosts !! host) -> inherited host = false.

(** Every entry names a host that is no member of [Object.prototype]
    and a port that the embedding follows. *)
Definition plain (entries : list string) : Prop :=
  forall hostPortPair, hostPortPair ∈ entries ->
    inherited (entry_host hostPortPair) = false
    /\ entry_port hostPortPair <> Unknown.

(** The entries of a list that name the host, in the order of the
    file. *)
Definition entries_of (host : string) (entries : list string) : list string :=
  filter (fun hostPortPair => entry_host hostPortPair = host) entries.

(** The entries that decide about a host: its own when it has some,
    those of the wildcard host otherwise. *)
Definition deciding (host : string) (entries : list string) : list string :=
  match entries_of host entries with
  | [] => entries_of "*" entries
  | own => own
  end.

End Loader.

(* ===================================================================== *)
(** * The access rule of a credential, stated on sets of ports *)
(* ===================================================================== *)

Module Acl.
Import Wire Server.

(** The port rule: the requested port is in the list, or the list holds
    the wildcard port [0]. *)
Definition port_allowed (ports : list Z) (port : option Z) : bool :=
  match port with
  | Some p => bool_decide (p ∈ ports)
  | None => false
  end || bool_decide (0%Z ∈ ports).

Definition entry_allows (entry : option (list Z)) (port : option Z) : bool :=
  match entry with
  | Some ports => port_allowed ports port
  | None => false
  end.

(** What the START handler makes of a request. *)
Inductive Verdict :=
| Permit
| Forbid
| Crash.

(** The rule that the START handler applies with a credential: the
    host's own entry decides when there is one, and the entry of the
    wildcard host only when there is none; a host without an entry
    that names a member of [Object.prototype] makes the handler
    throw. *)
Definition verdict (credential : ICredential) (pair : HostPortPair) : Verdict :=
  match allowed credential with
  | None => Permit
  | Some allowed =>
      match allowed !! key (host pair) with
      | Some ports => if port_allowed ports (port pair) then Permit else Forbid
      | None =>
          if inherited (key (host pair)) then Crash
          else if entry_allows (allowed !! "*") (port pair) then Permit else Forbid
      end
  end.

(** The rule with a table and the passphrase of a session: the
    credential of the passphrase decides; a passphrase without an
    entry that names a member of [Object.prototype] is permitted every
    target. *)
Definition rule (creds : gmap string ICredential) (p : string)
    (pair : HostPortPair) : Verdict :=
  match creds !! p with
  | Some credential => verdict credential pair
  | None => if inherited p then Permit else Crash
  end.

(** The rule in the words of the design document: no restriction, or the
    host's entry allows the port, or the wildcard host's entry allows
    it. *)
Definition matches_any (credential : ICredential) (pair : HostPortPair) : bool :=
  match allowed credential with
  | None => true
  | Some allowed =>
      entry_allows (allowed !! key (host pair)) (port pair)
      || entry_allows (allowed !! "*") (port pair)
  end.

(** The START handler granted the request: it answered CONNECTING and
    dialled the target, or answered FAILED at once for a port that
    [net.connect] does not take. *)
Definition granted (conn id : string) (pair : HostPortPair) (st st' : State) : Prop :=
  effects st' = effects st
    ++ [SendJSON conn (reply (Some "START") (Some "CONNECTING") (Some id) None None None);
        if dialable pair then NetConnect id pair
        else SendJSON conn (reply None (Some "FAILED") (Some id) None None None)].

(** The START handler refused the request: it answered with the error and
    did nothing else. *)
Definition refused (conn : string) (body : Body) (error : string) (st st' : State) : Prop :=
  effects st' = effects st
    ++ [SendJSON conn (reply (body_type body) None None (Some error) None None)]
  /\ sockets st' = sockets st /\ dials st' = dials st.

End Acl.

Module Scenario.
Import Wire Server.

(** A credential that allows port 80 of [example.com] and port 443 of
    every host. *)
Definition credential_abc : ICredential :=
  {| passphrase := "abc";
     allowed := Some {[ "example.com" := [80%Z]; "*" := [443%Z] ]} |}.

Definition table_abc : gmap string ICredential := {[ "abc" := credential_abc ]}.

Definition frame (body : Body) : IMessage := Utf8 (Json.stringify body).

Definition CONNECT (passphrase : option string) : Body :=
  request (Some "CONNECT") passphrase None None None None.

Definition START (host : string) (port : Z) : Body :=
  request (Some "START") None (Some host) (Some port) None None.

Definition TRAFFIC (id : option string) (data : string) : Body :=
  request (Some "TRAFFIC") None None None id (Some data).

(** One session on a relay without credentials: CONNECT, START of
    [example.com:80] under the id [id1], and the dial connects. *)
Definition handshake : list Event :=
  [Message "c1" (frame (CONNECT None)) "u0";
   Message "c1" (frame (START "example.com" 80)) "id1"].

Definition established : list Event := handshake ++ [SocketConnect "id1"].

Definition example_com : HostPortPair :=
  {| host := Some "example.com"; port := Some 80%Z |}.

(** After a second CONNECT: another START, under the id [id2], and its
    dial connects. *)
Definition restart : list Event :=
  [Message "c1" (frame (START "example.com" 80)) "id2"; SocketConnect "id2"].

End Scenario.


(* ===================================================================== *)
(** * Invariants of the relay's registry *)
(* ===================================================================== *)

Module Invariants.
Import Wire Server.

(** Every session with a mapping went through an accepted CONNECT: when
    a credential table is configured, its connection carries a
    passphrase of the table, or the name of a member of
    [Object.prototype].  Pending dials and target sockets with
    listeners belong to sessions with a mapping. *)
Record consistent (credentials : option (gmap string ICredential))
    (st : State) : Prop := {
  session_credential :
    forall creds conn, credentials = Some creds ->
      is_Some (sockets st !! conn) ->
      exists p, passphrases st !! conn = Some p
                /\ truthy (Some p) = true
                /\ (is_Some (creds !! p) \/ inherited p = true);
  dial_session :
    forall id conn hostPort, dials st !! id = Some (conn, hostPort) ->
      is_Some (sockets st !! conn);
  stream_session :
    forall id conn, streams st !! id = Some conn ->
      is_Some (sockets st !! conn)
}.

(** The event does not draw [id] as its fresh UUID. *)
Definition fresh_for (id : string) (ev : Event) : bool :=
  match ev with
  | Message _ _ uuid => negb (String.eqb uuid id)
  | _ => true
  end.

(** The session [conn] has a mapping, [id] is not in it, and no dial is
    pending for [id]. *)
Definition untracked (conn id : string) (st : State) : Prop :=
  dials st !! id = None
  /\ exists connections, sockets st !! conn = Some connections
                         /\ connections !! id = None.

(** The UUIDs that the events of a trace draw. *)
Definition uuid_of (ev : Event) : option string :=
  match ev with
  | Message _ _ uuid => Some uuid
  | _ => None
  end.

Definition uuids (evs : list Event) : list string := omap uuid_of evs.

(** Every id with a pending dial or an entry in a mapping has been drawn,
    and an id with an entry has no pending dial. *)
Record accounted (used : list string) (st : State) : Prop := {
  dial_drawn :
    forall id v, dials st !! id = Some v -> id ∈ used;
  entry_drawn :
    forall conn connections id socketConnection,
      sockets st !! conn = Some connections ->
      connections !! id = Some socketConnection ->
      id ∈ used /\ dials st !! id = None
}.

(** Every id with a pending dial or an entry in a mapping is a UUID: it
    is not the name of a member of [Object.prototype]. *)
Record genuine (st : State) : Prop := {
  dial_genuine :
    forall id v, dials st !! id = Some v -> inherited id = false;
  entry_genuine :
    forall conn connections id socketConnection,
      sockets st !! conn = Some connections ->
      connections !! id = Some socketConnection ->
      inherited id = false
}.

End Invariants.

(* ===================================================================== *)
(** * Reconnecting: what a burst of local chunks may open *)
(* ===================================================================== *)

Module Reconnect.
Import Wire Client.


Definition sends (type : string) (e : Effect) : bool :=
  match e with SendJSON _ body => is_str (body_type body) type | _ => false end.

Definition count (p : Effect -> bool) (log : list Effect) : nat :=
  length (filter (fun e => p e = true) log).

Definition connects (log : list Effect) : nat := count (sends "CONNECT") log.
Definition starts (log : list Effect) : nat := count (sends "START") log.




Section Replies.
Variable JSON_parse : string -> Parsed.

(** The event is a reply to CONNECT from the relay. *)
Definition connect_reply (ev : Event) : bool :=
  match ev with
  | WsMessage _ (Utf8 utf8Data) =>
      match JSON_parse utf8Data with
      | Object body => is_str (body_command body) "CONNECT"
      | _ => false
      end
  | _ => false
  end.

End Replies.

Section Acknowledged.
Variable JSON_parse : string -> Parsed.
Variable passphrase : option string.
Variable host : string.
Variable port : option Z.

(** The reply of the relay accepts the CONNECT: it carries no
    [error]. *)
Definition accepts (body : Body) : bool :=
  is_str (body_command body) "CONNECT" && negb (truthy (body_error body)).

(** The event delivers, on an open connection of the running client,
    a reply of the relay that accepts the CONNECT. *)
Definition acknowledges (s : State) (ev : Event) : bool :=
  negb (exited s)
  && match ev with
     | WsMessage k (Utf8 utf8Data) =>
         match links s !! k with
         | Some Open =>
             match JSON_parse utf8Data with
             | Object body => accepts body
             | _ => false
             end
         | _ => false
         end
     | _ => false
     end.


(** The event is a frame of the relay with the status ESTABLISHED. *)
Definition established_frame (ev : Event) : bool :=
  match ev with
  | WsMessage _ (Utf8 utf8Data) =>
      match JSON_parse utf8Data with
      | Object body => is_str (body_status body) "ESTABLISHED"
      | _ => false
      end
  | _ => false
  end.

(** The relay follows the protocol in the course of the events
    [evs], which the client meets in [s], having started in [s0] and
    met [replies] replies to CONNECT and [reports] frames ESTABLISHED
    on the way: each reply to CONNECT answers a CONNECT that the
    client has sent since [s0] and that had no reply, and each
    ESTABLISHED reports on a START that the client has sent since
    [s0] and that had no report. *)
Fixpoint follows (s0 : State) (evs : list Event) (s : State)
    (replies reports : nat) : bool :=
  match evs with
  | [] => true
  | ev :: rest =>
      (if connect_reply JSON_parse ev
       then (connects (effects s0) + replies <? connects (effects s))%nat
       else true)
      && (if established_frame ev
          then (starts (effects s0) + reports <? starts (effects s))%nat
          else true)
      && follows s0 rest (exec JSON_parse passphrase host port s ev)
           (replies + (if connect_reply JSON_parse ev then 1 else 0))
           (reports + (if established_frame ev then 1 else 0))
  end.

Definition causal (evs : list Event) (s0 : State) : bool :=
  follows s0 evs s0 0 0.
End Acknowledged.






End Reconnect.

(* ===================================================================== *)
(** * Kinds of frames *)
(* ===================================================================== *)

Module Frames.
Import Wire.

(** [{connection: id, data}], lines 242-245 of the relay. *)
Definition payload (id data : string) : Body :=
  reply None None (Some id) None (Some data) None.

(** The text of a frame is a payload that carries [data]. *)
Definition payload_frame (JSON_parse : string -> Parsed) (utf8Data data : string)
    : Prop :=
  exists id, id <> EmptyString /\ data <> EmptyString
             /\ JSON_parse utf8Data = Object (payload id data).

(** A frame is not a control message: it is binary, or its text is not
    JSON. *)
Definition malformed (JSON_parse : string -> Parsed) (message : IMessage) : Prop :=
  match message with
  | Binary _ => True
  | Utf8 utf8Data => JSON_parse utf8Data = Invalid
  end.

End Frames.

(* ===================================================================== *)
(** * A client session, used to run the examples *)
(* ===================================================================== *)

Module ClientScenario.
Import Wire Client Frames.

Definition frame (body : Body) : IMessage := Utf8 (Json.stringify body).

(** The replies of the relay, as [src/commands/server.ts] builds them. *)
Definition CONNECT_ok : Body := reply (Some "CONNECT") None None None None None.

Definition CONNECTING (id : string) : Body :=
  reply (Some "START") (Some "CONNECTING") (Some id) None None None.

Definition ESTABLISHED (id : string) : Body :=
  reply None (Some "ESTABLISHED") (Some id) None None None.

(** The holder of the lock opens the [k]-th connection, the relay
    answers the handshake, the holder resumes. *)
Definition connect (k : nat) (id : string) : list Event :=
  [Resume; WsConnected k;
   WsMessage k (frame CONNECT_ok);
   WsMessage k (frame (CONNECTING id));
   WsMessage k (frame (ESTABLISHED id));
   Resume].

(** A client of [example.com:80] without passphrase. *)
Definition exec (s : State) (ev : Event) : State :=
  Client.exec Json.parse None "example.com" (Some 80%Z) s ev.

Definition run (evs : list Event) (s : State) : State :=
  Client.run Json.parse None "example.com" (Some 80%Z) evs s.

(** The tunnel is up and no local client has connected yet. *)
Definition ready : State := run (connect 0 "id1") initial.

(** The local client [a] is attached. *)
Definition attached : State := run [LocalConnection "a"] ready.

(** The relay's connection has closed under the attached client. *)
Definition dropped : State := run [WsClosed 0] attached.

Definition chunk1 : list byte := ["G"%byte; "E"%byte; "T"%byte].
Definition chunk2 : list byte := [" "%byte; "/"%byte].
Definition chunk3 : list byte := ["010"%byte].

(** Three chunks arrive before the first of them resumes; the
    connection is opened and the three are forwarded. *)
Definition arrivals : list Event :=
  [LocalData "a" chunk1; LocalData "a" chunk2; LocalData "a" chunk3]
  ++ connect 1 "id2" ++ [Resume; Resume].

End ClientScenario.

(* ===================================================================== *)
(** * Reading the relay's log and registry *)
(* ===================================================================== *)

Module RelayLog.
Import Wire Server Acl.


(** The sockets that the relay ended, oldest first. *)
Definition ended (log : list Effect) : list string :=
  omap (fun e => match e with SocketEnd sock => Some sock | _ => None end) log.

(** The sockets that the entries of a mapping hold. *)
Definition held (connections : gmap string SocketConnection) : list string :=
  omap (fun entry => socket (snd entry)) (map_to_list connections).


(** The mapping of the session [conn] has an entry for [id]. *)
Definition tracks (st : State) (conn id : string) : Prop :=
  exists connections,
    sockets st !! conn = Some connections /\ is_Some (connections !! id).

(** No logical id is in the mappings of two sessions. *)
Definition exclusive (st : State) : Prop :=
  forall conn1 conn2 id, tracks st conn1 id -> tracks st conn2 id -> conn1 = conn2.

(** Every entry of the mapping of [conn] holds its socket: the one that
    was dialled for its logical id. *)
Definition all_open (conn : string) (st : State) : Prop :=
  forall connections id socketConnection,
    sockets st !! conn = Some connections ->
    connections !! id = Some socketConnection ->
    socket socketConnection = Some id.

(** What a callback other than the [close] listener of [conn] can do
    to the mapping of [conn]: nothing; replace it by an empty one; add
    the entry of a dial that connected; delete an entry. *)
Inductive Change (conn : string) (st st' : State) : Prop :=
| Kept :
    sockets st' !! conn = sockets st !! conn -> Change conn st st'
| Emptied :
    sockets st' !! conn = Some ∅ -> Change conn st st'
| Added connections id hostPort :
    sockets st !! conn = Some connections ->
    dials st !! id = Some (conn, hostPort) ->
    sockets st' !! conn
    = Some (<[id := {| target := hostPort; socket := Some id |}]> connections) ->
    Change conn st st'
| Removed connections id :
    sockets st !! conn = Some connections ->
    sockets st' !! conn = Some (delete id connections) ->
    Change conn st st'.

(** The reply that announces a dial: [{command: START, status:
    CONNECTING, connection: id}]. *)
Definition connecting (id : string) : Body :=
  reply (Some "START") (Some "CONNECTING") (Some id) None None None.

(** If [e] is a frame without a command that names a logical
    connection (a status or a chunk of data), the log holds the
    announcement of that connection to the same WebSocket connection. *)
Definition announces (log : list Effect) (e : Effect) : Prop :=
  forall conn body id,
    e = SendJSON conn body ->
    body_command body = None -> body_connection body = Some id ->
    SendJSON conn (connecting id) ∈ log.

(** Every effect of the log has its announcement before it. *)
Definition ordered (log : list Effect) : Prop :=
  forall before e after, log = before ++ e :: after -> announces before e.

(** Pending dials and target sockets with listeners were announced to
    the session that their callbacks captured. *)
Record announced (st : State) : Prop := {
  dial_announced :
    forall id conn hostPort, dials st !! id = Some (conn, hostPort) ->
      SendJSON conn (connecting id) ∈ effects st;
  stream_announced :
    forall id conn, streams st !! id = Some conn ->
      SendJSON conn (connecting id) ∈ effects st;
  log_ordered : ordered (effects st)
}.

End RelayLog.

(* ===================================================================== *)
(** * The two directions of the client's tunnel *)
(* ===================================================================== *)

Module Pipeline.
Import Wire Client.

(** ** From the local sockets to the relay *)

(** The chunk that a caller of [lock.acquire()] carries. *)
Definition chunk_of (kind : Kind) : list (list byte) :=
  match kind with
  | Forward data => [data]
  | Startup => []
  end.

(** The chunks that data listeners hold and have not forwarded yet: the
    one of the holder of the lock, then those of the queue of the lock,
    first come first. *)
Definition pending (s : State) : list (list byte) :=
  match lock s with
  | Some (kind, _) => chunk_of kind
  | None => []
  end ++ flat_map chunk_of (waiting s).

(** The [data] property of a TRAFFIC message. *)
Definition traffic (e : Effect) : option string :=
  match e with
  | SendJSON _ body =>
      if is_str (body_type body) "TRAFFIC" then body_data body else None
  | _ => None
  end.

(** The payloads of the TRAFFIC messages of a log, oldest first. *)
Definition sent (log : list Effect) : list string := omap traffic log.

(** Everything that went or will go to the relay, in its order. *)
Definition pipeline (s : State) : list string :=
  sent (effects s) ++ map Base64.encode (pending s).

(** The chunk that an event adds to the pipeline: the [data] event of a
    local socket that carries the listener, while the process runs. *)
Definition arrival (ev : Event) (s : State) : list (list byte) :=
  match ev with
  | LocalData socket data =>
      if negb (exited s) && bool_decide (socket ∈ accepted s) then [data] else []
  | _ => []
  end.

(** A connection has been stored in [wsConnection] whenever the flag
    [isConnected] is set, the promise of [startConnection] has resolved
    or a connection is open; and nobody waits for a free lock. *)
Record wired (s : State) : Prop := {
  wired_flag : isConnected s = true -> is_Some (wsConnection s);
  wired_resolved :
    forall kind, lock s = Some (kind, Resolved) -> is_Some (wsConnection s);
  wired_open : forall k, links s !! k = Some Open -> is_Some (wsConnection s);
  wired_queue : lock s = None -> waiting s = []
}.

(** A state with the same lock, queue, connection, flag and links,
    whose log has the same TRAFFIC messages. *)
Definition alike (s s' : State) : Prop :=
  lock s' = lock s /\ waiting s' = waiting s
  /\ wsConnection s' = wsConnection s /\ isConnected s' = isConnected s
  /\ links s' = links s /\ sent (effects s') = sent (effects s).

(** ** From the relay to the local socket *)

(** The buffers written to local sockets according to a log, oldest
    first. *)
Definition written (log : list Effect) : list (list byte) :=
  omap (fun e => match e with SocketWrite _ data => Some data | _ => None end) log.

(** Everything that went or will go to a local socket, in its order. *)
Definition downstream (s : State) : list (list byte) :=
  written (effects s) ++ buffers s.

(** The queue of buffers is empty while a local client is attached. *)
Definition drained (s : State) : Prop :=
  is_Some (client s) -> buffers s = [].

(** A state with the same queue and attached client, whose log has the
    same writes. *)
Definition settled (s s' : State) : Prop :=
  written (effects s') = written (effects s)
  /\ buffers s' = buffers s /\ client s' = client s.

(** What an event adds to the writes and the queue: nothing, or the
    decoded [data] of the body of a frame, at the end. *)
Definition grows (JSON_parse : string -> Parsed) (ev : Event) (s s' : State)
    : Prop :=
  downstream s' = downstream s
  \/ exists k utf8Data body data,
       ev = WsMessage k (Utf8 utf8Data)
       /\ JSON_parse utf8Data = Object body
       /\ body_data body = Some data
       /\ downstream s' = downstream s ++ [Base64.decode data].

(** ** The first message of a connection *)

(** [{type: CONNECT, passphrase}], line 91. *)
Definition greeting (passphrase : option string) : Body :=
  request (Some "CONNECT") passphrase None None None None.

(** If [e] is a message on a connection, it is the CONNECT message or
    the log holds the CONNECT message of that connection. *)
Definition greeted (passphrase : option string) (log : list Effect)
    (e : Effect) : Prop :=
  forall k body,
    e = SendJSON k body ->
    body = greeting passphrase \/ SendJSON k (greeting passphrase) ∈ log.

Definition in_order (passphrase : option string) (log : list Effect) : Prop :=
  forall before e after, log = before ++ e :: after -> greeted passphrase before e.

(** CONNECT was sent on the connection that [wsConnection] holds and on
    every open connection. *)
Record introduced (passphrase : option string) (s : State) : Prop := {
  current_greeted :
    forall k, wsConnection s = Some k ->
      SendJSON k (greeting passphrase) ∈ effects s;
  open_greeted :
    forall k, links s !! k = Some Open ->
      SendJSON k (greeting passphrase) ∈ effects s;
  log_in_order : in_order passphrase (effects s)
}.

End Pipeline.

(* ===================================================================== *)
(** * Sessions used to run the examples of the later sections *)
(* ===================================================================== *)

Module Traces.
Import Wire Server Scenario.


(** Two sessions on a relay without credentials; the first one starts
    [example.com:80] under the id [id1] and the dial connects. *)
Definition two_sessions : list Event :=
  [Message "c1" (frame (CONNECT None)) "u0";
   Message "c2" (frame (CONNECT None)) "u1";
   Message "c1" (frame (START "example.com" 80)) "id1";
   SocketConnect "id1"].

(** The item of a passphrase file that [credential_abc] is loaded
    from. *)
Definition item_abc : Loader.Item :=
  {| Loader.item_passphrase := "abc";
     Loader.item_allowed := Some ["example.com:80"; "*:443"] |}.

(** The relay after the handshake of [Scenario.established]. *)
Definition relay_established : State :=
  run Json.parse None established initial.

End Traces.
(* ===================================================================== *)
(** * Properties of the codec *)
(* ===================================================================== *)

Module Base64Facts.
Import Base64.

Lemma unbase64_table_char (s : sextet) : unbase64 (table_char s) = Some s.
Proof.
  destruct s as [[[[[b5 b4] b3] b2] b1] b0].
  destruct b5, b4, b3, b2, b1, b0; reflexivity.
Qed.

Lemma unbase64_pad : unbase64 pad = None.
Proof. reflexivity. Qed.

Lemma legal_sextets_table (ss : list sextet) (cs : list ascii) :
  legal_sextets (map table_char ss ++ cs) = ss ++ legal_sextets cs.
Proof.
  induction ss as [| s ss IH]; simpl; [reflexivity |].
  rewrite unbase64_table_char, IH. reflexivity.
Qed.

Lemma legal_sextets_pad (cs : list ascii) : legal_sextets (pad :: cs) = [].
Proof. reflexivity. Qed.

Lemma of_msb_bits_bits (b : byte) :
  let '(b7, b6, b5, b4, b3, b2, b1, b0) := bits b in
  of_msb_bits b7 b6 b5 b4 b3 b2 b1 b0 = b.
Proof.
  unfold bits, of_msb_bits.
  pose proof (Byte.of_bits_to_bits b) as H.
  destruct (Byte.to_bits b) as [b0 [b1 [b2 [b3 [b4 [b5 [b6 b7]]]]]]].
  exact H.
Qed.

Lemma dec0_enc (a b : byte) : dec0 (enc0 a) (enc1 a b) = a.
Proof.
  pose proof (of_msb_bits_bits a) as Ha.
  unfold dec0, enc0, enc1.
  destruct (bits a) as [[[[[[[a7 a6] a5] a4] a3] a2] a1] a0].
  destruct (bits b) as [[[[[[[b7 b6] b5] b4] b3] b2] b1] b0].
  exact Ha.
Qed.

Lemma dec1_enc (a b c : byte) : dec1 (enc1 a b) (enc2 b c) = b.
Proof.
  pose proof (of_msb_bits_bits b) as Hb.
  unfold dec1, enc1, enc2.
  destruct (bits a) as [[[[[[[a7 a6] a5] a4] a3] a2] a1] a0].
  destruct (bits b) as [[[[[[[b7 b6] b5] b4] b3] b2] b1] b0].
  destruct (bits c) as [[[[[[[c7 c6] c5] c4] c3] c2] c1] c0].
  exact Hb.
Qed.

Lemma dec2_enc (b c : byte) : dec2 (enc2 b c) (enc3 c) = c.
Proof.
  pose proof (of_msb_bits_bits c) as Hc.
  unfold dec2, enc2, enc3.
  destruct (bits b) as [[[[[[[b7 b6] b5] b4] b3] b2] b1] b0].
  destruct (bits c) as [[[[[[[c7 c6] c5] c4] c3] c2] c1] c0].
  exact Hc.
Qed.

(** Induction three bytes at a time, the way the encoder reads. *)
Lemma list_ind3 {A : Type} (P : list A -> Prop) :
  P [] -> (forall a, P [a]) -> (forall a b, P [a; b]) ->
  (forall a b c l, P l -> P (a :: b :: c :: l)) ->
  forall l, P l.
Proof.
  intros H0 H1 H2 H3.
  refine (fix IH (l : list A) : P l :=
            match l with
            | [] => H0
            | [a] => H1 a
            | [a; b] => H2 a b
            | a :: b :: c :: l' => H3 a b c l' (IH l')
            end).
Qed.

Lemma encode_chars_sextets (bs : list byte) :
  legal_sextets (encode_chars bs) = sextets_of_bytes bs.
Proof.
  induction bs as [| a | a b | a b c l IH] using list_ind3.
  - reflexivity.
  - apply (legal_sextets_table [enc0 a; enc1 a zero] [pad; pad]).
  - apply (legal_sextets_table [enc0 a; enc1 a b; enc2 b zero] [pad]).
  - change (encode_chars (a :: b :: c :: l))
      with (map table_char [enc0 a; enc1 a b; enc2 b c; enc3 c] ++ encode_chars l).
    rewrite legal_sextets_table, IH. reflexivity.
Qed.

Lemma bytes_of_sextets_of_bytes (bs : list byte) :
  bytes_of_sextets (sextets_of_bytes bs) = bs.
Proof.
  induction bs as [| a | a b | a b c l IH] using list_ind3.
  - reflexivity.
  - simpl. now rewrite dec0_enc.
  - simpl. now rewrite dec0_enc, dec1_enc.
  - change (sextets_of_bytes (a :: b :: c :: l))
      with (enc0 a :: enc1 a b :: enc2 b c :: enc3 c :: sextets_of_bytes l).
    change (bytes_of_sextets (enc0 a :: enc1 a b :: enc2 b c :: enc3 c :: sextets_of_bytes l))
      with (dec0 (enc0 a) (enc1 a b) :: dec1 (enc1 a b) (enc2 b c)
              :: dec2 (enc2 b c) (enc3 c) :: bytes_of_sextets (sextets_of_bytes l)).
    now rewrite dec0_enc, dec1_enc, dec2_enc, IH.
Qed.

Lemma decode_encode (bs : list byte) : decode (encode bs) = bs.
Proof.
  unfold decode, encode.
  rewrite list_ascii_of_string_of_list_ascii, encode_chars_sextets.
  apply bytes_of_sextets_of_bytes.
Qed.

Example encode_Man : encode ["M"%byte; "a"%byte; "n"%byte] = "TWFu".
Proof. reflexivity. Qed.

Example encode_Ma : encode ["M"%byte; "a"%byte] = "TWE=".
Proof. reflexivity. Qed.

Example encode_M : encode ["M"%byte] = "TQ==".
Proof. reflexivity. Qed.

Example decode_lenient : decode "TW Fu
" = ["M"%byte; "a"%byte; "n"%byte].
Proof. reflexivity. Qed.

End Base64Facts.


(* ===================================================================== *)
(** * Properties of the relay *)
(* ===================================================================== *)

Module ServerFacts.
Import Wire Server Invariants.

(** ** Reachable states keep the registry consistent *)

Section Invariant.
Variable JSON_parse : string -> Parsed.
Variable credentials : option (gmap string ICredential).

Local Abbreviation consistent := (Invariants.consistent credentials).

Lemma consistent_initial : consistent initial.
Proof.
  split; simpl; intros.
  - rewrite lookup_empty in H0. destruct H0 as [? ?]; discriminate.
  - rewrite lookup_empty in H. discriminate.
  - rewrite lookup_empty in H. discriminate.
Qed.

(** A state that differs only in its log, its pending write callbacks
    or the contents of existing mappings is as consistent. *)
Lemma consistent_same (st st' : State) :
  consistent st ->
  (forall conn, is_Some (sockets st' !! conn) <-> is_Some (sockets st !! conn)) ->
  passphrases st' = passphrases st ->
  (forall id v, dials st' !! id = Some v -> dials st !! id = Some v) ->
  (forall id v, streams st' !! id = Some v -> streams st !! id = Some v) ->
  consistent st'.
Proof.
  intros [Hc Hd Hs] Hk Hp Hd' Hs'. split.
  - intros creds conn Hcr Hsome. rewrite Hp. apply (Hc creds conn Hcr).
    now apply Hk.
  - intros id conn hp H. apply Hk. apply (Hd id conn hp). now apply Hd'.
  - intros id conn H. apply Hk. apply (Hs id conn). now apply Hs'.
Qed.

Lemma is_Some_insert_same {A} (m : gmap string A) (k k' : string) (v : A) :
  is_Some (m !! k) -> (is_Some (<[k := v]> m !! k') <-> is_Some (m !! k')).
Proof.
  intros Hk. destruct (decide (k = k')) as [-> | Hne].
  - rewrite lookup_insert_eq. split; eauto.
  - now rewrite lookup_insert_ne.
Qed.

Lemma lookup_delete_Some_inv {A} (m : gmap string A) (k k' : string) (v : A) :
  delete k m !! k' = Some v -> m !! k' = Some v.
Proof.
  destruct (decide (k = k')) as [-> | Hne].
  - rewrite lookup_delete_eq. discriminate.
  - now rewrite lookup_delete_ne.
Qed.

Lemma onConnect_consistent conn body st :
  consistent st -> consistent (fst (onConnect credentials conn body st)).
Proof.
  intros Hst. unfold onConnect.
  destruct (isAuthenticated credentials body) eqn:Hauth; simpl.
  2: { apply (consistent_same st); auto. }
  destruct Hst as [Hc Hd Hs].
  split; simpl.
  - intros creds c Hcr Hsome.
    destruct (decide (conn = c)) as [<- | Hne].
    + unfold isAuthenticated in Hauth. rewrite Hcr in Hauth.
      destruct (truthy (body_passphrase body)) eqn:Ht; simpl in Hauth; [| discriminate].
      simpl. rewrite lookup_insert_eq.
      exists (key (body_passphrase body)). split; [reflexivity |].
      assert (Hin : is_Some (creds !! key (body_passphrase body))
                    \/ inherited (key (body_passphrase body)) = true).
      { unfold get in Hauth.
        destruct (creds !! key (body_passphrase body)); [left; eauto |].
        destruct (inherited (key (body_passphrase body)));
          [now right | discriminate]. }
      destruct (body_passphrase body); simpl in *; [auto | discriminate].
    + assert (Hold : is_Some (sockets st !! c)).
      { destruct (truthy (body_passphrase body)); simpl in Hsome;
          now rewrite lookup_insert_ne in Hsome. }
      destruct (Hc creds c Hcr Hold) as (p & Hp & Htp & Hin).
      exists p. split; [| auto].
      destruct (truthy (body_passphrase body)); simpl; [| exact Hp].
      now rewrite lookup_insert_ne.
  - intros id c hp H.
    assert (Hdial : dials st !! id = Some (c, hp)).
    { destruct (truthy (body_passphrase body)); exact H. }
    pose proof (Hd id c hp Hdial) as Hold.
    destruct (decide (conn = c)) as [<- | Hne].
    + destruct (truthy (body_passphrase body)); simpl;
        rewrite lookup_insert_eq; eauto.
    + destruct (truthy (body_passphrase body)); simpl;
        now rewrite lookup_insert_ne.
  - intros id c H.
    assert (Hstream : streams st !! id = Some c).
    { destruct (truthy (body_passphrase body)); exact H. }
    pose proof (Hs id c Hstream) as Hold.
    destruct (decide (conn = c)) as [<- | Hne].
    + destruct (truthy (body_passphrase body)); simpl;
        rewrite lookup_insert_eq; eauto.
    + destruct (truthy (body_passphrase body)); simpl;
        now rewrite lookup_insert_ne.
Qed.

Lemma onStart_consistent conn body id st :
  consistent st -> consistent (fst (onStart credentials conn body id st)).
Proof.
  intros Hst. unfold onStart.
  destruct (sockets st !! conn) as [m |] eqn:Hm; simpl.
  2: { apply (consistent_same st); auto. }
  destruct (authorize credentials (passphrases st !! conn) (fromBody body)); simpl.
  - destruct (dialable (fromBody body)); simpl.
    2: { apply (consistent_same st); auto. }
    destruct Hst as [Hc Hd Hs]. split; simpl; auto.
    intros id' c hp H.
    destruct (decide (id = id')) as [<- | Hne].
    + rewrite lookup_insert_eq in H. injection H as <- <-. rewrite Hm. eauto.
    + rewrite lookup_insert_ne in H by assumption. eauto.
  - apply (consistent_same st); auto.
  - exact Hst.
Qed.

Lemma onTraffic_consistent conn body st :
  consistent st -> consistent (fst (onTraffic conn body st)).
Proof.
  intros Hst. unfold onTraffic.
  apply (consistent_same st); auto;
    repeat match goal with
           | |- context [match ?x with _ => _ end] => destruct x; simpl
           | |- context [if ?x then _ else _] => destruct x; simpl
           end; auto.
Qed.

Lemma onMessage_consistent conn message id st :
  consistent st ->
  consistent (fst (onMessage JSON_parse credentials conn message id st)).
Proof.
  intros Hst. unfold onMessage.
  destruct message as [utf8Data | binaryData]; [| exact Hst].
  destruct (JSON_parse utf8Data) as [| | body]; try exact Hst.
  destruct (is_str (body_type body) "CONNECT"); [now apply onConnect_consistent |].
  destruct (is_str (body_type body) "START"); [now apply onStart_consistent |].
  destruct (is_str (body_type body) "TRAFFIC"); [now apply onTraffic_consistent |].
  apply (consistent_same st); auto.
Qed.

Lemma onSocketConnect_consistent id st :
  consistent st -> consistent (fst (onSocketConnect id st)).
Proof.
  intros Hst. unfold onSocketConnect.
  destruct (dials st !! id) as [[conn hostPort] |] eqn:Hdial; [| exact Hst].
  pose proof (dial_session _ st Hst id conn hostPort Hdial) as [m Hm].
  simpl. rewrite Hm. simpl.
  destruct Hst as [Hc Hd Hs]. split; simpl.
  - intros creds c Hcr Hsome. apply (Hc creds c Hcr).
    eapply is_Some_insert_same; [| exact Hsome]. eauto.
  - intros id' c hp H. apply lookup_delete_Some_inv in H.
    apply is_Some_insert_same; eauto.
  - intros id' c H.
    apply is_Some_insert_same; [eauto |].
    destruct (decide (id = id')) as [<- | Hne].
    + rewrite lookup_insert_eq in H. injection H as <-. eauto.
    + rewrite lookup_insert_ne in H by assumption. eauto.
Qed.

Lemma onSocketTimeout_consistent id st :
  consistent st -> consistent (fst (onSocketTimeout id st)).
Proof.
  intros Hst. unfold onSocketTimeout.
  destruct (dials st !! id) as [[conn hostPort] |] eqn:Hdial; [| exact Hst].
  apply (consistent_same st); simpl; auto.
  intros id' v. apply lookup_delete_Some_inv.
Qed.

Lemma onSocketError_consistent id st :
  consistent st -> consistent (fst (onSocketError id st)).
Proof.
  intros Hst. unfold onSocketError.
  destruct (dials st !! id), (streams st !! id); exact Hst.
Qed.

Lemma onSocketData_consistent id data st :
  consistent st -> consistent (fst (onSocketData id data st)).
Proof.
  intros Hst. unfold onSocketData.
  destruct (streams st !! id); [| exact Hst].
  apply (consistent_same st); auto.
Qed.

Lemma onSocketClose_consistent id hadError st :
  consistent st -> consistent (fst (onSocketClose id hadError st)).
Proof.
  intros Hst. unfold onSocketClose.
  destruct (streams st !! id) as [conn |] eqn:Hstream; [| exact Hst].
  pose proof (stream_session _ st Hst id conn Hstream) as [m Hm].
  simpl. rewrite Hm. simpl.
  apply (consistent_same st); simpl; auto.
  - intros c. apply is_Some_insert_same. eauto.
  - intros id' v. apply lookup_delete_Some_inv.
Qed.

Lemma onWriteCallback_consistent conn id err st :
  consistent st -> consistent (fst (onWriteCallback conn id err st)).
Proof.
  intros Hst. unfold onWriteCallback.
  destruct (bool_decide _); [| exact Hst].
  apply (consistent_same st); auto.
Qed.

Lemma closeAll_consistent conn open st :
  consistent st -> consistent (fst (closeAll conn open st)).
Proof.
  revert st. induction open as [| [id socketConnection] rest IH]; intros st Hst.
  - exact Hst.
  - simpl. destruct (socket socketConnection) as [sock |]; [| exact Hst].
    apply IH. simpl.
    destruct (sockets st !! conn) as [m |] eqn:Hm.
    + apply (consistent_same st); simpl; auto.
      intros c. apply is_Some_insert_same. eauto.
    + apply (consistent_same st); auto.
Qed.

Lemma onConnClose_consistent conn st :
  consistent st -> consistent (fst (onConnClose conn st)).
Proof.
  intros Hst. unfold onConnClose.
  destruct (sockets st !! conn); [| exact Hst].
  now apply closeAll_consistent.
Qed.

Lemma step_consistent ev st :
  consistent st -> consistent (fst (step JSON_parse credentials ev st)).
Proof.
  intros Hst. destruct ev; simpl.
  - destruct (inherited uuid); [exact Hst | now apply onMessage_consistent].
  - now apply onSocketConnect_consistent.
  - now apply onSocketTimeout_consistent.
  - now apply onSocketError_consistent.
  - now apply onSocketData_consistent.
  - now apply onSocketClose_consistent.
  - now apply onWriteCallback_consistent.
  - now apply onConnClose_consistent.
Qed.

Lemma exec_consistent ev st :
  consistent st -> consistent (exec JSON_parse credentials st ev).
Proof.
  intros Hst. unfold exec.
  pose proof (step_consistent ev st Hst) as H.
  destruct (step JSON_parse credentials ev st) as [st' [| e]]; simpl in H.
  - exact H.
  - apply (consistent_same st'); auto.
Qed.

Lemma run_consistent evs st :
  consistent st -> consistent (run JSON_parse credentials evs st).
Proof.
  revert st. induction evs as [| ev evs IH]; intros st Hst; simpl.
  - exact Hst.
  - apply IH. now apply exec_consistent.
Qed.

Corollary reachable_consistent evs :
  consistent (run JSON_parse credentials evs initial).
Proof. apply run_consistent, consistent_initial. Qed.

End Invariant.
End ServerFacts.

(* ===================================================================== *)
(** * The relay's protocol state machine *)
(* ===================================================================== *)

Module RelayFacts.
Import Wire Server ServerFacts.

Section Handlers.
Variable JSON_parse : string -> Parsed.
Variable credentials : option (gmap string ICredential).

(** ** Frames that are not control messages *)

Lemma onMessage_binary conn binaryData id st :
  onMessage JSON_parse credentials conn (Binary binaryData) id st = (st, Normal).
Proof. reflexivity. Qed.

Lemma onMessage_invalid conn utf8Data id st :
  JSON_parse utf8Data = Invalid ->
  onMessage JSON_parse credentials conn (Utf8 utf8Data) id st
  = (st, Throw SyntaxError).
Proof. intros H. simpl. now rewrite H. Qed.

(** ** START and TRAFFIC before CONNECT *)

Lemma onStart_before_connect conn body id st :
  sockets st !! conn = None ->
  onStart credentials conn body id st
  = (sendJSON conn (reply (body_type body) None None (Some "AUTHFAIL") None None) st,
     Normal).
Proof. intros H. unfold onStart. now rewrite H. Qed.

(** The TRAFFIC branch answers AUTHFAIL and goes on: without an id it
    also answers NOID, with an id it reads a property of the missing
    mapping. *)
Lemma onTraffic_before_connect conn body st :
  sockets st !! conn = None ->
  onTraffic conn body st
  = let st1 :=
      sendJSON conn (reply (body_type body) None None (Some "AUTHFAIL") None None) st in
    if truthy (body_id body) then (st1, Throw TypeError)
    else (sendJSON conn
            (reply (Some "TRAFFIC") None (body_id body) (Some "NOID") None None) st1,
          Normal).
Proof.
  intros H. unfold onTraffic. rewrite H. simpl.
  destruct (truthy (body_id body)); simpl; [now rewrite H | reflexivity].
Qed.

(** ** Dialling *)

(** A dial that times out is answered FAILED, and the registry is left
    as it was. *)
Lemma onSocketTimeout_failed id conn hostPort st :
  dials st !! id = Some (conn, hostPort) ->
  exists st',
    onSocketTimeout id st = (st', Normal)
    /\ effects st' = effects st
         ++ [SendJSON conn
               (reply None (Some "FAILED") (Some id) (Some "TIMEOUT") None None)]
    /\ sockets st' = sockets st
    /\ dials st' !! id = None.
Proof.
  intros H. unfold onSocketTimeout. rewrite H. eexists. split; [reflexivity |].
  simpl. repeat split. apply lookup_delete_eq.
Qed.

(** An [error] event changes nothing: no reply, no settled promise. *)
Lemma onSocketError_silent id st : fst (onSocketError id st) = st.
Proof. unfold onSocketError. now destruct (dials st !! id), (streams st !! id). Qed.

Lemma onSocketError_pending id conn hostPort st :
  dials st !! id = Some (conn, hostPort) ->
  onSocketError id st = (st, Throw SocketFailure).
Proof. intros H. unfold onSocketError. now rewrite H. Qed.

(** A dial that connects is registered and announced. *)
Lemma onSocketConnect_established id conn hostPort connections st :
  dials st !! id = Some (conn, hostPort) ->
  sockets st !! conn = Some connections ->
  exists st',
    onSocketConnect id st = (st', Normal)
    /\ effects st' = effects st
         ++ [SendJSON conn (reply None (Some "ESTABLISHED") (Some id) None None None)]
    /\ sockets st' !! conn
       = Some (<[id := {| target := hostPort; socket := Some id |}]> connections)
    /\ streams st' !! id = Some conn.
Proof.
  intros Hd Hs. unfold onSocketConnect. rewrite Hd. simpl. rewrite Hs.
  eexists. split; [reflexivity |]. simpl.
  repeat split; apply lookup_insert_eq.
Qed.

End Handlers.
End RelayFacts.

(* ===================================================================== *)
(** * Sessions of the relay: teardown and re-authentication *)
(* ===================================================================== *)

Module SessionFacts.
Import Wire Server Invariants ServerFacts RelayFacts.

Section Untracked.
Variable JSON_parse : string -> Parsed.
Variable credentials : option (gmap string ICredential).
Variables conn id : string.

(** Same dials, and the mapping of [conn] unchanged. *)
Lemma untracked_same (st st' : State) :
  untracked conn id st ->
  dials st' = dials st -> sockets st' !! conn = sockets st !! conn ->
  untracked conn id st'.
Proof. intros [Hd Hm] Hd' Hs'. split; [now rewrite Hd' | now rewrite Hs']. Qed.

Lemma onConnect_untracked conn' body st :
  untracked conn id st ->
  untracked conn id (fst (onConnect credentials conn' body st)).
Proof.
  intros Hst. unfold onConnect.
  destruct (isAuthenticated credentials body); simpl.
  2: { now apply (untracked_same st). }
  destruct Hst as [Hd (m & Hm & Hid)].
  split.
  - destruct (truthy (body_passphrase body)); exact Hd.
  - destruct (decide (conn' = conn)) as [-> | Hne].
    + exists ∅. split; [| apply lookup_empty].
      destruct (truthy (body_passphrase body)); simpl; apply lookup_insert_eq.
    + exists m. split; [| exact Hid].
      destruct (truthy (body_passphrase body)); simpl;
        now rewrite lookup_insert_ne.
Qed.

Lemma onStart_untracked conn' body uuid st :
  uuid <> id ->
  untracked conn id st ->
  untracked conn id (fst (onStart credentials conn' body uuid st)).
Proof.
  intros Hfresh Hst. unfold onStart.
  destruct (sockets st !! conn'); simpl.
  2: { now apply (untracked_same st). }
  destruct (authorize credentials (passphrases st !! conn') (fromBody body)); simpl.
  - destruct (dialable (fromBody body)); simpl.
    2: { now apply (untracked_same st). }
    destruct Hst as [Hd Hm]. split; [| exact Hm].
    simpl. now rewrite lookup_insert_ne.
  - now apply (untracked_same st).
  - exact Hst.
Qed.

Lemma onTraffic_untracked conn' body st :
  untracked conn id st -> untracked conn id (fst (onTraffic conn' body st)).
Proof.
  intros Hst. unfold onTraffic.
  apply (untracked_same st); [exact Hst | |];
    repeat match goal with
           | |- context [match ?x with _ => _ end] => destruct x; simpl
           | |- context [if ?x then _ else _] => destruct x; simpl
           end; auto.
Qed.

Lemma onMessage_untracked conn' message uuid st :
  uuid <> id ->
  untracked conn id st ->
  untracked conn id (fst (onMessage JSON_parse credentials conn' message uuid st)).
Proof.
  intros Hfresh Hst. unfold onMessage.
  destruct message as [utf8Data | binaryData]; [| exact Hst].
  destruct (JSON_parse utf8Data) as [| | body]; try exact Hst.
  destruct (is_str (body_type body) "CONNECT"); [now apply onConnect_untracked |].
  destruct (is_str (body_type body) "START"); [now apply onStart_untracked |].
  destruct (is_str (body_type body) "TRAFFIC"); [now apply onTraffic_untracked |].
  now apply (untracked_same st).
Qed.

Lemma onSocketConnect_untracked id' st :
  untracked conn id st -> untracked conn id (fst (onSocketConnect id' st)).
Proof.
  intros Hst. unfold onSocketConnect.
  destruct (dials st !! id') as [[conn' hostPort] |] eqn:Hdial; [| exact Hst].
  assert (Hne : id' <> id).
  { intros ->. destruct Hst as [Hd _]. congruence. }
  destruct Hst as [Hd (m & Hm & Hid)].
  simpl. destruct (sockets st !! conn') as [m' |] eqn:Hm'; simpl.
  - split; simpl.
    + now rewrite lookup_delete_ne.
    + destruct (decide (conn' = conn)) as [-> | Hc].
      * rewrite lookup_insert_eq. eexists. split; [reflexivity |].
        rewrite lookup_insert_ne by assumption. congruence.
      * rewrite lookup_insert_ne by assumption. eauto.
  - split; simpl; [now rewrite lookup_delete_ne | eauto].
Qed.

Lemma onSocketTimeout_untracked id' st :
  untracked conn id st -> untracked conn id (fst (onSocketTimeout id' st)).
Proof.
  intros Hst. unfold onSocketTimeout.
  destruct (dials st !! id') as [[conn' hostPort] |] eqn:Hdial; [| exact Hst].
  destruct Hst as [Hd Hm]. split; [| exact Hm]. simpl.
  destruct (decide (id' = id)) as [-> | Hne].
  - apply lookup_delete_eq.
  - now rewrite lookup_delete_ne.
Qed.

Lemma onSocketClose_untracked id' hadError st :
  untracked conn id st -> untracked conn id (fst (onSocketClose id' hadError st)).
Proof.
  intros Hst. unfold onSocketClose.
  destruct (streams st !! id') as [conn' |]; [| exact Hst].
  simpl. destruct (sockets st !! conn') as [m' |] eqn:Hm'; simpl.
  2: { now apply (untracked_same st). }
  destruct Hst as [Hd (m & Hm & Hid)]. split; [exact Hd |]. simpl.
  destruct (decide (conn' = conn)) as [-> | Hc].
  - rewrite lookup_insert_eq. eexists. split; [reflexivity |].
    assert (m' = m) as -> by congruence.
    destruct (decide (id' = id)) as [-> | Hne].
    + apply lookup_delete_eq.
    + now rewrite lookup_delete_ne.
  - rewrite lookup_insert_ne by assumption. eauto.
Qed.

Lemma closeAll_untracked conn' open st :
  (conn' = conn -> forall id' sc, (id', sc) ∈ open -> id' <> id) ->
  untracked conn id st -> untracked conn id (fst (closeAll conn' open st)).
Proof.
  revert st. induction open as [| [id' sc] rest IH]; intros st Hopen Hst.
  - exact Hst.
  - simpl. destruct (socket sc) as [sock |]; [| exact Hst].
    apply IH.
    + intros Hc i s Hin. apply (Hopen Hc i s). now right.
    + simpl. destruct (sockets st !! conn') as [m' |] eqn:Hm'.
      * destruct Hst as [Hd (m & Hm & Hid)]. split; [exact Hd |]. simpl.
        destruct (decide (conn' = conn)) as [-> | Hc].
        -- rewrite lookup_insert_eq. eexists. split; [reflexivity |].
           assert (m' = m) as -> by congruence.
           rewrite lookup_insert_ne; [exact Hid |].
           apply (Hopen eq_refl id' sc). now left.
        -- rewrite lookup_insert_ne by assumption. eauto.
      * now apply (untracked_same st).
Qed.

Lemma onConnClose_untracked conn' st :
  untracked conn id st -> untracked conn id (fst (onConnClose conn' st)).
Proof.
  intros Hst. unfold onConnClose.
  destruct (sockets st !! conn') as [m' |] eqn:Hm'; [| exact Hst].
  apply closeAll_untracked; [| exact Hst].
  intros -> id' sc Hin ->.
  apply elem_of_map_to_list in Hin.
  destruct Hst as [_ (m & Hm & Hid)]. congruence.
Qed.

Lemma exec_untracked ev st :
  fresh_for id ev = true ->
  untracked conn id st ->
  untracked conn id (exec JSON_parse credentials st ev).
Proof.
  intros Hfresh Hst.
  assert (H : untracked conn id (fst (step JSON_parse credentials ev st))).
  { destruct ev; simpl.
    - destruct (inherited uuid); [exact Hst |].
      apply onMessage_untracked; [| exact Hst].
      simpl in Hfresh. intros ->. rewrite String.eqb_refl in Hfresh. discriminate.
    - now apply onSocketConnect_untracked.
    - now apply onSocketTimeout_untracked.
    - now rewrite onSocketError_silent.
    - unfold onSocketData. destruct (streams st !! id0); [| exact Hst].
      now apply (untracked_same st).
    - now apply onSocketClose_untracked.
    - unfold onWriteCallback. destruct (bool_decide _); [| exact Hst].
      now apply (untracked_same st).
    - now apply onConnClose_untracked. }
  unfold exec. destruct (step JSON_parse credentials ev st) as [st' [| e]]; simpl in H.
  - exact H.
  - now apply (untracked_same st').
Qed.

Lemma run_untracked evs st :
  forallb (fresh_for id) evs = true ->
  untracked conn id st ->
  untracked conn id (run JSON_parse credentials evs st).
Proof.
  revert st. induction evs as [| ev evs IH]; intros st Hfresh Hst; simpl.
  - exact Hst.
  - simpl in Hfresh. apply andb_prop in Hfresh as [Hev Hrest].
    apply IH; [exact Hrest |]. now apply exec_untracked.
Qed.

(** TRAFFIC for an id that the session does not track is answered
    INVALIDID and nothing else happens. *)
Lemma onTraffic_untracked_invalid body st :
  untracked conn id st -> id <> EmptyString -> inherited id = false ->
  body_id body = Some id ->
  onTraffic conn body st
  = (sendJSON conn
       (reply (Some "TRAFFIC") None (Some id) (Some "INVALIDID") None None) st,
     Normal).
Proof.
  intros [_ (m & Hm & Hid)] Hne Hproto Hbody. unfold onTraffic.
  rewrite Hbody. simpl.
  destruct (String.eqb_spec id EmptyString) as [-> | _]; [contradiction |].
  simpl. rewrite Hm. simpl. rewrite Hm. unfold get. rewrite Hid, Hproto.
  reflexivity.
Qed.

End Untracked.

(** ** Ids in a mapping are not being dialled *)

Section Accounted.
Variable JSON_parse : string -> Parsed.
Variable credentials : option (gmap string ICredential).

Lemma accounted_same used st st' :
  accounted used st ->
  sockets st' = sockets st -> dials st' = dials st ->
  accounted used st'.
Proof. intros [Hd He] Hs Hdl. split; rewrite ?Hs, ?Hdl; assumption. Qed.

Lemma accounted_more used u st : accounted used st -> accounted (u :: used) st.
Proof.
  intros [Hd He]. split.
  - intros id v H. right. eauto.
  - intros conn m id sc Hm Hid. destruct (He conn m id sc Hm Hid). split; [now right | assumption].
Qed.

Lemma onConnect_accounted used conn body st :
  accounted used st -> accounted used (fst (onConnect credentials conn body st)).
Proof.
  intros Hst. unfold onConnect.
  destruct (isAuthenticated credentials body); simpl.
  2: { now apply (accounted_same used st). }
  destruct Hst as [Hd He]. split.
  - intros id v H. apply (Hd id v).
    destruct (truthy (body_passphrase body)); exact H.
  - intros c m id sc Hm Hid.
    assert (Hdl : dials
              (sendJSON conn (reply (Some "CONNECT") None None None None None)
                 (set_sockets
                    (<[conn:=∅]>
                       (sockets
                          (if truthy (body_passphrase body)
                           then set_passphrases
                                  (<[conn:=key (body_passphrase body)]> (passphrases st)) st
                           else st)))
                    (if truthy (body_passphrase body)
                     then set_passphrases
                            (<[conn:=key (body_passphrase body)]> (passphrases st)) st
                     else st)))
            = dials st) by now destruct (truthy (body_passphrase body)).
    rewrite Hdl.
    destruct (decide (conn = c)) as [<- | Hne].
    + assert (m = ∅) as ->.
      { destruct (truthy (body_passphrase body)); simpl in Hm;
          rewrite lookup_insert_eq in Hm; congruence. }
      rewrite lookup_empty in Hid. discriminate.
    + apply (He c m id sc); [| exact Hid].
      destruct (truthy (body_passphrase body)); simpl in Hm;
        now rewrite lookup_insert_ne in Hm.
Qed.

Lemma onStart_accounted used conn body uuid st :
  uuid ∉ used ->
  accounted used st ->
  accounted (uuid :: used) (fst (onStart credentials conn body uuid st)).
Proof.
  intros Hfresh Hst. unfold onStart.
  destruct (sockets st !! conn); simpl.
  2: { apply accounted_more. now apply (accounted_same used st). }
  destruct (authorize credentials (passphrases st !! conn) (fromBody body)); simpl.
  - destruct (dialable (fromBody body)); simpl.
    2: { apply accounted_more. now apply (accounted_same used st). }
    destruct Hst as [Hd He]. split; simpl.
    + intros id v H. destruct (decide (uuid = id)) as [<- | Hne]; [now left |].
      rewrite lookup_insert_ne in H by assumption. right. eauto.
    + intros c m id sc Hm Hid. destruct (He c m id sc Hm Hid) as [Hin Hnone].
      split; [now right |].
      rewrite lookup_insert_ne; [exact Hnone |]. intros ->. contradiction.
  - apply accounted_more. now apply (accounted_same used st).
  - now apply accounted_more.
Qed.

Lemma onTraffic_accounted used conn body st :
  accounted used st -> accounted used (fst (onTraffic conn body st)).
Proof.
  intros Hst. unfold onTraffic.
  apply (accounted_same used st); [exact Hst | |];
    repeat match goal with
           | |- context [match ?x with _ => _ end] => destruct x; simpl
           | |- context [if ?x then _ else _] => destruct x; simpl
           end; auto.
Qed.

Lemma onMessage_accounted used conn message uuid st :
  uuid ∉ used ->
  accounted used st ->
  accounted (uuid :: used)
    (fst (onMessage JSON_parse credentials conn message uuid st)).
Proof.
  intros Hfresh Hst. unfold onMessage.
  destruct message as [utf8Data | binaryData]; [| now apply accounted_more].
  destruct (JSON_parse utf8Data) as [| | body]; try now apply accounted_more.
  destruct (is_str (body_type body) "CONNECT").
  { apply accounted_more. now apply onConnect_accounted. }
  destruct (is_str (body_type body) "START"); [now apply onStart_accounted |].
  destruct (is_str (body_type body) "TRAFFIC").
  { apply accounted_more. now apply onTraffic_accounted. }
  apply accounted_more. now apply (accounted_same used st).
Qed.

Lemma onSocketConnect_accounted used id st :
  accounted used st -> accounted used (fst (onSocketConnect id st)).
Proof.
  intros Hst. unfold onSocketConnect.
  destruct (dials st !! id) as [[conn hostPort] |] eqn:Hdial; [| exact Hst].
  destruct Hst as [Hd He]. simpl.
  destruct (sockets st !! conn) as [m |] eqn:Hm; simpl.
  - split; simpl.
    + intros id' v H. apply lookup_delete_Some_inv in H. eauto.
    + intros c m' id' sc Hm' Hid'.
      destruct (decide (id = id')) as [<- | Hne].
      * split; [eauto | apply lookup_delete_eq].
      * rewrite lookup_delete_ne by assumption.
        destruct (decide (conn = c)) as [<- | Hc].
        -- rewrite lookup_insert_eq in Hm'. injection Hm' as <-.
           rewrite lookup_insert_ne in Hid' by assumption. eauto.
        -- rewrite lookup_insert_ne in Hm' by assumption. eauto.
  - split; simpl.
    + intros id' v H. apply lookup_delete_Some_inv in H. eauto.
    + intros c m' id' sc Hm' Hid'. destruct (He c m' id' sc Hm' Hid') as [Hin Hnone].
      split; [exact Hin |].
      destruct (decide (id = id')) as [<- | Hne]; [congruence |].
      now rewrite lookup_delete_ne.
Qed.

Lemma onSocketTimeout_accounted used id st :
  accounted used st -> accounted used (fst (onSocketTimeout id st)).
Proof.
  intros Hst. unfold onSocketTimeout.
  destruct (dials st !! id) as [[conn hostPort] |] eqn:Hdial; [| exact Hst].
  destruct Hst as [Hd He]. split; simpl.
  - intros id' v H. apply lookup_delete_Some_inv in H. eauto.
  - intros c m id' sc Hm Hid'. destruct (He c m id' sc Hm Hid') as [Hin Hnone].
    split; [exact Hin |].
    destruct (decide (id = id')) as [<- | Hne]; [congruence |].
    now rewrite lookup_delete_ne.
Qed.

Lemma onSocketClose_accounted used id hadError st :
  accounted used st -> accounted used (fst (onSocketClose id hadError st)).
Proof.
  intros Hst. unfold onSocketClose.
  destruct (streams st !! id) as [conn |]; [| exact Hst].
  simpl. destruct (sockets st !! conn) as [m |] eqn:Hm; simpl.
  2: { now apply (accounted_same used st). }
  destruct Hst as [Hd He]. split; simpl; [exact Hd |].
  intros c m' id' sc Hm' Hid'.
  destruct (decide (conn = c)) as [<- | Hc].
  - rewrite lookup_insert_eq in Hm'. injection Hm' as <-.
    apply lookup_delete_Some_inv in Hid'. eauto.
  - rewrite lookup_insert_ne in Hm' by assumption. eauto.
Qed.

Lemma closeAll_accounted used conn open st :
  (forall id sc, (id, sc) ∈ open -> id ∈ used /\ dials st !! id = None) ->
  accounted used st -> accounted used (fst (closeAll conn open st)).
Proof.
  revert st. induction open as [| [id sc] rest IH]; intros st Hopen Hst.
  - exact Hst.
  - simpl. destruct (socket sc) as [sock |]; [| exact Hst].
    destruct (Hopen id sc) as [Hin Hnone]; [now left |].
    apply IH.
    + intros i s Hi. simpl.
      destruct (sockets st !! conn); simpl; apply (Hopen i s); now right.
    + destruct Hst as [Hd He].
      destruct (sockets st !! conn) as [m |] eqn:Hm; simpl.
      * split; simpl; [exact Hd |].
        intros c m' id' sc' Hm' Hid'.
        destruct (decide (conn = c)) as [<- | Hc].
        -- rewrite lookup_insert_eq in Hm'. injection Hm' as <-.
           destruct (decide (id = id')) as [<- | Hne]; [now split |].
           rewrite lookup_insert_ne in Hid' by assumption. eauto.
        -- rewrite lookup_insert_ne in Hm' by assumption. eauto.
      * split; simpl; assumption.
Qed.

Lemma onConnClose_accounted used conn st :
  accounted used st -> accounted used (fst (onConnClose conn st)).
Proof.
  intros Hst. unfold onConnClose.
  destruct (sockets st !! conn) as [m |] eqn:Hm; [| exact Hst].
  apply closeAll_accounted; [| exact Hst].
  intros id sc Hin. apply elem_of_map_to_list in Hin.
  exact (entry_drawn _ _ Hst conn m id sc Hm Hin).
Qed.

Lemma exec_accounted used ev st :
  (forall uuid, uuid_of ev = Some uuid -> uuid ∉ used) ->
  accounted used st ->
  accounted (uuids [ev] ++ used) (exec JSON_parse credentials st ev).
Proof.
  intros Hfresh Hst.
  assert (H : accounted (uuids [ev] ++ used)
                (fst (step JSON_parse credentials ev st))).
  { destruct ev; simpl.
    - destruct (inherited uuid); [now apply accounted_more |].
      apply onMessage_accounted; [| exact Hst]. now apply Hfresh.
    - now apply onSocketConnect_accounted.
    - now apply onSocketTimeout_accounted.
    - now rewrite onSocketError_silent.
    - unfold onSocketData. destruct (streams st !! id); [| exact Hst].
      now apply (accounted_same used st).
    - now apply onSocketClose_accounted.
    - unfold onWriteCallback. destruct (bool_decide _); [| exact Hst].
      now apply (accounted_same used st).
    - now apply onConnClose_accounted. }
  unfold exec. destruct (step JSON_parse credentials ev st) as [st' [| e]]; simpl in H.
  - exact H.
  - now apply (accounted_same _ st').
Qed.

Lemma run_accounted evs used st :
  NoDup (uuids evs ++ used) ->
  accounted used st ->
  accounted (rev (uuids evs) ++ used) (run JSON_parse credentials evs st).
Proof.
  revert used st. induction evs as [| ev evs IH]; intros used st Hnodup Hst.
  - exact Hst.
  - assert (Hsplit : uuids (ev :: evs) = uuids [ev] ++ uuids evs).
    { unfold uuids. simpl. now destruct (uuid_of ev). }
    change (run JSON_parse credentials (ev :: evs) st)
      with (run JSON_parse credentials evs (exec JSON_parse credentials st ev)).
    rewrite Hsplit in Hnodup |- *. rewrite rev_app_distr, <- app_assoc.
    assert (Hrev : rev (uuids [ev]) = uuids [ev]).
    { unfold uuids. simpl. now destruct (uuid_of ev). }
    rewrite Hrev. apply IH.
    + rewrite <- app_assoc in Hnodup.
      apply NoDup_app in Hnodup as (Hev & Hdisj & Hrest).
      apply NoDup_app in Hrest as (Hevs & Hdisj' & Hused).
      apply NoDup_app. split; [exact Hevs |]. split.
      * intros x Hx Hin. apply elem_of_app in Hin as [Hin | Hin].
        -- apply (Hdisj x Hin). apply elem_of_app. now left.
        -- now apply (Hdisj' x Hx).
      * apply NoDup_app. split; [exact Hev |]. split; [| exact Hused].
        intros x Hx Hin. apply (Hdisj x Hx). apply elem_of_app. now right.
    + apply exec_accounted; [| exact Hst].
      intros uuid Hu Hin. rewrite <- app_assoc in Hnodup.
      apply NoDup_app in Hnodup as (_ & Hdisj & _).
      apply (Hdisj uuid).
      * unfold uuids. simpl. rewrite Hu. now left.
      * apply elem_of_app. now right.
Qed.

(** With distinct UUIDs, an id that a reachable state tracks in a
    mapping has no pending dial. *)
Lemma tracked_not_dialled evs conn connections id socketConnection :
  NoDup (uuids evs) ->
  sockets (run JSON_parse credentials evs initial) !! conn = Some connections ->
  connections !! id = Some socketConnection ->
  dials (run JSON_parse credentials evs initial) !! id = None.
Proof.
  intros Hnodup Hm Hid.
  assert (Hinit : accounted [] initial).
  { split; simpl; intros *; rewrite lookup_empty; discriminate. }
  assert (Hnd : NoDup (uuids evs ++ [])) by now rewrite app_nil_r.
  pose proof (run_accounted evs [] initial Hnd Hinit) as Hacc.
  now destruct (entry_drawn _ _ Hacc conn connections id socketConnection Hm Hid).
Qed.

End Accounted.

(** ** Ids in the registry are UUIDs *)

Section Genuine.
Variable JSON_parse : string -> Parsed.
Variable credentials : option (gmap string ICredential).

(** Same dials, and no entry that was not there. *)
Lemma genuine_same st st' :
  genuine st ->
  (forall id v, dials st' !! id = Some v -> dials st !! id = Some v) ->
  (forall conn m' id sc, sockets st' !! conn = Some m' -> m' !! id = Some sc ->
     exists m sc0, sockets st !! conn = Some m /\ m !! id = Some sc0) ->
  genuine st'.
Proof.
  intros [Hd He] Hd' He'. split.
  - intros id v H. apply (Hd id v). now apply Hd'.
  - intros conn m' id sc Hm Hid.
    destruct (He' conn m' id sc Hm Hid) as (m & sc0 & Hm0 & Hid0).
    now apply (He conn m id sc0).
Qed.

Lemma genuine_kept st st' :
  genuine st -> dials st' = dials st -> sockets st' = sockets st -> genuine st'.
Proof.
  intros Hst Hd Hs. apply (genuine_same st); [exact Hst | |].
  - intros id v. now rewrite Hd.
  - intros conn m' id sc. rewrite Hs. eauto.
Qed.

Lemma onConnect_genuine conn body st :
  genuine st -> genuine (fst (onConnect credentials conn body st)).
Proof.
  intros Hst. unfold onConnect.
  destruct (isAuthenticated credentials body); simpl.
  2: { now apply (genuine_kept st). }
  apply (genuine_same st); [exact Hst | |].
  - intros id v. now destruct (truthy (body_passphrase body)).
  - intros c m' id sc Hm Hid. simpl in Hm.
    destruct (decide (conn = c)) as [<- | Hne].
    + rewrite lookup_insert_eq in Hm. injection Hm as <-.
      rewrite lookup_empty in Hid. discriminate.
    + rewrite lookup_insert_ne in Hm by assumption.
      destruct (truthy (body_passphrase body)); simpl in Hm; eauto.
Qed.

Lemma onStart_genuine conn body uuid st :
  inherited uuid = false ->
  genuine st -> genuine (fst (onStart credentials conn body uuid st)).
Proof.
  intros Huuid Hst. unfold onStart.
  destruct (sockets st !! conn); simpl.
  2: { now apply (genuine_kept st). }
  destruct (authorize credentials (passphrases st !! conn) (fromBody body)); simpl.
  - destruct (dialable (fromBody body)); simpl.
    2: { now apply (genuine_kept st). }
    destruct Hst as [Hd He]. split; simpl.
    + intros id v H. destruct (decide (uuid = id)) as [<- | Hne]; [exact Huuid |].
      rewrite lookup_insert_ne in H by assumption. eauto.
    + exact He.
  - now apply (genuine_kept st).
  - exact Hst.
Qed.

Lemma onTraffic_genuine conn body st :
  genuine st -> genuine (fst (onTraffic conn body st)).
Proof.
  intros Hst. unfold onTraffic.
  apply (genuine_kept st); [exact Hst | |];
    repeat match goal with
           | |- context [match ?x with _ => _ end] => destruct x; simpl
           | |- context [if ?x then _ else _] => destruct x; simpl
           end; auto.
Qed.

Lemma onSocketConnect_genuine id st :
  genuine st -> genuine (fst (onSocketConnect id st)).
Proof.
  intros Hst. unfold onSocketConnect.
  destruct (dials st !! id) as [[conn hostPort] |] eqn:Hdial; [| exact Hst].
  simpl. destruct (sockets st !! conn) as [m |] eqn:Hm; simpl.
  - destruct Hst as [Hd He]. split; simpl.
    + intros id' v H. apply lookup_delete_Some_inv in H. eauto.
    + intros c m' id' sc Hm' Hid'.
      destruct (decide (conn = c)) as [<- | Hne].
      * rewrite lookup_insert_eq in Hm'. injection Hm' as <-.
        destruct (decide (id = id')) as [<- | Hne']; [eauto |].
        rewrite lookup_insert_ne in Hid' by assumption. eauto.
      * rewrite lookup_insert_ne in Hm' by assumption. eauto.
  - apply (genuine_same st); [exact Hst | | simpl; eauto].
    simpl. intros id' v H. now apply lookup_delete_Some_inv in H.
Qed.

Lemma onSocketClose_genuine id hadError st :
  genuine st -> genuine (fst (onSocketClose id hadError st)).
Proof.
  intros Hst. unfold onSocketClose.
  destruct (streams st !! id) as [conn |]; [| exact Hst].
  simpl. destruct (sockets st !! conn) as [m |] eqn:Hm; simpl.
  - apply (genuine_same st); [exact Hst | simpl; auto |].
    simpl. intros c m' id' sc Hm' Hid'.
    destruct (decide (conn = c)) as [<- | Hne].
    + rewrite lookup_insert_eq in Hm'. injection Hm' as <-.
      apply lookup_delete_Some_inv in Hid'. eauto.
    + rewrite lookup_insert_ne in Hm' by assumption. eauto.
  - now apply (genuine_kept st).
Qed.

Lemma closeAll_genuine conn open st :
  (forall m id sc, sockets st !! conn = Some m -> (id, sc) ∈ open ->
     is_Some (m !! id)) ->
  genuine st -> genuine (fst (closeAll conn open st)).
Proof.
  revert st. induction open as [| [id sc] rest IH]; intros st Hopen Hst; simpl.
  - exact Hst.
  - destruct (socket sc) as [sock |]; [| exact Hst].
    destruct (sockets st !! conn) as [m |] eqn:Hm; simpl.
    2: { apply IH.
         - simpl. intros m id' sc'. rewrite Hm. discriminate.
         - now apply (genuine_kept st). }
    destruct (Hopen m id sc eq_refl) as [sc0 Hsc0]; [now left |].
    apply IH.
    + simpl. intros m' id' sc'. rewrite lookup_insert_eq. intros [= <-] Hin.
      apply lookup_insert_is_Some'. right. apply (Hopen m id' sc' eq_refl).
      now right.
    + apply (genuine_same st); [exact Hst | simpl; auto |].
      simpl. intros c m' id' sc' Hm' Hid'.
      destruct (decide (conn = c)) as [<- | Hne].
      * rewrite lookup_insert_eq in Hm'. injection Hm' as <-.
        destruct (decide (id = id')) as [<- | Hne']; [eauto |].
        rewrite lookup_insert_ne in Hid' by assumption. eauto.
      * rewrite lookup_insert_ne in Hm' by assumption. eauto.
Qed.

Lemma exec_genuine ev st :
  genuine st -> genuine (exec JSON_parse credentials st ev).
Proof.
  intros Hst.
  assert (H : genuine (fst (step JSON_parse credentials ev st))).
  { destruct ev as [conn message uuid | id | id | id | id data
                   | id hadError | conn id err | conn]; simpl.
    - destruct (inherited uuid) eqn:Huuid; [exact Hst |].
      unfold onMessage. destruct message as [utf8Data | binaryData]; [| exact Hst].
      destruct (JSON_parse utf8Data) as [| | body]; try exact Hst.
      destruct (is_str (body_type body) "CONNECT"); [now apply onConnect_genuine |].
      destruct (is_str (body_type body) "START"); [now apply onStart_genuine |].
      destruct (is_str (body_type body) "TRAFFIC"); [now apply onTraffic_genuine |].
      now apply (genuine_kept st).
    - now apply onSocketConnect_genuine.
    - unfold onSocketTimeout. destruct (dials st !! id) as [[c hp] |]; [| exact Hst].
      apply (genuine_same st); [exact Hst | | simpl; eauto].
      simpl. intros id' v H. now apply lookup_delete_Some_inv in H.
    - now rewrite onSocketError_silent.
    - unfold onSocketData. destruct (streams st !! id); [| exact Hst].
      now apply (genuine_kept st).
    - now apply onSocketClose_genuine.
    - unfold onWriteCallback. destruct (bool_decide _); [| exact Hst].
      now apply (genuine_kept st).
    - unfold onConnClose. destruct (sockets st !! conn) as [m |] eqn:Hm;
        [| exact Hst].
      apply closeAll_genuine; [| exact Hst].
      intros m' id sc Hm' Hin. rewrite Hm in Hm'. injection Hm' as <-.
      apply elem_of_map_to_list in Hin. eauto. }
  unfold exec. destruct (step JSON_parse credentials ev st) as [st' [| e]]; simpl in H.
  - exact H.
  - now apply (genuine_kept st').
Qed.

Lemma run_genuine evs st :
  genuine st -> genuine (run JSON_parse credentials evs st).
Proof.
  revert st. induction evs as [| ev evs IH]; intros st Hst; simpl.
  - exact Hst.
  - apply IH. now apply exec_genuine.
Qed.

Lemma reachable_genuine evs : genuine (run JSON_parse credentials evs initial).
Proof.
  apply run_genuine. split; simpl; intros *; rewrite lookup_empty; discriminate.
Qed.

End Genuine.
End SessionFacts.

(* ===================================================================== *)
(** * The relay: what the design document claims *)
(* ===================================================================== *)

Module RelayClaims.
Import Wire Server Invariants ServerFacts RelayFacts SessionFacts.

(** C2 (the code at the failing input).  On a session that never sent
    CONNECT, a TRAFFIC message with an id is answered AUTHFAIL and the
    handler then fails with a [TypeError] on the missing mapping; a
    TRAFFIC message without an id is answered AUTHFAIL and then NOID.
    The START branch returns after its AUTHFAIL reply
    ([onStart_before_connect]); the TRAFFIC branch does not. *)
Theorem traffic_before_connect_goes_on :
  step Json.parse None
    (Message "c1" (Scenario.frame (Scenario.TRAFFIC (Some "id1") "TQ==")) "u0") initial
  = (sendJSON "c1" (reply (Some "TRAFFIC") None None (Some "AUTHFAIL") None None) initial,
     Throw TypeError)
  /\ step Json.parse None
       (Message "c1" (Scenario.frame (Scenario.TRAFFIC None "TQ==")) "u0") initial
     = (sendJSON "c1" (reply (Some "TRAFFIC") None None (Some "NOID") None None)
          (sendJSON "c1"
             (reply (Some "TRAFFIC") None None (Some "AUTHFAIL") None None) initial),
        Normal).
Proof. split; vm_compute; reflexivity. Qed.

(** C5 (the code at the failing input).  A dial that fails with an
    [error] event (the target refuses the connection) is not answered:
    after CONNECT, START and the error, the log holds the two replies
    and the dial, then the unhandled error; no FAILED reply is sent and
    the dial is still pending.  Only a [timeout] event reaches the
    failure path ([onSocketTimeout_failed]). *)
Theorem dial_error_unanswered :
  effects (run Json.parse None (Scenario.handshake ++ [SocketError "id1"]) initial)
  = [SendJSON "c1" (reply (Some "CONNECT") None None None None None);
     SendJSON "c1" (reply (Some "START") (Some "CONNECTING") (Some "id1") None None None);
     NetConnect "id1" Scenario.example_com;
     Unhandled SocketFailure]
  /\ dials (run Json.parse None (Scenario.handshake ++ [SocketError "id1"]) initial)
       !! "id1" = Some ("c1", Scenario.example_com).
Proof. split; vm_compute; reflexivity. Qed.

(** C6.  Whenever a target socket that was established closes, the
    [close] listener removes the entry of its logical connection from
    the session's mapping, sends [{connection, status: CLOSED,
    hadError}] and then closes the WebSocket connection. *)
Theorem target_close_tears_down
    (JSON_parse : string -> Parsed) (credentials : option (gmap string ICredential))
    (evs : list Event) (id conn : string) (hadError : bool) (st : State) :
  st = run JSON_parse credentials evs initial ->
  streams st !! id = Some conn ->
  exists connections st',
    sockets st !! conn = Some connections
    /\ onSocketClose id hadError st = (st', Normal)
    /\ sockets st' !! conn = Some (delete id connections)
    /\ delete id connections !! id = None
    /\ effects st' = effects st
         ++ [SendJSON conn
               (reply None (Some "CLOSED") (Some id) None None (Some hadError));
             ConnClose conn].
Proof.
  intros -> Hstream.
  pose proof (reachable_consistent JSON_parse credentials evs) as Hinv.
  destruct (stream_session _ _ Hinv id conn Hstream) as [connections Hm].
  exists connections. unfold onSocketClose. rewrite Hstream. simpl. rewrite Hm.
  eexists. split; [reflexivity |]. split; [reflexivity |]. simpl.
  split; [apply lookup_insert_eq |]. split; [apply lookup_delete_eq |].
  now rewrite <- app_assoc.
Qed.

Lemma target_close_tears_down_witness :
  streams (run Json.parse None Scenario.established initial) !! "id1" = Some "c1"
  /\ exists connections st',
    sockets (run Json.parse None Scenario.established initial) !! "c1" = Some connections
    /\ connections !! "id1"
       = Some {| target := Scenario.example_com; socket := Some "id1" |}
    /\ onSocketClose "id1" false (run Json.parse None Scenario.established initial)
       = (st', Normal)
    /\ sockets st' !! "c1" = Some (delete "id1" connections).
Proof.
  assert (Hs : streams (run Json.parse None Scenario.established initial) !! "id1"
               = Some "c1") by (vm_compute; reflexivity).
  split; [exact Hs |].
  destruct (target_close_tears_down Json.parse None Scenario.established
              "id1" "c1" false _ eq_refl Hs)
    as (connections & st' & Hm & Hclose & Hm' & _).
  exists connections, st'. split; [exact Hm |]. split; [| split; assumption].
  assert (Hc : sockets (run Json.parse None Scenario.established initial) !! "c1"
               = Some {[ "id1" := {| target := Scenario.example_com;
                                     socket := Some "id1" |} ]})
    by (vm_compute; reflexivity).
  rewrite Hc in Hm. injection Hm as <-. apply lookup_singleton_eq.
Defined.

(** An accepted CONNECT on a session that has a mapping: the mapping is
    replaced by an empty one and only the reply is sent; TRAFFIC for an
    id that is not being dialled is answered INVALIDID from then on, as
    long as no START draws the id again. *)
Lemma accepted_connect_resets
    (JSON_parse : string -> Parsed) (credentials : option (gmap string ICredential))
    (conn id : string) (body traffic : Body)
    (connections : gmap string SocketConnection) (evs : list Event) (st st' : State) :
  sockets st !! conn = Some connections ->
  isAuthenticated credentials body = true ->
  st' = fst (onConnect credentials conn body st) ->
  dials st !! id = None -> id <> EmptyString -> inherited id = false ->
  forallb (fresh_for id) evs = true ->
  body_id traffic = Some id ->
  sockets st' !! conn = Some ∅
  /\ effects st' = effects st
       ++ [SendJSON conn (reply (Some "CONNECT") None None None None None)]
  /\ streams st' = streams st
  /\ onConnClose conn st' = (st', Normal)
  /\ onTraffic conn traffic (run JSON_parse credentials evs st')
     = (sendJSON conn
          (reply (Some "TRAFFIC") None (Some id) (Some "INVALIDID") None None)
          (run JSON_parse credentials evs st'),
        Normal).
Proof.
  intros Hm Hauth -> Hdial Hid Hproto Hfresh Htraffic.
  assert (Hreset : sockets (fst (onConnect credentials conn body st)) !! conn = Some ∅).
  { unfold onConnect. rewrite Hauth. simpl.
    destruct (truthy (body_passphrase body)); simpl; apply lookup_insert_eq. }
  split; [exact Hreset |].
  split; [unfold onConnect; rewrite Hauth; simpl;
          now destruct (truthy (body_passphrase body)) |].
  split; [unfold onConnect; rewrite Hauth; simpl;
          now destruct (truthy (body_passphrase body)) |].
  split.
  - unfold onConnClose. rewrite Hreset. now rewrite map_to_list_empty.
  - apply onTraffic_untracked_invalid; [| exact Hid | exact Hproto | exact Htraffic].
    apply run_untracked; [exact Hfresh |].
    split.
    + unfold onConnect. rewrite Hauth. simpl.
      now destruct (truthy (body_passphrase body)).
    + exists ∅. split; [exact Hreset | apply lookup_empty].
Qed.

Lemma fresh_for_uuids id evs :
  id ∉ uuids evs -> forallb (fresh_for id) evs = true.
Proof.
  induction evs as [| ev evs IH]; intros Hnotin; [reflexivity |].
  simpl. apply andb_true_intro. split.
  - destruct ev; try reflexivity. simpl.
    destruct (String.eqb_spec uuid id) as [-> | _]; [| reflexivity].
    exfalso. apply Hnotin. unfold uuids. simpl. now left.
  - apply IH. intros Hin. apply Hnotin. unfold uuids in *. simpl.
    destruct (uuid_of ev); [now right | exact Hin].
Qed.

(** C10 (as amended).  On a session that is already authenticated, a
    second CONNECT that the relay accepts replaces the session's
    mapping by an empty one.  The handler only sends its reply: the
    connections of the old mapping are not closed, their sockets keep
    their listeners, and the [close] listener of the session no longer
    finds them.  Every id of the old mapping is from then on answered
    INVALIDID on TRAFFIC, whatever happens in between (UUIDs being
    distinct).  An id whose dial is still pending is not in the old
    mapping: when its dial connects, it is registered in the new
    one. *)
Theorem second_connect_resets_mapping
    (JSON_parse : string -> Parsed) (credentials : option (gmap string ICredential))
    (before after : list Event) (conn id uuid : string) (message : IMessage)
    (body traffic : Body) (connections : gmap string SocketConnection)
    (socketConnection : SocketConnection) (st st' : State) :
  st = run JSON_parse credentials before initial ->
  NoDup (uuids (before ++ Message conn message uuid :: after)) ->
  sockets st !! conn = Some connections ->
  connections !! id = Some socketConnection ->
  id <> EmptyString ->
  isAuthenticated credentials body = true ->
  st' = fst (onConnect credentials conn body st) ->
  body_id traffic = Some id ->
  sockets st' !! conn = Some ∅
  /\ effects st' = effects st
       ++ [SendJSON conn (reply (Some "CONNECT") None None None None None)]
  /\ streams st' = streams st
  /\ onConnClose conn st' = (st', Normal)
  /\ onTraffic conn traffic (run JSON_parse credentials after st')
     = (sendJSON conn
          (reply (Some "TRAFFIC") None (Some id) (Some "INVALIDID") None None)
          (run JSON_parse credentials after st'),
        Normal)
  /\ (forall pending hostPort,
        dials st !! pending = Some (conn, hostPort) ->
        sockets (fst (onSocketConnect pending st')) !! conn
        = Some {[ pending := {| target := hostPort; socket := Some pending |} ]}).
Proof.
  intros -> Hnodup Hm Hid Hne Hauth -> Htraffic.
  set (st := run JSON_parse credentials before initial) in *.
  set (st' := fst (onConnect credentials conn body st)).
  assert (Hmain :
    sockets st' !! conn = Some ∅
    /\ effects st' = effects st
         ++ [SendJSON conn (reply (Some "CONNECT") None None None None None)]
    /\ streams st' = streams st
    /\ onConnClose conn st' = (st', Normal)
    /\ onTraffic conn traffic (run JSON_parse credentials after st')
       = (sendJSON conn
            (reply (Some "TRAFFIC") None (Some id) (Some "INVALIDID") None None)
            (run JSON_parse credentials after st'),
          Normal)).
  { assert (Hsplit : uuids (before ++ Message conn message uuid :: after)
                     = uuids before ++ uuid :: uuids after).
    { unfold uuids. now rewrite omap_app. }
    rewrite Hsplit in Hnodup.
    apply NoDup_app in Hnodup as (Hbefore & Hdisj & Hafter).
    assert (Hinit : accounted [] initial).
    { split; simpl; intros *; rewrite lookup_empty; discriminate. }
    assert (Hnd : NoDup (uuids before ++ [])) by now rewrite app_nil_r.
    pose proof (run_accounted JSON_parse credentials before [] initial Hnd Hinit)
      as Hacc.
    destruct (entry_drawn _ _ Hacc conn connections id socketConnection Hm Hid)
      as [Hdrawn Hdial].
    rewrite app_nil_r in Hdrawn.
    apply list_elem_of_In, in_rev, list_elem_of_In in Hdrawn.
    pose proof (entry_genuine _ (reachable_genuine JSON_parse credentials before)
                  conn connections id socketConnection Hm Hid) as Hproto.
    apply (accepted_connect_resets JSON_parse credentials conn id body traffic
             connections after _ _ Hm Hauth eq_refl Hdial Hne Hproto);
      [| exact Htraffic].
    apply fresh_for_uuids. intros Hin.
    apply (Hdisj id Hdrawn). now right. }
  destruct Hmain as (H1 & H2 & H3 & H4 & H5).
  repeat (split; [assumption |]).
  intros pending hostPort Hpending.
  assert (Hd : dials st' = dials st).
  { unfold st', onConnect. rewrite Hauth. cbn [negb fst].
    now destruct (truthy (body_passphrase body)). }
  unfold onSocketConnect. rewrite Hd, Hpending. cbn. rewrite H1. cbn.
  rewrite lookup_insert_eq. now rewrite insert_empty.
Qed.

Lemma established_uuids :
  NoDup (uuids (Scenario.established
                ++ Message "c1" (Scenario.frame (Scenario.CONNECT None)) "u1"
                     :: Scenario.restart)).
Proof. apply (bool_decide_unpack _). vm_compute. reflexivity. Qed.

Lemma established_mapping :
  sockets (run Json.parse None Scenario.established initial) !! "c1"
  = Some {[ "id1" := {| target := Scenario.example_com; socket := Some "id1" |} ]}.
Proof. vm_compute. reflexivity. Qed.

Lemma second_connect_resets_mapping_witness :
  NoDup (uuids (Scenario.established
                ++ Message "c1" (Scenario.frame (Scenario.CONNECT None)) "u1"
                     :: Scenario.restart))
  /\ sockets (run Json.parse None Scenario.established initial) !! "c1"
     = Some {[ "id1" := {| target := Scenario.example_com; socket := Some "id1" |} ]}
  /\ sockets (fst (onConnect None "c1" (Scenario.CONNECT None)
                     (run Json.parse None Scenario.established initial))) !! "c1"
     = Some ∅
  /\ onTraffic "c1" (Scenario.TRAFFIC (Some "id1") "TQ==")
       (run Json.parse None Scenario.restart
          (fst (onConnect None "c1" (Scenario.CONNECT None)
                  (run Json.parse None Scenario.established initial))))
     = (sendJSON "c1"
          (reply (Some "TRAFFIC") None (Some "id1") (Some "INVALIDID") None None)
          (run Json.parse None Scenario.restart
             (fst (onConnect None "c1" (Scenario.CONNECT None)
                     (run Json.parse None Scenario.established initial)))),
        Normal).
Proof.
  destruct (second_connect_resets_mapping Json.parse None
              Scenario.established Scenario.restart "c1" "id1" "u1"
              (Scenario.frame (Scenario.CONNECT None))
              (Scenario.CONNECT None) (Scenario.TRAFFIC (Some "id1") "TQ==")
              _ {| target := Scenario.example_com; socket := Some "id1" |} _ _
              eq_refl established_uuids established_mapping
              (lookup_singleton_eq _ _) ltac:(discriminate) eq_refl eq_refl eq_refl)
    as (Hreset & _ & _ & _ & Htraffic & _).
  split; [exact established_uuids |]. split; [exact established_mapping |].
  split; [exact Hreset | exact Htraffic].
Defined.

(** C10 (as stated) fails.  The id [id1] is allocated by START (the
    CONNECTING reply was sent) and its dial is still pending when the
    second CONNECT arrives; when the dial connects, the [then]
    callback registers the id in the new mapping, and TRAFFIC for it
    is not answered INVALIDID. *)
Lemma pending_dial_outlives_connect :
  ~ (SendJSON "c1"
       (reply (Some "START") (Some "CONNECTING") (Some "id1") None None None)
       ∈ effects (run Json.parse None Scenario.handshake initial) ->
     onTraffic "c1" (Scenario.TRAFFIC (Some "id1") "TQ==")
       (run Json.parse None
          (Scenario.handshake
           ++ [Message "c1" (Scenario.frame (Scenario.CONNECT None)) "u1";
               SocketConnect "id1"])
          initial)
     = (sendJSON "c1"
          (reply (Some "TRAFFIC") None (Some "id1") (Some "INVALIDID") None None)
          (run Json.parse None
             (Scenario.handshake
              ++ [Message "c1" (Scenario.frame (Scenario.CONNECT None)) "u1";
                  SocketConnect "id1"])
             initial),
        Normal)).
Proof.
  intros H.
  assert (Hlog : effects (run Json.parse None Scenario.handshake initial)
                 = [SendJSON "c1" (reply (Some "CONNECT") None None None None None);
                    SendJSON "c1"
                      (reply (Some "START") (Some "CONNECTING") (Some "id1")
                         None None None);
                    NetConnect "id1" Scenario.example_com])
    by (vm_compute; reflexivity).
  rewrite Hlog in H.
  assert (Hin : SendJSON "c1"
                  (reply (Some "START") (Some "CONNECTING") (Some "id1")
                     None None None)
                  ∈ [SendJSON "c1" (reply (Some "CONNECT") None None None None None);
                     SendJSON "c1"
                       (reply (Some "START") (Some "CONNECTING") (Some "id1")
                          None None None);
                     NetConnect "id1" Scenario.example_com])
    by (right; left).
  specialize (H Hin). vm_compute in H. discriminate.
Qed.

(** What happens there: the id is in the new mapping, and the bytes are
    written to its socket. *)
Example pending_dial_is_registered :
  sockets (run Json.parse None
             (Scenario.handshake
              ++ [Message "c1" (Scenario.frame (Scenario.CONNECT None)) "u1";
                  SocketConnect "id1"])
             initial) !! "c1"
  = Some {[ "id1" := {| target := Scenario.example_com; socket := Some "id1" |} ]}
  /\ effects
       (fst (onTraffic "c1" (Scenario.TRAFFIC (Some "id1") "TQ==")
               (run Json.parse None
                  (Scenario.handshake
                   ++ [Message "c1" (Scenario.frame (Scenario.CONNECT None)) "u1";
                       SocketConnect "id1"])
                  initial)))
     = [SendJSON "c1" (reply (Some "CONNECT") None None None None None);
        SendJSON "c1"
          (reply (Some "START") (Some "CONNECTING") (Some "id1") None None None);
        NetConnect "id1" Scenario.example_com;
        SendJSON "c1" (reply (Some "CONNECT") None None None None None);
        SendJSON "c1" (reply None (Some "ESTABLISHED") (Some "id1") None None None);
        SocketWrite "id1" ["M"%byte]].
Proof. split; vm_compute; reflexivity. Qed.

(** A CONNECT that the relay rejects leaves the session as it was. *)
Lemma rejected_connect_keeps_mapping credentials conn body st :
  isAuthenticated credentials body = false ->
  onConnect credentials conn body st
  = (sendJSON conn (reply (Some "CONNECT") None None (Some "AUTHFAIL") None None) st,
     Normal).
Proof. intros H. unfold onConnect. now rewrite H. Qed.

End RelayClaims.
Module AclFacts.
Import Wire Server Acl Invariants ServerFacts.

Lemma indexOf_from_found (l : list Z) (v i : Z) :
  (0 <= i)%Z -> (indexOf_from l v i = -1)%Z <-> v ∉ l.
Proof.
  revert i. induction l as [| x l IH]; intros i Hi; simpl.
  - split; [intros _; apply not_elem_of_nil | reflexivity].
  - destruct (Z.eqb_spec x v) as [-> | Hne].
    + split; [lia | intros H; exfalso; apply H; left].
    + rewrite IH by lia. rewrite not_elem_of_cons. intuition congruence.
Qed.

Lemma indexOf_port_allowed (ports : list Z) (port : option Z) :
  Z.eqb (indexOf ports port) (-1) && Z.eqb (indexOf ports (Some 0%Z)) (-1)
  = negb (port_allowed ports port).
Proof.
  unfold port_allowed, indexOf.
  assert (H0 : Z.eqb (indexOf_from ports 0 0) (-1) = negb (bool_decide (0%Z ∈ ports))).
  { destruct (Z.eqb_spec (indexOf_from ports 0 0) (-1)) as [H | H];
      rewrite indexOf_from_found in H by lia.
    - now rewrite bool_decide_eq_false_2.
    - rewrite bool_decide_eq_true_2; [reflexivity |].
      destruct (decide (0%Z ∈ ports)); [assumption | contradiction]. }
  rewrite H0. destruct port as [p |]; simpl.
  - destruct (Z.eqb_spec (indexOf_from ports p 0) (-1)) as [H | H];
      rewrite indexOf_from_found in H by lia.
    + rewrite (bool_decide_eq_false_2 _ H). reflexivity.
    + destruct (decide (p ∈ ports)) as [Hin | Hout]; [| contradiction].
      rewrite (bool_decide_eq_true_2 _ Hin). reflexivity.
  - reflexivity.
Qed.

Lemma checkPorts_port_allowed ports pair :
  checkPorts ports pair
  = if port_allowed ports (port pair) then Granted else Refused "FORBIDDEN".
Proof.
  unfold checkPorts. rewrite indexOf_port_allowed.
  now destruct (port_allowed ports (port pair)).
Qed.

(** The authorization block computes [rule]. *)
Lemma authorize_rule creds p pair :
  truthy (Some p) = true ->
  authorize (Some creds) (Some p) pair
  = match rule creds p pair with
    | Permit => Granted
    | Forbid => Refused "FORBIDDEN"
    | Crash => Raised TypeError
    end.
Proof.
  intros Hp. unfold authorize, rule, verdict, get.
  rewrite Hp. cbn [negb key].
  destruct (creds !! p) as [credential |]; [| now destruct (inherited p)].
  destruct (allowed credential) as [allowed |]; [| reflexivity].
  destruct (allowed !! key (host pair)) as [ports |].
  - rewrite checkPorts_port_allowed. now destruct (port_allowed ports (port pair)).
  - destruct (inherited (key (host pair))); [reflexivity |].
    destruct (allowed !! "*") as [ports |]; cbn [entry_allows].
    + rewrite checkPorts_port_allowed. now destruct (port_allowed ports (port pair)).
    + reflexivity.
Qed.

(** What the handler permits with a credential, the document's rule
    permits. *)
Lemma verdict_matches_any credential pair :
  verdict credential pair = Permit -> matches_any credential pair = true.
Proof.
  unfold verdict, matches_any.
  destruct (allowed credential) as [allowed |]; [| reflexivity].
  destruct (allowed !! key (host pair)) as [ports |]; cbn [entry_allows].
  - destruct (port_allowed ports (port pair)); [reflexivity | discriminate].
  - destruct (inherited (key (host pair))); [discriminate |].
    destruct (entry_allows (allowed !! "*") (port pair)); [reflexivity | discriminate].
Qed.

(** Without a credential table every START of an authenticated session is
    granted. *)
Lemma authorize_no_table passphrase pair : authorize None passphrase pair = Granted.
Proof. reflexivity. Qed.

(** C1 (as amended).  On a session that completed CONNECT against a
    configured credential table, the START handler decides by the
    rule of the session's passphrase.  When the passphrase is an entry
    of the table, it grants the requested (host, port) pair if and
    only if the credential has no [allowed] restriction, or the port
    list selected for the host, which is the host's own entry when it
    has one and the entry of the wildcard host otherwise, contains the
    port or the wildcard port; it answers FORBIDDEN and does nothing
    else if and only if the rule forbids the pair.  The tables are
    plain objects: for a host without an entry that names a member of
    [Object.prototype] the handler throws a [TypeError] and neither
    replies nor dials, and a passphrase without an entry that names
    such a member is granted every pair. *)
Theorem start_grants_iff_permitted
    (JSON_parse : string -> Parsed) (creds : gmap string ICredential)
    (evs : list Event) (conn : string) (body : Body) (id : string) (st : State) :
  st = run JSON_parse (Some creds) evs initial ->
  is_Some (sockets st !! conn) ->
  exists p,
    passphrases st !! conn = Some p
    /\ (is_Some (creds !! p) \/ inherited p = true)
    /\ (rule creds p (fromBody body) = Permit
        <-> granted conn id (fromBody body) st (fst (onStart (Some creds) conn body id st)))
    /\ (rule creds p (fromBody body) = Forbid
        <-> refused conn body "FORBIDDEN" st (fst (onStart (Some creds) conn body id st)))
    /\ (rule creds p (fromBody body) = Crash
        <-> onStart (Some creds) conn body id st = (st, Throw TypeError)).
Proof.
  intros -> Hsession.
  set (st := run JSON_parse (Some creds) evs initial) in *.
  pose proof (reachable_consistent JSON_parse (Some creds) evs) as Hinv.
  fold st in Hinv.
  destruct (session_credential _ st Hinv creds conn eq_refl Hsession)
    as (p & Hp & Htruthy & Hentry).
  exists p. split; [exact Hp |]. split; [exact Hentry |].
  destruct Hsession as [m Hm].
  unfold onStart, granted, refused. rewrite Hm, Hp.
  rewrite (authorize_rule creds p _ Htruthy).
  destruct (rule creds p (fromBody body)); cbn [fst].
  - assert (Hlog :
      effects
        (fst (if dialable (fromBody body)
              then
                (set_dials
                   (<[id := (conn, fromBody body)]>
                      (dials
                         (emit (NetConnect id (fromBody body))
                            (sendJSON conn
                               (reply (Some "START") (Some "CONNECTING") (Some id)
                                  None None None) st))))
                   (emit (NetConnect id (fromBody body))
                      (sendJSON conn
                         (reply (Some "START") (Some "CONNECTING") (Some id)
                            None None None) st)), Normal)
              else
                (sendJSON conn
                   (reply None (Some "FAILED") (Some id) None None None)
                   (sendJSON conn
                      (reply (Some "START") (Some "CONNECTING") (Some id)
                         None None None) st), Normal)))
      = effects st
        ++ [SendJSON conn
              (reply (Some "START") (Some "CONNECTING") (Some id) None None None);
            if dialable (fromBody body) then NetConnect id (fromBody body)
            else SendJSON conn
                   (reply None (Some "FAILED") (Some id) None None None)]).
    { destruct (dialable (fromBody body)); cbn; now rewrite <- app_assoc. }
    split; [| split].
    + split; [intros _; exact Hlog | reflexivity].
    + split; [discriminate |]. intros [H _]. rewrite Hlog in H.
      apply app_inv_head in H. discriminate.
    + split; [discriminate |]. intros H.
      destruct (dialable (fromBody body)); cbn in H; injection H as H;
        apply (f_equal effects) in H; cbn in H;
        rewrite <- (app_nil_r (effects st)) in H at 2;
        rewrite <- ?app_assoc in H; apply app_inv_head in H; discriminate.
  - split; [| split].
    + split; [discriminate |]. cbn. intros H. apply app_inv_head in H. discriminate.
    + split; [| reflexivity]. intros _. cbn. auto.
    + split; [discriminate |]. intros H. injection H as H.
      apply (f_equal effects) in H. cbn in H.
      rewrite <- (app_nil_r (effects st)) in H at 2.
      apply app_inv_head in H. discriminate.
  - split; [| split].
    + split; [discriminate |]. cbn. intros H.
      rewrite <- (app_nil_r (effects st)) in H at 1.
      apply app_inv_head in H. discriminate.
    + split; [discriminate |]. cbn. intros [H _].
      rewrite <- (app_nil_r (effects st)) in H at 1.
      apply app_inv_head in H. discriminate.
    + split; reflexivity.
Qed.

Lemma abc_connected :
  is_Some (sockets (run Json.parse (Some Scenario.table_abc)
                      [Message "c1" (Scenario.frame (Scenario.CONNECT (Some "abc"))) "u0"]
                      initial) !! "c1").
Proof. eexists. vm_compute. reflexivity. Qed.

Lemma abc_passphrase :
  passphrases (run Json.parse (Some Scenario.table_abc)
                 [Message "c1" (Scenario.frame (Scenario.CONNECT (Some "abc"))) "u0"]
                 initial) !! "c1" = Some "abc".
Proof. vm_compute. reflexivity. Qed.

Lemma abc_rule :
  rule Scenario.table_abc "abc" (fromBody (Scenario.START "example.com" 80)) = Permit.
Proof. vm_compute. reflexivity. Qed.

Lemma start_grants_iff_permitted_witness :
  is_Some (sockets (run Json.parse (Some Scenario.table_abc)
                      [Message "c1" (Scenario.frame (Scenario.CONNECT (Some "abc"))) "u0"]
                      initial) !! "c1")
  /\ rule Scenario.table_abc "abc" (fromBody (Scenario.START "example.com" 80))
     = Permit
  /\ granted "c1" "id1" (fromBody (Scenario.START "example.com" 80))
       (run Json.parse (Some Scenario.table_abc)
          [Message "c1" (Scenario.frame (Scenario.CONNECT (Some "abc"))) "u0"]
          initial)
       (fst (onStart (Some Scenario.table_abc) "c1"
               (Scenario.START "example.com" 80) "id1"
               (run Json.parse (Some Scenario.table_abc)
                  [Message "c1" (Scenario.frame (Scenario.CONNECT (Some "abc"))) "u0"]
                  initial))).
Proof.
  split; [exact abc_connected |]. split; [exact abc_rule |].
  destruct (start_grants_iff_permitted Json.parse Scenario.table_abc
              [Message "c1" (Scenario.frame (Scenario.CONNECT (Some "abc"))) "u0"]
              "c1" (Scenario.START "example.com" 80) "id1" _ eq_refl abc_connected)
    as (p & Hp & _ & Hg & _).
  rewrite abc_passphrase in Hp. injection Hp as <-.
  apply Hg. exact abc_rule.
Defined.

(** C1 (as stated) fails.  The credential allows [example.com:80] and
    [*:443]; the pair [(example.com, 443)] matches the wildcard host
    with the exact port, so the rule of the document permits it; the
    START handler does not grant it: it answers FORBIDDEN. *)
Lemma start_wildcard_host_not_consulted :
  ~ (matches_any Scenario.credential_abc (fromBody (Scenario.START "example.com" 443))
     = true ->
     granted "c1" "id1" (fromBody (Scenario.START "example.com" 443))
       (run Json.parse (Some Scenario.table_abc)
          [Message "c1" (Scenario.frame (Scenario.CONNECT (Some "abc"))) "u0"]
          initial)
       (run Json.parse (Some Scenario.table_abc)
          [Message "c1" (Scenario.frame (Scenario.CONNECT (Some "abc"))) "u0";
           Message "c1" (Scenario.frame (Scenario.START "example.com" 443)) "id1"]
          initial)).
Proof.
  intros H.
  assert (Hrule : matches_any Scenario.credential_abc
                    (fromBody (Scenario.START "example.com" 443)) = true)
    by (vm_compute; reflexivity).
  specialize (H Hrule). unfold granted in H. vm_compute in H. discriminate.
Qed.

(** What the handler answers there. *)
Example start_wildcard_host_forbidden :
  effects (run Json.parse (Some Scenario.table_abc)
             [Message "c1" (Scenario.frame (Scenario.CONNECT (Some "abc"))) "u0";
              Message "c1" (Scenario.frame (Scenario.START "example.com" 443)) "id1"]
             initial)
  = [SendJSON "c1" (reply (Some "CONNECT") None None None None None);
     SendJSON "c1" (reply (Some "START") None None (Some "FORBIDDEN") None None)].
Proof. vm_compute. reflexivity. Qed.

(** A host that names a member of [Object.prototype] and has no entry
    of its own: the handler throws, without a reply and without a
    dial. *)
Example start_inherited_host_throws :
  rule Scenario.table_abc "abc" (fromBody (Scenario.START "constructor" 443)) = Crash
  /\ onStart (Some Scenario.table_abc) "c1" (Scenario.START "constructor" 443) "id1"
       (run Json.parse (Some Scenario.table_abc)
          [Message "c1" (Scenario.frame (Scenario.CONNECT (Some "abc"))) "u0"]
          initial)
     = (run Json.parse (Some Scenario.table_abc)
          [Message "c1" (Scenario.frame (Scenario.CONNECT (Some "abc"))) "u0"]
          initial,
        Throw TypeError).
Proof. split; vm_compute; reflexivity. Qed.

End AclFacts.

(* ===================================================================== *)
(** * Payloads across the tunnel *)
(* ===================================================================== *)

Module WireFacts.
Import Wire Base64Facts.

(** C4.  Decoding the base64 text of a byte sequence gives the byte
    sequence back: [Buffer.from(B.toString('base64'), 'base64')] is [B],
    for every [B]. *)
Theorem base64_round_trip (B : list byte) : Base64.decode (Base64.encode B) = B.
Proof. apply decode_encode. Qed.

Lemma encode_nonempty (B : list byte) :
  B <> [] -> truthy (Some (Base64.encode B)) = true.
Proof.
  destruct B as [| a [| b [| c rest]]]; [contradiction | | |]; intros _; reflexivity.
Qed.

(** Towards the local client: the chunk that the relay reads from the
    target and wraps (lines 241-246) is the chunk that the client
    writes to the attached socket (lines 153-157). *)
Lemma downstream_exact (id socket : string) (B : list byte) (s : Client.State) :
  id <> EmptyString -> B <> [] -> Client.client s = Some socket ->
  Client.onConnection (Frames.payload id (Base64.encode B)) s
  = (Client.emit (Client.SocketWrite socket B) s, Normal).
Proof.
  intros Hid HB Hclient. unfold Client.onConnection, Frames.payload.
  cbn [body_connection body_status body_data reply truthy].
  destruct (String.eqb_spec id EmptyString) as [-> | _]; [contradiction |].
  pose proof (encode_nonempty B HB) as Hdata. cbn [truthy] in Hdata.
  rewrite Hdata. cbn [negb default]. unfold Datatypes.id.
  rewrite Hclient, decode_encode. reflexivity.
Qed.

(** Towards the target: the chunk that the client reads from the local
    socket and wraps (lines 184-189) is the chunk that the relay writes
    to the target socket (line 298). *)
Lemma upstream_exact (conn id : string) (B : list byte)
    (connections : gmap string Server.SocketConnection)
    (hostPort : HostPortPair) (sock : string) (st : Server.State) :
  id <> EmptyString ->
  Server.sockets st !! conn = Some connections ->
  connections !! id = Some {| Server.target := hostPort; Server.socket := Some sock |} ->
  Server.effects
    (fst (Server.onTraffic conn
            (request (Some "TRAFFIC") None None None (Some id)
               (Some (Base64.encode B))) st))
  = Server.effects st ++ [Server.SocketWrite sock B].
Proof.
  intros Hid Hconn Hentry. unfold Server.onTraffic.
  cbn [body_id body_data body_type request truthy Server.key].
  destruct (String.eqb_spec id EmptyString) as [-> | _]; [contradiction |].
  rewrite Hconn. cbn [negb]. unfold get. rewrite ?Hconn, Hentry. simpl.
  now rewrite decode_encode.
Qed.

End WireFacts.

(* ===================================================================== *)
(** * The client: reconnection under the lock *)
(* ===================================================================== *)

Module ReconnectFacts.
Import Wire Client Reconnect.











Section Burst.
Variable JSON_parse : string -> Parsed.
Variable passphrase : option string.
Variable host : string.
Variable port : option Z.
Variables n0 o0 h0 f0 : nat.














End Burst.


(** ** START messages follow the relay's replies to CONNECT *)

Section Starts.
Variable JSON_parse : string -> Parsed.
Variable passphrase : option string.
Variable host : string.
Variable port : option Z.











(** *** Exactly one START for each acknowledgement *)


Lemma accepts_running k body s :
  accepts body = true -> exited s = false ->
  exited (onCommand host port k body s) = false.
Proof.
  unfold accepts, onCommand. intros H Hs.
  apply andb_prop in H as [-> He]. apply negb_true_iff in He. rewrite He.
  exact Hs.
Qed.





Lemma acknowledges_reply s ev :
  acknowledges JSON_parse s ev = true -> connect_reply JSON_parse ev = true.
Proof.
  unfold acknowledges, connect_reply, accepts. intros H.
  apply andb_prop in H as [_ H].
  destruct ev as [| | | | | | k [utf8Data |] |]; try discriminate.
  destruct (links s !! k) as [[| |] |]; try discriminate.
  destruct (JSON_parse utf8Data) as [| | body]; try discriminate.
  now apply andb_prop in H as [H _].
Qed.


End Starts.
(** ** A relay that follows the protocol *)

Section Causal.
Variable JSON_parse : string -> Parsed.
Variable passphrase : option string.
Variable host : string.
Variable port : option Z.
Variables n0 o0 h0 f0 : nat.












End Causal.


End ReconnectFacts.

(* ===================================================================== *)
(** * The client: what the design document claims *)
(* ===================================================================== *)

Module ClientClaims.
Import Wire Client Frames Reconnect ReconnectFacts ClientScenario.






(** The relay of a client may break the protocol: a second reply to
    the one CONNECT draws a second START. *)
Example second_reply_second_start :
  starts (effects (Client.run Json.parse None "example.com" (Some 80%Z)
                     (arrivals ++ [WsMessage 1 (frame CONNECT_ok)]) dropped))
  = starts (effects dropped) + 2
  /\ causal Json.parse None "example.com" (Some 80%Z)
       (arrivals ++ [WsMessage 1 (frame CONNECT_ok)]) dropped = false.
Proof. split; vm_compute; reflexivity. Qed.

(** ** Buffering before a local client attaches *)

Section Buffering.
Variable JSON_parse : string -> Parsed.
Variable passphrase : option string.
Variable host : string.
Variable port : option Z.

Lemma flush_effects socket pending s :
  effects (flush socket pending s)
  = effects s ++ map (SocketWrite socket) pending.
Proof.
  revert s. induction pending as [| buffer rest IH]; intros s; simpl.
  - now rewrite app_nil_r.
  - rewrite IH. simpl. now rewrite <- app_assoc.
Qed.

Lemma flush_buffers socket pending s :
  buffers s = pending -> buffers (flush socket pending s) = [].
Proof.
  revert s. induction pending as [| buffer rest IH]; intros s H; simpl.
  - exact H.
  - apply IH. reflexivity.
Qed.

Lemma flush_client socket pending s :
  client (flush socket pending s) = client s.
Proof.
  revert s. induction pending as [| buffer rest IH]; intros s; simpl.
  - reflexivity.
  - now rewrite IH.
Qed.

(** A payload frame that arrives while no local client is attached is
    decoded and appended to the queue; nothing else changes. *)
Lemma exec_payload_detached k utf8Data data s :
  payload_frame JSON_parse utf8Data data ->
  links s !! k = Some Open -> exited s = false -> client s = None ->
  Client.exec JSON_parse passphrase host port s (WsMessage k (Utf8 utf8Data))
  = set_buffers (buffers s ++ [Base64.decode data]) s.
Proof.
  intros (id & Hid & Hdata & Hparse) Hopen Hrun Hclient.
  unfold Client.exec, step. rewrite Hrun, Hopen. simpl. rewrite Hparse.
  unfold onCommand, payload. simpl. rewrite Hrun.
  unfold onConnection. simpl.
  destruct (String.eqb_spec id EmptyString) as [-> | _]; [contradiction |].
  destruct (String.eqb_spec data EmptyString) as [-> | _]; [contradiction |].
  simpl. rewrite Hclient. simpl. rewrite Hrun. reflexivity.
Qed.

Lemma run_payloads_detached k utf8Datas datas s :
  Forall2 (payload_frame JSON_parse) utf8Datas datas ->
  links s !! k = Some Open -> exited s = false -> client s = None ->
  Client.run JSON_parse passphrase host port
    (map (fun utf8Data => WsMessage k (Utf8 utf8Data)) utf8Datas) s
  = set_buffers (buffers s ++ map Base64.decode datas) s.
Proof.
  intros Hframes. revert s.
  induction Hframes as [| utf8Data data utf8Datas datas Hframe _ IH];
    intros s Hopen Hrun Hclient; simpl.
  - rewrite app_nil_r. now destruct s.
  - rewrite (exec_payload_detached k utf8Data data s Hframe Hopen Hrun Hclient).
    rewrite IH by assumption. simpl. now rewrite <- app_assoc.
Qed.

End Buffering.

(** C7.  The payloads that the client receives while no local client is
    attached are appended to the queue of pending buffers in the order
    of their arrival, and nothing is written; when a local client
    connects, the queue is written to it from its head to its tail and
    is left empty. *)
Theorem pending_buffers_flush_in_order
    (JSON_parse : string -> Parsed) (passphrase : option string)
    (host : string) (port : option Z) (k : nat) (socket : string)
    (utf8Datas datas : list string) (s s1 s2 : State) :
  Forall2 (payload_frame JSON_parse) utf8Datas datas ->
  links s !! k = Some Open -> exited s = false -> client s = None ->
  s1 = Client.run JSON_parse passphrase host port
         (map (fun utf8Data => WsMessage k (Utf8 utf8Data)) utf8Datas) s ->
  s2 = Client.exec JSON_parse passphrase host port s1 (LocalConnection socket) ->
  buffers s1 = buffers s ++ map Base64.decode datas
  /\ effects s1 = effects s
  /\ client s1 = None
  /\ effects s2 = effects s
       ++ map (SocketWrite socket) (buffers s ++ map Base64.decode datas)
  /\ buffers s2 = []
  /\ client s2 = Some socket.
Proof.
  intros Hframes Hopen Hrun Hclient -> ->.
  rewrite (run_payloads_detached JSON_parse passphrase host port k
             utf8Datas datas s Hframes Hopen Hrun Hclient).
  set (s1 := set_buffers (buffers s ++ map Base64.decode datas) s).
  assert (Hattach :
    Client.exec JSON_parse passphrase host port s1 (LocalConnection socket)
    = flush socket (buffers s1)
        (set_client (Some socket) (set_accepted (accepted s1 ∪ {[socket]}) s1))).
  { unfold Client.exec, step. change (exited s1) with (exited s). rewrite Hrun.
    unfold onLocalConnection.
    change (client (set_accepted (accepted s1 ∪ {[socket]}) s1)) with (client s).
    rewrite Hclient. reflexivity. }
  rewrite Hattach.
  split; [reflexivity |]. split; [reflexivity |]. split; [exact Hclient |].
  split; [rewrite flush_effects; reflexivity |].
  split; [apply flush_buffers; reflexivity |].
  rewrite flush_client. reflexivity.
Qed.

Lemma three_payload_frames :
  Forall2 (payload_frame Json.parse)
    [Json.stringify (payload "id1" (Base64.encode chunk1));
     Json.stringify (payload "id1" (Base64.encode chunk2));
     Json.stringify (payload "id1" (Base64.encode chunk3))]
    [Base64.encode chunk1; Base64.encode chunk2; Base64.encode chunk3].
Proof.
  repeat constructor; exists "id1";
    (split; [discriminate | split; [vm_compute; discriminate | vm_compute; reflexivity]]).
Qed.

Lemma ready_open : links ready !! 0 = Some Open.
Proof. vm_compute. reflexivity. Qed.

Lemma ready_running : exited ready = false.
Proof. vm_compute. reflexivity. Qed.

Lemma ready_detached : client ready = None.
Proof. vm_compute. reflexivity. Qed.

Lemma pending_buffers_flush_in_order_witness :
  Forall2 (payload_frame Json.parse)
    [Json.stringify (payload "id1" (Base64.encode chunk1));
     Json.stringify (payload "id1" (Base64.encode chunk2));
     Json.stringify (payload "id1" (Base64.encode chunk3))]
    [Base64.encode chunk1; Base64.encode chunk2; Base64.encode chunk3]
  /\ links ready !! 0 = Some Open /\ exited ready = false /\ client ready = None
  /\ effects
       (Client.exec Json.parse None "example.com" (Some 80%Z)
          (Client.run Json.parse None "example.com" (Some 80%Z)
             (map (fun utf8Data => WsMessage 0 (Utf8 utf8Data))
                [Json.stringify (payload "id1" (Base64.encode chunk1));
                 Json.stringify (payload "id1" (Base64.encode chunk2));
                 Json.stringify (payload "id1" (Base64.encode chunk3))])
             ready)
          (LocalConnection "a"))
     = effects ready
         ++ map (SocketWrite "a")
              (buffers ready
               ++ map Base64.decode
                    [Base64.encode chunk1; Base64.encode chunk2; Base64.encode chunk3]).
Proof.
  destruct (pending_buffers_flush_in_order Json.parse None "example.com" (Some 80%Z)
              0 "a" _ _ ready _ _ three_payload_frames ready_open ready_running
              ready_detached eq_refl eq_refl)
    as (_ & _ & _ & Hlog & _).
  split; [exact three_payload_frames |]. split; [exact ready_open |].
  split; [exact ready_running |]. split; [exact ready_detached |].
  exact Hlog.
Defined.

(** The same run, evaluated: the three chunks reach the local client in
    the order in which the relay sent them. *)
Example three_chunks_in_order :
  effects
    (run [WsMessage 0 (frame (payload "id1" (Base64.encode chunk1)));
          WsMessage 0 (frame (payload "id1" (Base64.encode chunk2)));
          WsMessage 0 (frame (payload "id1" (Base64.encode chunk3)));
          LocalConnection "a"] ready)
  = effects ready
      ++ [SocketWrite "a" chunk1; SocketWrite "a" chunk2; SocketWrite "a" chunk3].
Proof. vm_compute. reflexivity. Qed.

(** ** A second local client *)

(** The [connection] listener rejects a socket when a client is
    attached, and changes nothing else. *)
Lemma onLocalConnection_rejects socket first s :
  client s = Some first ->
  onLocalConnection socket s
  = (emit (SocketEnd socket) (set_accepted (accepted s ∪ {[socket]}) s), Normal).
Proof. intros H. unfold onLocalConnection. simpl. now rewrite H. Qed.

(** C8 (the code at the failing input).  With the client [a] attached,
    a second socket [b] is ended at once and [a] stays attached; but [b]
    carries the [data] and [close] listeners of every accepted socket:
    a chunk that [b] still sends is forwarded into the tunnel of [a],
    and when [b] closes, the WebSocket connection is closed and the
    attached-client reference is cleared. *)
Theorem rejected_socket_disturbs_first :
  client (run [LocalConnection "b"] attached) = Some "a"
  /\ effects (run [LocalConnection "b"] attached)
     = effects attached ++ [SocketEnd "b"]
  /\ effects (run [LocalConnection "b"; LocalData "b" chunk1; Resume] attached)
     = effects attached
         ++ [SocketEnd "b";
             SendJSON 0 (request (Some "TRAFFIC") None None None (Some "id1")
                           (Some (Base64.encode chunk1)))]
  /\ client (run [LocalConnection "b"; LocalClose "b"] attached) = None
  /\ effects (run [LocalConnection "b"; LocalClose "b"] attached)
     = effects attached ++ [SocketEnd "b"; ConnClose 0].
Proof. repeat split; vm_compute; reflexivity. Qed.

(** ** Frames that are not control messages *)

(** C9 (as amended).  A binary frame is ignored by both ends: the
    handler returns and the state is unchanged.  A text frame whose
    content is not JSON leaves the state unchanged as well, but is not
    ignored: [JSON.parse] throws a [SyntaxError] out of the handler. *)
Theorem malformed_frame_leaves_state
    (JSON_parse : string -> Parsed) (credentials : option (gmap string Server.ICredential))
    (host : string) (port : option Z)
    (message : IMessage) (conn uuid : string) (k : nat)
    (st : Server.State) (s : State) :
  malformed JSON_parse message ->
  Server.onMessage JSON_parse credentials conn message uuid st
  = (st, if isUTF8Message message then Throw SyntaxError else Normal)
  /\ Client.onMessage JSON_parse host port k message s
     = (s, if isUTF8Message message then Throw SyntaxError else Normal).
Proof.
  destruct message as [utf8Data | binaryData]; simpl.
  - intros ->. split; reflexivity.
  - intros _. split; reflexivity.
Qed.

Lemma brace_malformed : malformed Json.parse (Utf8 "{").
Proof. vm_compute. reflexivity. Qed.

Lemma malformed_frame_leaves_state_witness :
  malformed Json.parse (Utf8 "{")
  /\ Server.onMessage Json.parse None "c1" (Utf8 "{") "u0" Server.initial
     = (Server.initial, Throw SyntaxError)
  /\ Client.onMessage Json.parse "example.com" (Some 80%Z) 0 (Utf8 "{") ready
     = (ready, Throw SyntaxError).
Proof.
  split; [exact brace_malformed |].
  exact (malformed_frame_leaves_state Json.parse None "example.com" (Some 80%Z)
           (Utf8 "{") "c1" "u0" 0 Server.initial ready brace_malformed).
Defined.

(** C9 (as stated) fails.  The text frame [{] is not JSON, and neither
    end ignores it: the relay's listener ends with a [SyntaxError], and
    so does the client's. *)
Lemma text_frame_not_ignored :
  ~ (malformed Json.parse (Utf8 "{") ->
     Server.step Json.parse None (Server.Message "c1" (Utf8 "{") "u0") Server.initial
     = (Server.initial, Normal)
     /\ Client.step Json.parse None "example.com" (Some 80%Z)
          (WsMessage 0 (Utf8 "{")) ready
        = (ready, Normal)).
Proof.
  intros H. destruct (H brace_malformed) as [Hrelay _].
  vm_compute in Hrelay. discriminate.
Qed.

(** What the two ends do there; on the client the error leaves the
    listener and ends the process. *)
Example text_frame_throws :
  snd (Server.step Json.parse None (Server.Message "c1" (Utf8 "{") "u0")
         Server.initial)
  = Throw SyntaxError
  /\ snd (Client.step Json.parse None "example.com" (Some 80%Z)
            (WsMessage 0 (Utf8 "{")) ready)
     = Throw SyntaxError
  /\ exited (run [WsMessage 0 (Utf8 "{")] ready) = true.
Proof. repeat split; vm_compute; reflexivity. Qed.

End ClientClaims.

(* ===================================================================== *)
(** * The relay over whole traces *)
(* ===================================================================== *)

Module RelayTraces.
Import Wire Server Invariants Acl RelayLog ServerFacts RelayFacts SessionFacts AclFacts.

Section Traces.
Variable JSON_parse : string -> Parsed.
Variable credentials : option (gmap string ICredential).

(** ** A session's mapping is never removed *)

Lemma closeAll_keeps_session conn conn' open st :
  is_Some (sockets st !! conn) ->
  is_Some (sockets (fst (closeAll conn' open st)) !! conn).
Proof.
  revert st. induction open as [| [id sc] rest IH]; intros st Hs; simpl.
  - exact Hs.
  - destruct (socket sc) as [sock |]; [| exact Hs].
    apply IH. simpl.
    destruct (sockets st !! conn') as [m |] eqn:Hm; simpl; [| exact Hs].
    apply is_Some_insert_same; [eauto | exact Hs].
Qed.

Lemma step_keeps_session ev conn st :
  is_Some (sockets st !! conn) ->
  is_Some (sockets (fst (step JSON_parse credentials ev st)) !! conn).
Proof.
  intros Hs. destruct ev as [c message uuid | id | id | id | id data
                            | id hadError | c id err | c]; simpl.
  - destruct (inherited uuid); [exact Hs |].
    unfold onMessage. destruct message as [utf8Data | binaryData]; [| exact Hs].
    destruct (JSON_parse utf8Data) as [| | body]; try exact Hs.
    destruct (is_str (body_type body) "CONNECT").
    { unfold onConnect. destruct (isAuthenticated credentials body); simpl;
        [| exact Hs].
      destruct (decide (c = conn)) as [-> | Hne].
      - rewrite lookup_insert_eq. eauto.
      - rewrite lookup_insert_ne by assumption.
        now destruct (truthy (body_passphrase body)). }
    destruct (is_str (body_type body) "START").
    { unfold onStart. destruct (sockets st !! c); simpl; [| exact Hs].
      destruct (authorize credentials (passphrases st !! c) (fromBody body));
        try exact Hs.
      now destruct (dialable (fromBody body)). }
    destruct (is_str (body_type body) "TRAFFIC"); [| exact Hs].
    unfold onTraffic.
    repeat match goal with
           | |- context [match ?x with _ => _ end] => destruct x eqn:?; simpl
           | |- context [if ?x then _ else _] => destruct x eqn:?; simpl
           end; auto.
  - unfold onSocketConnect.
    destruct (dials st !! id) as [[c hostPort] |]; [| exact Hs]. simpl.
    destruct (sockets st !! c) as [m |] eqn:Hm; simpl; [| exact Hs].
    apply is_Some_insert_same; [eauto | exact Hs].
  - unfold onSocketTimeout.
    now destruct (dials st !! id) as [[c hostPort] |].
  - now rewrite onSocketError_silent.
  - unfold onSocketData. now destruct (streams st !! id).
  - unfold onSocketClose. destruct (streams st !! id) as [c |]; [| exact Hs].
    simpl. destruct (sockets st !! c) as [m |] eqn:Hm; simpl; [| exact Hs].
    apply is_Some_insert_same; [eauto | exact Hs].
  - unfold onWriteCallback. now destruct (bool_decide _).
  - unfold onConnClose. destruct (sockets st !! c); [| exact Hs].
    now apply closeAll_keeps_session.
Qed.

Lemma exec_keeps_session ev conn st :
  is_Some (sockets st !! conn) ->
  is_Some (sockets (exec JSON_parse credentials st ev) !! conn).
Proof.
  intros Hs. pose proof (step_keeps_session ev conn st Hs) as H. unfold exec.
  now destruct (step JSON_parse credentials ev st) as [st' [| e]].
Qed.

(** ** Every dial was authorized *)







End Traces.

(** X1.  Once a session has a mapping, it has one in every later state:
    no handler deletes [sockets[conn.id]], not even the [close] listener
    of the connection. *)
Theorem session_mapping_persists
    (JSON_parse : string -> Parsed) (credentials : option (gmap string ICredential))
    (evs : list Event) (conn : string) (st : State) :
  is_Some (sockets st !! conn) ->
  is_Some (sockets (run JSON_parse credentials evs st) !! conn).
Proof.
  revert st. induction evs as [| ev evs IH]; intros st Hs; simpl.
  - exact Hs.
  - apply IH. now apply exec_keeps_session.
Qed.


(** The second case occurs: against the table of the passphrase [abc],
    the passphrase [constructor] is accepted and its START is dialled. *)
Example inherited_passphrase_dials :
  effects (run Json.parse (Some Scenario.table_abc)
             [Message "c1" (Scenario.frame (Scenario.CONNECT (Some "constructor"))) "u0";
              Message "c1" (Scenario.frame (Scenario.START "10.0.0.1" 22)) "id1"]
             initial)
  = [SendJSON "c1" (reply (Some "CONNECT") None None None None None);
     SendJSON "c1" (connecting "id1");
     NetConnect "id1" {| host := Some "10.0.0.1"; port := Some 22%Z |}].
Proof. vm_compute. reflexivity. Qed.

End RelayTraces.

(* ===================================================================== *)
(** * Sessions of the relay: closing and isolation *)
(* ===================================================================== *)

Module RelayIsolation.
Import Wire Server Invariants Acl RelayLog ServerFacts RelayFacts SessionFacts.

Section Changes.
Variable JSON_parse : string -> Parsed.
Variable credentials : option (gmap string ICredential).

Lemma closeAll_other conn conn' open st :
  conn' <> conn ->
  sockets (fst (closeAll conn' open st)) !! conn = sockets st !! conn.
Proof.
  intros Hne. revert st.
  induction open as [| [id sc] rest IH]; intros st; cbn [closeAll].
  - reflexivity.
  - destruct (socket sc) as [sock |]; [| reflexivity].
    cbv zeta. rewrite IH.
    cbn [sockets emit].
    destruct (sockets st !! conn') as [m |]; [| reflexivity].
    cbn [sockets set_sockets]. now rewrite lookup_insert_ne.
Qed.

Lemma step_change ev conn st :
  ev <> ConnClosed conn ->
  Change conn st (fst (step JSON_parse credentials ev st)).
Proof.
  intros Hev. destruct ev as [c message uuid | id | id | id | id data
                             | id hadError | c id err | c]; cbn [step].
  - destruct (inherited uuid); [now apply Kept |].
    unfold onMessage.
    destruct message as [utf8Data | binaryData]; [| now apply Kept].
    destruct (JSON_parse utf8Data) as [| | body]; try now apply Kept.
    destruct (is_str (body_type body) "CONNECT").
    { unfold onConnect.
      destruct (isAuthenticated credentials body); cbn [negb];
        [| now apply Kept].
      destruct (decide (c = conn)) as [-> | Hne].
      - apply Emptied. cbn. apply lookup_insert_eq.
      - apply Kept. cbn. rewrite lookup_insert_ne by assumption.
        now destruct (truthy (body_passphrase body)). }
    destruct (is_str (body_type body) "START").
    { apply Kept. unfold onStart. destruct (sockets st !! c); [| reflexivity].
      destruct (authorize credentials (passphrases st !! c) (fromBody body));
        try reflexivity.
      now destruct (dialable (fromBody body)). }
    apply Kept.
    destruct (is_str (body_type body) "TRAFFIC"); [| reflexivity].
    unfold onTraffic.
    repeat match goal with
           | |- context [match ?x with _ => _ end] => destruct x eqn:?
           | |- context [if ?x then _ else _] => destruct x eqn:?
           end; reflexivity.
  - unfold onSocketConnect.
    destruct (dials st !! id) as [[c hostPort] |] eqn:Hd; [| now apply Kept].
    cbv zeta. cbn [sockets set_streams sendJSON emit set_dials].
    destruct (sockets st !! c) as [m |] eqn:Hm; [| now apply Kept].
    destruct (decide (c = conn)) as [-> | Hne].
    + apply (Added _ _ _ m id hostPort); [exact Hm | exact Hd |].
      cbn. apply lookup_insert_eq.
    + apply Kept. cbn. now rewrite lookup_insert_ne.
  - apply Kept. unfold onSocketTimeout.
    now destruct (dials st !! id) as [[c hostPort] |].
  - apply Kept. now rewrite onSocketError_silent.
  - apply Kept. unfold onSocketData. now destruct (streams st !! id).
  - unfold onSocketClose.
    destruct (streams st !! id) as [c |]; [| now apply Kept].
    cbv zeta. cbn [sockets set_streams].
    destruct (sockets st !! c) as [m |] eqn:Hm; [| now apply Kept].
    destruct (decide (c = conn)) as [-> | Hne].
    + apply (Removed _ _ _ m id); [exact Hm |]. cbn. apply lookup_insert_eq.
    + apply Kept. cbn. now rewrite lookup_insert_ne.
  - apply Kept. unfold onWriteCallback. now destruct (bool_decide _).
  - apply Kept. unfold onConnClose.
    destruct (sockets st !! c); [| reflexivity].
    apply closeAll_other. congruence.
Qed.

Lemma exec_sockets ev st :
  sockets (exec JSON_parse credentials st ev)
  = sockets (fst (step JSON_parse credentials ev st)).
Proof.
  unfold exec. now destruct (step JSON_parse credentials ev st) as [st' [| e]].
Qed.

(** ** The close listener of a connection *)

Lemma exec_all_open ev conn st :
  ev <> ConnClosed conn ->
  all_open conn st -> all_open conn (exec JSON_parse credentials st ev).
Proof.
  intros Hev Hopen m id sc. rewrite exec_sockets.
  destruct (step_change ev conn st Hev) as [H | H | m0 id0 hp Hm Hd H | m0 id0 Hm H];
    rewrite H.
  - apply Hopen.
  - intros [= <-]. now rewrite lookup_empty.
  - intros [= <-]. destruct (decide (id0 = id)) as [-> | Hne].
    + rewrite lookup_insert_eq. now intros [= <-].
    + rewrite lookup_insert_ne by assumption. now apply Hopen.
  - intros [= <-] Hid. apply lookup_delete_Some_inv in Hid. now apply (Hopen m0).
Qed.

Lemma run_all_open evs conn st :
  ConnClosed conn ∉ evs ->
  all_open conn st -> all_open conn (run JSON_parse credentials evs st).
Proof.
  revert st. induction evs as [| ev evs IH]; intros st Hnot Hopen; simpl.
  - exact Hopen.
  - apply IH.
    + intros Hin. apply Hnot. now right.
    + apply exec_all_open; [| exact Hopen]. intros ->. apply Hnot. now left.
Qed.

Lemma closeAll_ends conn open m st :
  sockets st !! conn = Some m ->
  (forall id sc, (id, sc) ∈ open -> socket sc = Some id) ->
  exists st' m',
    closeAll conn open st = (st', Normal)
    /\ effects st' = effects st ++ map SocketEnd (map fst open)
    /\ sockets st' !! conn = Some m'
    /\ (forall id, id ∉ map fst open -> m' !! id = m !! id)
    /\ (forall id, id ∈ map fst open ->
          exists sc', m' !! id = Some sc' /\ socket sc' = None).
Proof.
  revert m st. induction open as [| [id sc] rest IH]; intros m st Hm Hopen;
    cbn [closeAll].
  - exists st, m. split; [reflexivity |]. split; [simpl; now rewrite app_nil_r |].
    split; [exact Hm |]. split; [reflexivity |].
    intros id Hin. simpl in Hin. now apply elem_of_nil in Hin.
  - rewrite (Hopen id sc) by now left. cbv zeta. cbn [sockets emit].
    rewrite Hm.
    set (closed := {| target := target sc; socket := None |}).
    destruct (IH (<[id := closed]> m)
                (set_sockets (<[conn := <[id := closed]> m]> (sockets st))
                   (emit (SocketEnd id) st)))
      as (st' & m' & Hrun & Heff & Hm' & Hout & Hin).
    { cbn. apply lookup_insert_eq. }
    { intros id' sc' H. apply Hopen. now right. }
    exists st', m'. split; [exact Hrun |]. split.
    { rewrite Heff. cbn. now rewrite <- app_assoc. }
    split; [exact Hm' |]. split.
    + intros id' Hnot. simpl in Hnot. rewrite not_elem_of_cons in Hnot.
      destruct Hnot as [Hne Hnot]. rewrite (Hout id' Hnot).
      now rewrite lookup_insert_ne.
    + intros id' Hin'. simpl in Hin'. rewrite elem_of_cons in Hin'.
      destruct (decide (id' ∈ map fst rest)) as [Hr | Hr]; [now apply Hin |].
      destruct Hin' as [-> | Hin']; [| contradiction].
      exists closed. rewrite (Hout id Hr), lookup_insert_eq. now split.
Qed.

End Changes.

(** X3.  When a WebSocket connection closes and its [close] listener
    runs for the first time, with no other callback between the turns
    of its loop, every target socket of its mapping is ended, each
    once, nothing else is done, no [close()] throws, and every entry is
    left without a socket. *)
Theorem close_ends_every_socket
    (JSON_parse : string -> Parsed) (credentials : option (gmap string ICredential))
    (evs : list Event) (conn : string)
    (connections : gmap string SocketConnection) (st : State) :
  st = run JSON_parse credentials evs initial ->
  ConnClosed conn ∉ evs ->
  sockets st !! conn = Some connections ->
  exists st' ends connections',
    onConnClose conn st = (st', Normal)
    /\ effects st' = effects st ++ map SocketEnd ends
    /\ NoDup ends
    /\ (forall id, id ∈ ends <-> is_Some (connections !! id))
    /\ sockets st' !! conn = Some connections'
    /\ (forall id, is_Some (connections !! id) ->
          exists closed, connections' !! id = Some closed /\ socket closed = None).
Proof.
  intros -> Hnot Hm.
  set (st := run JSON_parse credentials evs initial) in *.
  assert (Hopen : all_open conn st).
  { apply run_all_open; [exact Hnot |].
    intros m id sc H. simpl in H. rewrite lookup_empty in H. discriminate. }
  assert (Hkeys : forall id, id ∈ map fst (map_to_list connections)
                             <-> is_Some (connections !! id)).
  { intros id. rewrite list_elem_of_fmap. split.
    - intros ([id' sc] & -> & Hin). apply elem_of_map_to_list in Hin. eauto.
    - intros [sc Hsc]. exists (id, sc). split; [reflexivity |].
      now apply elem_of_map_to_list. }
  destruct (closeAll_ends conn (map_to_list connections) connections st Hm)
    as (st' & m' & Hrun & Heff & Hm' & _ & Hin).
  { intros id sc H. apply elem_of_map_to_list in H. exact (Hopen _ _ _ Hm H). }
  exists st', (map fst (map_to_list connections)), m'.
  unfold onConnClose. rewrite Hm.
  split; [exact Hrun |]. split; [exact Heff |].
  split; [apply NoDup_fst_map_to_list |]. split; [exact Hkeys |].
  split; [exact Hm' |].
  intros id Hid. apply Hin. now apply Hkeys.
Qed.


Section Exclusive.
Variable JSON_parse : string -> Parsed.
Variable credentials : option (gmap string ICredential).

Lemma closeAll_tracks conn' open m st conn id :
  sockets st !! conn' = Some m ->
  (forall id' sc, (id', sc) ∈ open -> is_Some (m !! id')) ->
  tracks (fst (closeAll conn' open st)) conn id -> tracks st conn id.
Proof.
  revert m st. induction open as [| [id' sc] rest IH]; intros m st Hm Hin;
    cbn [closeAll].
  - auto.
  - destruct (socket sc) as [sock |]; [| auto].
    cbv zeta. cbn [sockets emit]. rewrite Hm.
    set (closed := {| target := target sc; socket := None |}).
    intros H. apply (IH (<[id' := closed]> m)) in H.
    + destruct H as (m' & Hm' & Hid). cbn in Hm'.
      destruct (decide (conn' = conn)) as [-> | Hne].
      * rewrite lookup_insert_eq in Hm'. injection Hm' as <-.
        exists m. split; [exact Hm |].
        destruct (decide (id' = id)) as [-> | Hne'].
        -- apply (Hin id sc). now left.
        -- now rewrite lookup_insert_ne in Hid.
      * rewrite lookup_insert_ne in Hm' by assumption. now exists m'.
    + cbn. apply lookup_insert_eq.
    + intros id'' sc' H'. apply lookup_insert_is_Some'. right.
      apply (Hin id'' sc'). now right.
Qed.

(** An entry of a mapping was there before, or its dial was pending. *)
Lemma exec_tracks ev st conn id :
  tracks (exec JSON_parse credentials st ev) conn id ->
  tracks st conn id \/ exists hostPort, dials st !! id = Some (conn, hostPort).
Proof.
  unfold tracks at 1. rewrite exec_sockets.
  intros (m' & Hm' & Hid).
  assert (Hdec : ev = ConnClosed conn \/ ev <> ConnClosed conn).
  { destruct ev as [| | | | | | | c]; try (right; discriminate).
    destruct (decide (c = conn)) as [-> | Hc]; [now left | right; congruence]. }
  destruct Hdec as [-> | Hev].
  - left. cbn [step] in Hm'. unfold onConnClose in Hm'.
    destruct (sockets st !! conn) as [m |] eqn:Hm.
    + apply (closeAll_tracks conn (map_to_list m) m st); [exact Hm | |].
      * intros id' sc H. apply elem_of_map_to_list in H. eauto.
      * now exists m'.
    + cbn in Hm'. congruence.
  - destruct (step_change JSON_parse credentials ev conn st Hev)
      as [H | H | m0 id0 hp Hm Hd H | m0 id0 Hm H]; rewrite H in Hm'.
    + left. now exists m'.
    + injection Hm' as <-. rewrite lookup_empty in Hid. now destruct Hid.
    + injection Hm' as <-. destruct (decide (id0 = id)) as [-> | Hne].
      * right. eauto.
      * left. exists m0. split; [exact Hm |]. now rewrite lookup_insert_ne in Hid.
    + injection Hm' as <-. left. exists m0. split; [exact Hm |].
      destruct Hid as [sc Hsc]. apply lookup_delete_Some_inv in Hsc. eauto.
Qed.

Lemma exec_exclusive used ev st :
  accounted used st -> exclusive st ->
  exclusive (exec JSON_parse credentials st ev).
Proof.
  intros Hacc Hex conn1 conn2 id H1 H2.
  apply exec_tracks in H1, H2.
  destruct H1 as [(m1 & Hm1 & [sc1 Hsc1]) | [hp1 Hd1]],
           H2 as [(m2 & Hm2 & [sc2 Hsc2]) | [hp2 Hd2]].
  - apply (Hex conn1 conn2 id); [exists m1 | exists m2]; eauto.
  - destruct (entry_drawn _ _ Hacc conn1 m1 id sc1 Hm1 Hsc1) as [_ Hnone].
    congruence.
  - destruct (entry_drawn _ _ Hacc conn2 m2 id sc2 Hm2 Hsc2) as [_ Hnone].
    congruence.
  - congruence.
Qed.

Lemma run_exclusive evs used st :
  NoDup (uuids evs ++ used) ->
  accounted used st -> exclusive st ->
  exclusive (run JSON_parse credentials evs st).
Proof.
  revert used st. induction evs as [| ev evs IH]; intros used st Hnodup Hacc Hex.
  - exact Hex.
  - assert (Hsplit : uuids (ev :: evs) = uuids [ev] ++ uuids evs).
    { unfold uuids. simpl. now destruct (uuid_of ev). }
    change (run JSON_parse credentials (ev :: evs) st)
      with (run JSON_parse credentials evs (exec JSON_parse credentials st ev)).
    rewrite Hsplit, <- app_assoc in Hnodup.
    apply NoDup_app in Hnodup as (Hev & Hdisj & Hrest).
    apply (IH (uuids [ev] ++ used)).
    + apply NoDup_app in Hrest as (Hevs & Hdisj' & Hused).
      apply NoDup_app. split; [exact Hevs |]. split.
      * intros x Hx Hin. apply elem_of_app in Hin as [Hin | Hin].
        -- apply (Hdisj x Hin). apply elem_of_app. now left.
        -- now apply (Hdisj' x Hx).
      * apply NoDup_app. split; [exact Hev |]. split; [| exact Hused].
        intros x Hx Hin. apply (Hdisj x Hx). apply elem_of_app. now right.
    + apply exec_accounted; [| exact Hacc].
      intros uuid Hu Hin. apply (Hdisj uuid).
      * unfold uuids. simpl. rewrite Hu. now left.
      * apply elem_of_app. now right.
    + now apply (exec_exclusive used).
Qed.

End Exclusive.

(** X4.  With distinct UUIDs, the sessions of the relay are isolated: a
    logical id that one session tracks is in no other session's
    mapping, so a TRAFFIC frame that names it on another session is
    answered INVALIDID and writes nothing to the target socket. *)
Theorem traffic_cannot_cross_sessions
    (JSON_parse : string -> Parsed) (credentials : option (gmap string ICredential))
    (evs : list Event) (owner conn id : string) (body : Body) (st : State) :
  st = run JSON_parse credentials evs initial ->
  NoDup (uuids evs) ->
  tracks st owner id ->
  conn <> owner ->
  is_Some (sockets st !! conn) ->
  id <> EmptyString ->
  body_id body = Some id ->
  onTraffic conn body st
  = (sendJSON conn
       (reply (Some "TRAFFIC") None (Some id) (Some "INVALIDID") None None) st,
     Normal).
Proof.
  intros -> Hnodup Howner Hne [m Hm] Hid Hbody.
  set (st := run JSON_parse credentials evs initial) in *.
  assert (Hinit : accounted [] initial).
  { split; simpl; intros *; rewrite lookup_empty; discriminate. }
  assert (Hex : exclusive st).
  { apply (run_exclusive JSON_parse credentials evs []).
    - now rewrite app_nil_r.
    - exact Hinit.
    - intros c1 c2 i (m1 & H1 & _). simpl in H1. rewrite lookup_empty in H1.
      discriminate. }
  assert (Hnone : m !! id = None).
  { destruct (m !! id) as [sc |] eqn:Hsc; [| reflexivity].
    exfalso. apply Hne. apply (Hex conn owner id); [| exact Howner].
    exists m. eauto. }
  assert (Hgenuine : inherited id = false).
  { destruct Howner as (connections & Hconnections & [socketConnection Hentry]).
    exact (entry_genuine _ (reachable_genuine JSON_parse credentials evs)
             owner connections id socketConnection Hconnections Hentry). }
  unfold onTraffic. rewrite Hbody. simpl.
  destruct (String.eqb_spec id EmptyString) as [-> | _]; [contradiction |].
  simpl. rewrite Hm. simpl. unfold get. rewrite ?Hm, Hnone, Hgenuine. reflexivity.
Qed.

End RelayIsolation.

(* ===================================================================== *)
(** * The order of the relay's frames *)
(* ===================================================================== *)

Module RelayOrder.
Import Wire Server Invariants Acl RelayLog ServerFacts RelayFacts.

Lemma ordered_snoc log e :
  ordered log -> announces log e -> ordered (log ++ [e]).
Proof.
  intros Hlog He before x after Heq.
  destruct after as [| a after _] using rev_ind.
  - apply app_inj_tail in Heq as [-> ->]. exact He.
  - change (before ++ x :: after ++ [a]) with (before ++ (x :: after) ++ [a]) in Heq.
    rewrite app_assoc in Heq. apply app_inj_tail in Heq as [-> _].
    now apply (Hlog before x after).
Qed.

Lemma announces_more log more e : announces log e -> announces (log ++ more) e.
Proof.
  intros H conn body id He Hc Hid. apply elem_of_app. left. now apply (H conn body id).
Qed.

Lemma ordered_app log added :
  ordered log -> Forall (announces log) added -> ordered (log ++ added).
Proof.
  revert log. induction added as [| e added IH]; intros log Hlog Hall.
  - now rewrite app_nil_r.
  - change (log ++ e :: added) with (log ++ [e] ++ added). rewrite app_assoc.
    inversion Hall as [| ? ? He Hrest]; subst.
    apply IH.
    + now apply ordered_snoc.
    + eapply Forall_impl; [exact Hrest |]. intros x Hx. now apply announces_more.
Qed.

(** A callback that appends [added] to the log, each status or data
    frame of it announced before the callback ran, and that adds only
    announced ids to the pending dials and the listening sockets. *)
Lemma announced_step st st' added :
  announced st ->
  effects st' = effects st ++ added ->
  Forall (announces (effects st)) added ->
  (forall id conn hostPort, dials st' !! id = Some (conn, hostPort) ->
     dials st !! id = Some (conn, hostPort)
     \/ SendJSON conn (connecting id) ∈ effects st') ->
  (forall id conn, streams st' !! id = Some conn ->
     streams st !! id = Some conn
     \/ SendJSON conn (connecting id) ∈ effects st') ->
  announced st'.
Proof.
  intros [Hd Hs Ho] Heff Hall Hd' Hs'. split.
  - intros id conn hp H. destruct (Hd' id conn hp H) as [H' | H']; [| exact H'].
    rewrite Heff. apply elem_of_app. left. now apply (Hd id conn hp).
  - intros id conn H. destruct (Hs' id conn H) as [H' | H']; [| exact H'].
    rewrite Heff. apply elem_of_app. left. now apply Hs.
  - rewrite Heff. now apply ordered_app.
Qed.

Lemma solicited log conn body :
  is_Some (body_command body) -> announces log (SendJSON conn body).
Proof. intros [c Hc] conn' body' id [= <- <-] Hnone. congruence. Qed.

Lemma is_str_Some v s : is_str v s = true -> v = Some s.
Proof.
  destruct v as [s' |]; simpl; [| discriminate].
  intros H. apply String.eqb_eq in H. now subst.
Qed.

Section Order.
Variable JSON_parse : string -> Parsed.
Variable credentials : option (gmap string ICredential).

Local Ltac quiet added :=
  apply (announced_step _ _ added); [assumption | cbn; rewrite ?app_nil_r; try reflexivity | | cbn; auto | cbn; auto].

Lemma closeAll_log conn open st :
  exists ends,
    effects (fst (closeAll conn open st)) = effects st ++ map SocketEnd ends
    /\ dials (fst (closeAll conn open st)) = dials st
    /\ streams (fst (closeAll conn open st)) = streams st.
Proof.
  revert st. induction open as [| [id sc] rest IH]; intros st; cbn [closeAll].
  - exists []. simpl. now rewrite app_nil_r.
  - destruct (socket sc) as [sock |].
    2: { exists []. simpl. now rewrite app_nil_r. }
    cbv zeta.
    match goal with
    | |- context [closeAll conn rest ?s] => destruct (IH s) as (ends & He & Hd & Hs)
    end.
    exists (sock :: ends). rewrite He, Hd, Hs.
    destruct (sockets (emit (SocketEnd sock) st) !! conn); cbn;
      now rewrite <- app_assoc.
Qed.

Lemma step_announced ev st :
  announced st -> announced (fst (step JSON_parse credentials ev st)).
Proof.
  intros Hst. destruct ev as [c message uuid | id | id | id | id data
                             | id hadError | c id err | c]; cbn [step].
  - destruct (inherited uuid); [exact Hst |].
    unfold onMessage. destruct message as [utf8Data | binaryData]; [| exact Hst].
    destruct (JSON_parse utf8Data) as [| | body]; try exact Hst.
    destruct (is_str (body_type body) "CONNECT") eqn:Hconnect.
    { unfold onConnect.
      destruct (isAuthenticated credentials body); cbn [negb fst].
      - apply (announced_step st _
                 [SendJSON c (reply (Some "CONNECT") None None None None None)]);
          [exact Hst | | | |];
          try (destruct (truthy (body_passphrase body)); cbn; now auto).
        repeat constructor. apply solicited. cbn. eauto.
      - apply (announced_step st _
                 [SendJSON c (reply (Some "CONNECT") None None (Some "AUTHFAIL")
                                None None)]);
          [exact Hst | reflexivity | | cbn; auto | cbn; auto].
        repeat constructor. apply solicited. cbn. eauto. }
    destruct (is_str (body_type body) "START") eqn:Hstart.
    { apply is_str_Some in Hstart. unfold onStart. rewrite Hstart.
      destruct (sockets st !! c).
      2: { apply (announced_step st _
                    [SendJSON c (reply (Some "START") None None (Some "AUTHFAIL")
                                   None None)]);
             [exact Hst | reflexivity | | cbn; auto | cbn; auto].
           repeat constructor. apply solicited. cbn. eauto. }
      destruct (authorize credentials (passphrases st !! c) (fromBody body))
        as [| error | e]; cbn [fst].
      - destruct (dialable (fromBody body)); cbn [fst].
        + apply (announced_step st _
                   [SendJSON c (connecting uuid); NetConnect uuid (fromBody body)]);
            [exact Hst | cbn; now rewrite <- app_assoc | | | cbn; auto].
          * repeat constructor.
            -- apply solicited. cbn. eauto.
            -- intros ? ? ? [=].
          * intros id conn hp. cbn.
            destruct (decide (uuid = id)) as [-> | Hne].
            -- rewrite lookup_insert_eq. intros [= <- <-]. right.
               rewrite !elem_of_app. left. right. now left.
            -- rewrite lookup_insert_ne by assumption. auto.
        + apply (announced_step (sendJSON c (connecting uuid) st) _
                   [SendJSON c (reply None (Some "FAILED") (Some uuid)
                                  None None None)]);
            [| reflexivity | | cbn; auto | cbn; auto].
          * apply (announced_step st _ [SendJSON c (connecting uuid)]);
              [exact Hst | reflexivity | | cbn; auto | cbn; auto].
            repeat constructor. apply solicited. cbn. eauto.
          * repeat constructor. intros ? ? ? [= <- <-] _ [= <-].
            cbn. apply elem_of_app. right. now left.
      - apply (announced_step st _
                 [SendJSON c (reply (Some "START") None None (Some error)
                                None None)]);
          [exact Hst | reflexivity | | cbn; auto | cbn; auto].
        repeat constructor. apply solicited. cbn. eauto.
      - exact Hst. }
    destruct (is_str (body_type body) "TRAFFIC") eqn:Htraffic.
    2: { apply (announced_step st _
                  [SendJSON c (reply (if truthy (body_type body) then body_type body
                                      else Some "UNKNOWN")
                                 None None (Some "NOTIMPLEMENTED") None None)]);
           [exact Hst | reflexivity | | cbn; auto | cbn; auto].
         repeat constructor. apply solicited. cbn.
         destruct (body_type body) as [t |]; cbn; [| eauto].
         destruct (negb (String.eqb t EmptyString)); eauto. }
    apply is_str_Some in Htraffic. unfold onTraffic. rewrite Htraffic.
    repeat match goal with
           | |- context [match ?x with _ => _ end] => destruct x eqn:?
           | |- context [if ?x then _ else _] => destruct x eqn:?
           end;
      (eapply (announced_step st _ _ Hst);
       [ cbn; first [ symmetry; apply app_nil_r
                    | rewrite <- ?app_assoc; reflexivity ]
       | repeat constructor;
         first [ apply solicited; cbn; eauto | intros ? ? ? [=] ]
       | cbn; auto | cbn; auto ]).
  - unfold onSocketConnect.
    destruct (dials st !! id) as [[c hostPort] |] eqn:Hd; [| exact Hst].
    cbv zeta. cbn [sockets set_streams sendJSON emit set_dials].
    assert (Hann : forall status error,
               announces (effects st)
                 (SendJSON c (reply None status (Some id) error None None))).
    { intros status error ? ? ? [= <- <-] _ [= <-].
      apply (dial_announced _ Hst id c hostPort Hd). }
    destruct (sockets st !! c) as [m |];
      (eapply (announced_step st _ _ Hst);
       [ cbn; rewrite <- ?app_assoc; reflexivity
       | repeat constructor; apply Hann
       | cbn; intros id' conn hp H; left; now apply lookup_delete_Some_inv in H
       | cbn; intros id' conn;
         destruct (decide (id = id')) as [<- | Hne];
         [ rewrite lookup_insert_eq; intros [= <-]; right;
           rewrite ?elem_of_app; repeat left;
           apply (dial_announced _ Hst id c hostPort Hd)
         | rewrite lookup_insert_ne by assumption; auto ] ]).
  - unfold onSocketTimeout.
    destruct (dials st !! id) as [[c hostPort] |] eqn:Hd; [| exact Hst].
    eapply (announced_step st _ _ Hst);
      [ cbn; reflexivity | repeat constructor
      | cbn; intros id' conn hp H; left; now apply lookup_delete_Some_inv in H
      | cbn; auto ].
    intros ? ? ? [= <- <-] _ [= <-].
    apply (dial_announced _ Hst id c hostPort Hd).
  - now rewrite onSocketError_silent.
  - unfold onSocketData. destruct (streams st !! id) as [c |] eqn:Hs; [| exact Hst].
    eapply (announced_step st _ _ Hst);
      [ cbn; reflexivity | repeat constructor | cbn; auto | cbn; auto ].
    intros ? ? ? [= <- <-] _ [= <-]. apply (stream_announced _ Hst id c Hs).
  - unfold onSocketClose. destruct (streams st !! id) as [c |] eqn:Hs; [| exact Hst].
    cbv zeta. cbn [sockets set_streams].
    destruct (sockets st !! c) as [m |].
    + eapply (announced_step st _ _ Hst);
        [ cbn; rewrite <- ?app_assoc; reflexivity | repeat constructor
        | cbn; auto
        | cbn; intros id' conn H; left; now apply lookup_delete_Some_inv in H ].
      * intros ? ? ? [= <- <-] _ [= <-]. apply (stream_announced _ Hst id c Hs).
      * intros ? ? ? [=].
    + eapply (announced_step st _ [] Hst);
        [ cbn; now rewrite app_nil_r | constructor | cbn; auto
        | cbn; intros id' conn H; left; now apply lookup_delete_Some_inv in H ].
  - unfold onWriteCallback. destruct (bool_decide _); [| exact Hst]. cbn [fst].
    apply (announced_step st _
             [SendJSON c (reply (Some "TRAFFIC") None (Some id) err None None)]);
      [exact Hst | reflexivity | | cbn; auto | cbn; auto].
    repeat constructor. apply solicited. cbn. eauto.
  - unfold onConnClose. destruct (sockets st !! c); [| exact Hst].
    destruct (closeAll_log c (map_to_list g) st) as (ends & He & Hd & Hs).
    apply (announced_step st _ (map SocketEnd ends));
      [exact Hst | exact He | | rewrite Hd; auto | rewrite Hs; auto].
    apply Forall_forall. intros e Hin. apply list_elem_of_fmap in Hin as (s & -> & _).
    intros ? ? ? [=].
Qed.

Lemma run_announced evs st :
  announced st -> announced (run JSON_parse credentials evs st).
Proof.
  revert st. induction evs as [| ev evs IH]; intros st Hst; simpl.
  - exact Hst.
  - apply IH. pose proof (step_announced ev st Hst) as H. unfold exec.
    destruct (step JSON_parse credentials ev st) as [st' [| e]]; cbn [fst] in H.
    + exact H.
    + apply (announced_step st' _ [Unhandled e] H);
        [reflexivity | | cbn; auto | cbn; auto].
      repeat constructor. intros ? ? ? [=].
Qed.

End Order.

(** X5.  The relay never sends a status or a chunk of data for a
    logical connection before it announced that connection: every
    frame without a command that names a connection id (ESTABLISHED,
    FAILED, CLOSED, data) comes after the CONNECTING reply for the same
    id on the same WebSocket connection.  So the data of a target
    socket only reaches the session that started its connection. *)
Theorem frames_follow_connecting
    (JSON_parse : string -> Parsed) (credentials : option (gmap string ICredential))
    (evs : list Event) (before after : list Effect)
    (conn id : string) (body : Body) :
  effects (run JSON_parse credentials evs initial)
  = before ++ SendJSON conn body :: after ->
  body_command body = None ->
  body_connection body = Some id ->
  SendJSON conn (connecting id) ∈ before.
Proof.
  intros Hlog Hcommand Hid.
  assert (Hinit : announced initial).
  { split; simpl.
    - intros *. rewrite lookup_empty. discriminate.
    - intros *. rewrite lookup_empty. discriminate.
    - intros b e a H. now destruct b. }
  pose proof (log_ordered _ (run_announced JSON_parse credentials evs initial Hinit))
    as Hord.
  exact (Hord before _ after Hlog conn body id eq_refl Hcommand Hid).
Qed.

End RelayOrder.

(* ===================================================================== *)
(** * The client keeps the order of the bytes *)
(* ===================================================================== *)

Module PipelineFacts.
Import Wire Client Pipeline.

Lemma sent_snoc log e :
  sent (log ++ [e]) = sent log ++ match traffic e with Some d => [d] | None => [] end.
Proof. unfold sent. rewrite omap_app. simpl. now destruct (traffic e). Qed.

Lemma written_snoc log e :
  written (log ++ [e])
  = written log ++ match e with SocketWrite _ data => [data] | _ => [] end.
Proof. unfold written. rewrite omap_app. now destruct e. Qed.

Lemma flush_same socket queue s :
  lock (flush socket queue s) = lock s
  /\ waiting (flush socket queue s) = waiting s
  /\ wsConnection (flush socket queue s) = wsConnection s
  /\ isConnected (flush socket queue s) = isConnected s
  /\ links (flush socket queue s) = links s
  /\ sent (effects (flush socket queue s)) = sent (effects s).
Proof.
  revert s. induction queue as [| buffer rest IH]; intros s; cbn [flush].
  - repeat split.
  - destruct (IH (emit (SocketWrite socket buffer) (set_buffers rest s)))
      as (-> & -> & -> & -> & -> & ->).
    cbn. rewrite sent_snoc. cbn. rewrite app_nil_r. repeat split.
Qed.

Section Run.
Variable JSON_parse : string -> Parsed.
Variable passphrase : option string.
Variable host : string.
Variable port : option Z.

Local Abbreviation exec := (Client.exec JSON_parse passphrase host port).
Local Abbreviation step := (Client.step JSON_parse passphrase host port).
Local Abbreviation run := (Client.run JSON_parse passphrase host port).

Local Ltac crush :=
  cbn [fst lock waiting wsConnection isConnected links effects buffers client
       exited accepted clients connectionId
       emit sendJSON panic fatal set_connectionId set_wsConnection
       set_isConnected set_buffers set_client set_lock set_waiting
       set_clients set_links set_accepted set_exited];
  rewrite ?sent_snoc; cbn [traffic is_str body_type body_data request reply
                           String.eqb Ascii.eqb Bool.eqb];
  rewrite ?app_nil_r.

Lemma alike_pipeline s s' :
  alike s s' -> wired s -> pipeline s' = pipeline s /\ wired s'.
Proof.
  intros (Hl & Hq & Hc & Hf & Hk & Hs) [H1 H2 H3 H4]. split.
  - unfold pipeline, pending. now rewrite Hl, Hq, Hs.
  - split; rewrite ?Hl, ?Hq, ?Hc, ?Hf, ?Hk; assumption.
Qed.

Lemma alike_trans s1 s2 s3 : alike s1 s2 -> alike s2 s3 -> alike s1 s3.
Proof.
  unfold alike. intros (? & ? & ? & ? & ? & ?) (? & ? & ? & ? & ? & ?).
  repeat split; congruence.
Qed.

Local Ltac alike := unfold alike; crush; repeat split.

Lemma onCommand_alike k body s : alike s (onCommand host port k body s).
Proof.
  unfold onCommand.
  repeat match goal with
         | |- context [if ?x then _ else _] => destruct x
         end; alike.
Qed.

Lemma onConnection_alike body s : alike s (fst (onConnection body s)).
Proof.
  unfold onConnection.
  repeat match goal with
         | |- context [if ?x then _ else _] => destruct x
         | |- context [match client s with _ => _ end] => destruct (client s)
         end; alike.
Qed.

Lemma release_pipeline s kind pc :
  lock s = Some (kind, pc) ->
  pending s = chunk_of kind ++ pending (release s).
Proof.
  intros Hlock. unfold pending, release. rewrite Hlock.
  destruct (waiting s) as [| next rest] eqn:Hq; simpl; rewrite ?Hq; simpl;
    rewrite ?app_nil_r; reflexivity.
Qed.

Lemma release_wired s :
  wired s ->
  (is_Some (wsConnection s) -> wired (set_isConnected true (release s)))
  /\ wired (release s).
Proof.
  intros [H1 H2 H3 H4]. unfold release.
  destruct (waiting s) as [| next rest] eqn:Hq; split; try intros Hc;
    split; crush; try assumption; try discriminate; auto;
    try (intros ? [=]).
Qed.

Lemma forward_pipeline data s :
  wired (release s) -> is_Some (wsConnection s) ->
  sent (effects (forward data (release s)))
  = sent (effects s) ++ [Base64.encode data]
  /\ pending (forward data (release s)) = pending (release s)
  /\ wired (forward data (release s)).
Proof.
  intros Hw [k Hk]. unfold forward.
  assert (Hc : wsConnection (release s) = Some k).
  { unfold release. destruct (waiting s); exact Hk. }
  assert (He : effects (release s) = effects s).
  { unfold release. now destruct (waiting s). }
  rewrite Hc. crush. rewrite He. split; [reflexivity |]. split; [reflexivity |].
  destruct Hw as [H1 H2 H3 H4]. split; assumption.
Qed.

Lemma startConnection_pipeline kind pc s :
  wired s -> lock s = Some (kind, pc) ->
  pipeline (startConnection kind s) = pipeline s
  /\ wired (startConnection kind s).
Proof.
  intros [H1 H2 H3 H4] Hlock. unfold startConnection. split.
  - unfold pipeline, pending. crush. now rewrite Hlock.
  - split; crush; try assumption; try discriminate.
    intros k. destruct (decide (clients s = k)) as [<- | Hne].
    + rewrite lookup_insert_eq. discriminate.
    + rewrite lookup_insert_ne by assumption. apply H3.
Qed.

Lemma onResume_pipeline s :
  wired s ->
  pipeline (fst (onResume s)) = pipeline s /\ wired (fst (onResume s)).
Proof.
  intros Hw. unfold onResume.
  destruct (lock s) as [[[| data] [| k |]] |] eqn:Hlock; cbn [fst]; auto.
  - now apply (startConnection_pipeline Startup Acquired).
  - destruct (release_wired s Hw) as [Hr _].
    specialize (Hr (wired_resolved s Hw _ Hlock)). split; [| exact Hr].
    unfold pipeline. rewrite (release_pipeline s _ _ Hlock).
    unfold release. destruct (waiting s); reflexivity.
  - destruct (isConnected s) eqn:Hflag; cbn [negb fst].
    + destruct (release_wired s Hw) as [_ Hr].
      destruct (forward_pipeline data s Hr (wired_flag s Hw Hflag))
        as (Hs & Hp & Hw').
      split; [| exact Hw'].
      unfold pipeline. rewrite Hs, Hp, (release_pipeline s _ _ Hlock).
      cbn. now rewrite <- app_assoc.
    + now apply (startConnection_pipeline (Forward data) Acquired).
  - destruct (release_wired s Hw) as [_ Hr].
    destruct (forward_pipeline data s Hr (wired_resolved s Hw _ Hlock))
      as (Hs & Hp & Hw').
    split; [| exact Hw'].
    unfold pipeline. rewrite Hs, Hp, (release_pipeline s _ _ Hlock).
    cbn. now rewrite <- app_assoc.
Qed.

Lemma onLocalData_pipeline socket data s :
  wired s ->
  pipeline (fst (onLocalData socket data s))
  = pipeline s
    ++ map Base64.encode (if bool_decide (socket ∈ accepted s) then [data] else [])
  /\ wired (fst (onLocalData socket data s)).
Proof.
  intros Hw. unfold onLocalData.
  destruct (bool_decide (socket ∈ accepted s)); cbn [fst map].
  2: { now rewrite app_nil_r. }
  destruct (lock s) as [[kind pc] |] eqn:Hlock; cbn [fst].
  - split.
    + unfold pipeline, pending. crush. rewrite Hlock, flat_map_app. cbn.
      rewrite ?app_nil_r, ?map_app, ?app_assoc. reflexivity.
    + destruct Hw as [H1 H2 H3 H4]. split; crush; try assumption.
      rewrite Hlock. discriminate.
  - split.
    + unfold pipeline, pending. crush. rewrite Hlock.
      rewrite (wired_queue s Hw Hlock). cbn. now rewrite app_nil_r.
    + destruct Hw as [H1 H2 H3 H4]. split; crush; try assumption;
        try discriminate; try (intros ? [=]).
Qed.

Lemma onEstablished_pipeline k body s :
  wired s -> links s !! k = Some Open ->
  pipeline (onEstablished k body s) = pipeline s
  /\ wired (onEstablished k body s).
Proof.
  intros Hw Hopen. unfold onEstablished.
  destruct (is_str (body_status body) "ESTABLISHED"); [| auto].
  destruct (lock s) as [[kind [| k' |]] |] eqn:Hlock; auto.
  destruct (Nat.eqb k k'); [| auto]. split.
  - unfold pipeline, pending. crush. now rewrite Hlock.
  - pose proof (wired_open s Hw k Hopen) as Hc.
    destruct Hw as [H1 H2 H3 H4]. split; crush; try assumption;
      try discriminate. auto.
Qed.

Lemma onMessage_pipeline k message s :
  wired s -> links s !! k = Some Open ->
  pipeline (fst (Client.onMessage JSON_parse host port k message s)) = pipeline s
  /\ wired (fst (Client.onMessage JSON_parse host port k message s)).
Proof.
  intros Hw Hopen. unfold Client.onMessage.
  destruct message as [utf8Data | binaryData]; [| auto].
  destruct (JSON_parse utf8Data) as [| | body]; auto.
  pose proof (onCommand_alike k body s) as Ha1.
  set (s1 := onCommand host port k body s) in *.
  destruct (exited s1); [now apply alike_pipeline |].
  pose proof (onConnection_alike body s1) as Ha2.
  destruct (onConnection body s1) as [s2 [| e]]; cbn [fst] in *.
  - pose proof (alike_trans _ _ _ Ha1 Ha2) as Ha.
    destruct (alike_pipeline s s2 Ha Hw) as [Hp Hw2].
    destruct (exited s2); [now split |]. cbn [fst].
    destruct (onEstablished_pipeline k body s2 Hw2) as [Hp' Hw'].
    { destruct Ha as (_ & _ & _ & _ & -> & _). exact Hopen. }
    split; [congruence | exact Hw'].
  - apply alike_pipeline; [| exact Hw]. now apply (alike_trans _ s1).
Qed.

Lemma step_pipeline ev s :
  wired s ->
  pipeline (fst (step ev s)) = pipeline s ++ map Base64.encode (arrival ev s)
  /\ wired (fst (step ev s)).
Proof.
  intros Hw. unfold Client.step, arrival.
  destruct (exited s); cbn [negb andb fst].
  { split; [| exact Hw]. destruct ev; cbn; now rewrite app_nil_r. }
  destruct ev as [socket | socket data | socket | | k | k | k message | k];
    cbn [map]; rewrite ?app_nil_r.
  - apply alike_pipeline; [| exact Hw]. unfold onLocalConnection.
    cbn [client set_accepted].
    destruct (client s); cbn [fst]; [alike |].
    match goal with
    | |- alike s (flush ?a ?b ?c) =>
        pose proof (flush_same a b c) as (E1 & E2 & E3 & E4 & E5 & E6)
    end.
    unfold alike. rewrite E1, E2, E3, E4, E5, E6. crush. repeat split.
  - now apply onLocalData_pipeline.
  - apply alike_pipeline; [| exact Hw]. unfold onLocalClose.
    destruct (bool_decide _); cbn [fst wsConnection set_accepted]; [| alike].
    destruct (wsConnection s); alike.
  - now apply onResume_pipeline.
  - unfold onWsConnect. destruct (links s !! k) as [[| |] |]; auto.
    cbn [fst]. split.
    + unfold pipeline, pending. crush. reflexivity.
    + destruct Hw as [H1 H2 H3 H4]. split; crush; eauto.
  - apply alike_pipeline; [| exact Hw]. unfold onWsConnectFailed.
    destruct (links s !! k) as [[| |] |]; alike.
  - destruct (links s !! k) as [[| |] |] eqn:Hopen; auto.
    now apply onMessage_pipeline.
  - unfold onWsClose. destruct (links s !! k) as [[| |] |]; auto.
    cbn [fst]. split.
    + unfold pipeline, pending. crush. reflexivity.
    + destruct Hw as [H1 H2 H3 H4]. split; crush; try assumption;
        try discriminate.
      intros k'. destruct (decide (k = k')) as [<- | Hne].
      * rewrite lookup_insert_eq. discriminate.
      * rewrite lookup_insert_ne by assumption. apply H3.
Qed.

Lemma exec_pipeline ev s :
  wired s ->
  pipeline (exec s ev) = pipeline s ++ map Base64.encode (arrival ev s)
  /\ wired (exec s ev).
Proof.
  intros Hw. destruct (step_pipeline ev s Hw) as [Hp Hw']. unfold Client.exec.
  destruct (step ev s) as [s' [| e]]; cbn [fst] in *; [now split |].
  rewrite <- Hp. apply alike_pipeline; [alike | exact Hw'].
Qed.

Lemma run_wired evs s : wired s -> wired (run evs s).
Proof.
  revert s. induction evs as [| ev evs IH]; intros s Hw; simpl.
  - exact Hw.
  - apply IH. now apply exec_pipeline.
Qed.

Lemma wired_initial : wired initial.
Proof. split; cbn; discriminate. Qed.

End Run.
(** ** Towards the local socket *)

Lemma settled_refl s : settled s s.
Proof. repeat split. Qed.

Lemma settled_trans s1 s2 s3 : settled s1 s2 -> settled s2 s3 -> settled s1 s3.
Proof.
  unfold settled. intros (? & ? & ?) (? & ? & ?). repeat split; congruence.
Qed.

Lemma settled_downstream s s' :
  settled s s' -> drained s -> downstream s' = downstream s /\ drained s'.
Proof.
  intros (Hw & Hb & Hc) Hd. unfold downstream, drained.
  rewrite Hw, Hb, Hc. now split.
Qed.

Lemma flush_downstream socket queue s :
  written (effects (flush socket queue s)) = written (effects s) ++ queue
  /\ (buffers s = queue -> buffers (flush socket queue s) = [])
  /\ client (flush socket queue s) = client s.
Proof.
  revert s. induction queue as [| buffer rest IH]; intros s; cbn [flush].
  - rewrite app_nil_r. auto.
  - destruct (IH (emit (SocketWrite socket buffer) (set_buffers rest s)))
      as (Hw & Hb & Hc).
    rewrite Hw, Hc. cbn. rewrite written_snoc, <- app_assoc.
    split; [reflexivity |]. split; [| reflexivity]. intros _. now apply Hb.
Qed.

Section Down.
Variable JSON_parse : string -> Parsed.
Variable passphrase : option string.
Variable host : string.
Variable port : option Z.

Local Abbreviation exec := (Client.exec JSON_parse passphrase host port).
Local Abbreviation step := (Client.step JSON_parse passphrase host port).
Local Abbreviation run := (Client.run JSON_parse passphrase host port).

Local Ltac calm :=
  unfold settled;
  cbn [fst lock waiting wsConnection isConnected links effects buffers client
       exited accepted clients connectionId
       emit sendJSON panic fatal set_connectionId set_wsConnection
       set_isConnected set_buffers set_client set_lock set_waiting
       set_clients set_links set_accepted set_exited];
  rewrite ?written_snoc; cbn [app]; rewrite ?app_nil_r;
  (split; [| split]); reflexivity.

Lemma onCommand_settled k body s : settled s (onCommand host port k body s).
Proof.
  unfold onCommand.
  repeat match goal with
         | |- context [if ?x then _ else _] => destruct x
         end; calm.
Qed.

Lemma onEstablished_settled k body s : settled s (onEstablished k body s).
Proof.
  unfold onEstablished.
  destruct (is_str (body_status body) "ESTABLISHED"); [| calm].
  destruct (lock s) as [[kind [| k' |]] |]; try calm.
  destruct (Nat.eqb k k'); calm.
Qed.

Lemma onResume_settled s : settled s (fst (onResume s)).
Proof.
  unfold onResume, forward, startConnection, release.
  destruct (lock s) as [[[| data] [| k |]] |]; try calm.
  - destruct (waiting s); calm.
  - destruct (isConnected s); cbn [negb]; [| calm].
    destruct (waiting s); cbn [wsConnection set_lock set_waiting];
      destruct (wsConnection s); calm.
  - destruct (waiting s); cbn [wsConnection set_lock set_waiting];
      destruct (wsConnection s); calm.
Qed.

Lemma onConnection_downstream body s :
  drained s ->
  (downstream (fst (onConnection body s)) = downstream s
   \/ exists data, body_data body = Some data
        /\ downstream (fst (onConnection body s))
           = downstream s ++ [Base64.decode data])
  /\ drained (fst (onConnection body s)).
Proof.
  intros Hd. unfold onConnection.
  destruct (truthy (body_connection body)); [| auto].
  destruct (truthy (body_status body)).
  { destruct (_ || _); cbn [fst]; [| auto].
    destruct (settled_downstream s (panic (emit ServerClose s))) as [H1 H2];
      [calm | exact Hd | auto]. }
  destruct (body_data body) as [data |] eqn:Hdata; cbn [truthy]; [| auto].
  destruct (negb (String.eqb data EmptyString)); [| auto].
  cbn [default]. unfold Datatypes.id.
  destruct (client s) as [socket |] eqn:Hclient; cbn [fst].
  - split.
    + right. exists data. split; [reflexivity |].
      unfold downstream. cbn. rewrite written_snoc.
      rewrite (Hd (ex_intro _ socket Hclient)). now rewrite !app_nil_r.
    + intros _. cbn. apply Hd. eauto.
  - split.
    + right. exists data. split; [reflexivity |].
      unfold downstream. cbn. now rewrite app_assoc.
    + intros [x Hx]. cbn in Hx. congruence.
Qed.

Lemma onMessage_downstream k message s :
  drained s ->
  grows JSON_parse (WsMessage k message) s
    (fst (Client.onMessage JSON_parse host port k message s))
  /\ drained (fst (Client.onMessage JSON_parse host port k message s)).
Proof.
  intros Hd. unfold Client.onMessage, grows.
  destruct message as [utf8Data | binaryData]; [| auto].
  destruct (JSON_parse utf8Data) as [| | body] eqn:Hparse; auto.
  destruct (settled_downstream s _ (onCommand_settled k body s) Hd) as [Hp1 Hd1].
  set (s1 := onCommand host port k body s) in *.
  destruct (exited s1); [auto |].
  destruct (onConnection_downstream body s1 Hd1) as [Hp2 Hd2].
  destruct (onConnection body s1) as [s2 [| e]]; cbn [fst] in *.
  - assert (Hfinal : exists s3, settled s2 s3
              /\ (if exited s2 then (s2, Normal)
                  else (onEstablished k body s2, Normal)) = (s3, Normal)).
    { destruct (exited s2); eexists; (split; [| reflexivity]).
      - apply settled_refl.
      - apply onEstablished_settled. }
    destruct Hfinal as (s3 & Hs3 & ->). cbn [fst].
    destruct (settled_downstream s2 s3 Hs3 Hd2) as [Hp3 Hd3].
    split; [| exact Hd3]. rewrite Hp3.
    destruct Hp2 as [-> | (data & Hdata & ->)]; [now left |].
    right. exists k, utf8Data, body, data. rewrite Hp1. auto.
  - split; [| exact Hd2].
    destruct Hp2 as [-> | (data & Hdata & ->)]; [now left |].
    right. exists k, utf8Data, body, data. rewrite Hp1. auto.
Qed.

Lemma step_downstream ev s :
  drained s ->
  grows JSON_parse ev s (fst (step ev s)) /\ drained (fst (step ev s)).
Proof.
  intros Hd. unfold Client.step.
  destruct (exited s); [split; [now left | exact Hd] |].
  assert (Hquiet : forall s', settled s s' ->
            grows JSON_parse ev s s' /\ drained s').
  { intros s' Hs'. destruct (settled_downstream s s' Hs' Hd). split; [now left | auto]. }
  destruct ev as [socket | socket data | socket | | k | k | k message | k].
  - unfold onLocalConnection. cbn [client set_accepted buffers].
    destruct (client s) eqn:Hclient; cbn [fst]; [apply Hquiet; calm |].
    match goal with
    | |- context [flush ?a ?b ?c] =>
        destruct (flush_downstream a b c) as (Hw & Hb & Hc)
    end.
    split.
    + left. unfold downstream. rewrite Hw, Hb by reflexivity.
      cbn. now rewrite app_nil_r.
    + intros _. now apply Hb.
  - apply Hquiet. unfold onLocalData.
    destruct (bool_decide _); [| calm]. destruct (lock s); calm.
  - unfold onLocalClose. destruct (bool_decide _); cbn [fst]; [| apply Hquiet; calm].
    split.
    + left. unfold downstream. cbn [wsConnection set_accepted].
      destruct (wsConnection s); cbn; rewrite ?written_snoc, ?app_nil_r;
        reflexivity.
    + intros [x Hx]. cbn in Hx. discriminate.
  - apply Hquiet, onResume_settled.
  - apply Hquiet. unfold onWsConnect. destruct (links s !! k) as [[| |] |]; calm.
  - apply Hquiet. unfold onWsConnectFailed.
    destruct (links s !! k) as [[| |] |]; calm.
  - destruct (links s !! k) as [[| |] |]; try (apply Hquiet; calm).
    now apply onMessage_downstream.
  - apply Hquiet. unfold onWsClose. destruct (links s !! k) as [[| |] |]; calm.
Qed.

Lemma exec_downstream ev s :
  drained s -> grows JSON_parse ev s (exec s ev) /\ drained (exec s ev).
Proof.
  intros Hd. destruct (step_downstream ev s Hd) as [Hg Hd']. unfold Client.exec.
  destruct (step ev s) as [s' [| e]]; cbn [fst] in *; [now split |].
  destruct (settled_downstream s' (set_exited true (emit (Unhandled e) s')))
    as [Hp Hd'']; [calm | exact Hd' |].
  split; [| exact Hd'']. unfold grows in *. rewrite Hp. exact Hg.
Qed.

Lemma run_drained evs s : drained s -> drained (run evs s).
Proof.
  revert s. induction evs as [| ev evs IH]; intros s Hd; simpl.
  - exact Hd.
  - apply IH. now apply exec_downstream.
Qed.

End Down.
(** X6.  Towards the relay, the client sends the chunks in the order of
    their arrival, each once, and the guard [wsConnection &&] never
    drops one: in every state that it reaches, the payloads of the
    TRAFFIC messages sent so far followed by the chunks that wait for
    the lock grow by exactly the chunk of a [data] event of a local
    socket, at the end, and no other event changes them. *)
Theorem upstream_keeps_order
    (JSON_parse : string -> Parsed) (passphrase : option string)
    (host : string) (port : option Z)
    (evs : list Event) (ev : Event) (s : State) :
  s = Client.run JSON_parse passphrase host port evs initial ->
  pipeline (Client.exec JSON_parse passphrase host port s ev)
  = pipeline s ++ map Base64.encode (arrival ev s).
Proof.
  intros ->. apply exec_pipeline. apply run_wired, wired_initial.
Qed.

(** X7.  Towards the local socket, the client writes what it received
    and in the order of arrival: in every state that it reaches, the
    buffers written so far followed by the queue of pending buffers
    change only by the decoded [data] of a frame, added at the end, and
    the queue is empty whenever a local client is attached. *)
Theorem downstream_keeps_order
    (JSON_parse : string -> Parsed) (passphrase : option string)
    (host : string) (port : option Z)
    (evs : list Event) (ev : Event) (s : State) :
  s = Client.run JSON_parse passphrase host port evs initial ->
  drained s
  /\ grows JSON_parse ev s (Client.exec JSON_parse passphrase host port s ev).
Proof.
  intros ->.
  assert (Hd : drained (Client.run JSON_parse passphrase host port evs initial)).
  { apply run_drained. intros [x Hx]. discriminate. }
  split; [exact Hd |]. now apply exec_downstream.
Qed.

End PipelineFacts.


(* ===================================================================== *)
(** * Targets as strings: splitting, reading and printing *)
(* ===================================================================== *)

Module UtilsFacts.
Import Wire Utils.

(** ** [split] *)

Lemma split_free sep s : occurs sep s = false -> split sep s = [s].
Proof.
  induction s as [| c s IH]; cbn [occurs split]; [reflexivity |].
  intros H. apply orb_false_iff in H as [Hc Hs].
  rewrite Hc, (IH Hs). reflexivity.
Qed.

Lemma split_append sep h rest :
  occurs sep h = false ->
  split sep (h +:+ String sep rest) = h :: split sep rest.
Proof.
  induction h as [| c h IH]; simpl.
  - intros _. now rewrite Ascii.eqb_refl.
  - intros H. apply orb_false_iff in H as [Hc Hs].
    rewrite Hc, (IH Hs). reflexivity.
Qed.

Lemma split_first sep s : exists first rest, split sep s = first :: rest.
Proof.
  induction s as [| c s (first & rest & IH)]; cbn [split]; [eauto |].
  destruct (Ascii.eqb c sep); [eauto |]. rewrite IH. eauto.
Qed.

(** ** Decimal numerals *)

Lemma is_decimal_plain c :
  is_decimal c = true ->
  is_white c = false /\ Ascii.eqb c "-" = false /\ Ascii.eqb c "+" = false
  /\ Ascii.eqb c ":" = false /\ Ascii.eqb c "x" = false /\ Ascii.eqb c "X" = false
  /\ Ascii.eqb c "*" = false
  /\ exists d, digit_value c = Some d /\ (0 <= d < 10)%Z.
Proof.
  intros H.
  destruct c as [[] [] [] [] [] [] [] []]; vm_compute in H; try discriminate H;
    clear H; (repeat split; try reflexivity);
    eexists; (split; [vm_compute; reflexivity | lia]).
Qed.

Lemma numeral_decimal d : all_decimal (NilEmpty.string_of_uint d) = true.
Proof. induction d; cbn [NilEmpty.string_of_uint all_decimal]; auto. Qed.

Lemma all_decimal_free s c :
  is_decimal c = false -> all_decimal s = true -> occurs c s = false.
Proof.
  intros Hc. induction s as [| c' s IH]; cbn [all_decimal occurs]; [reflexivity |].
  intros H. apply andb_prop in H as [Hc' Hs]. rewrite (IH Hs), orb_false_r.
  destruct (Ascii.eqb_spec c' c) as [-> | _]; [congruence | reflexivity].
Qed.

Lemma digits_numeral d acc :
  digits 10 acc (NilEmpty.string_of_uint d)
  = match d with
    | Decimal.Nil => acc
    | _ => Some (read d (default 0%Z acc))
    end.
Proof.
  revert acc. induction d as [| d IH | d IH | d IH | d IH | d IH | d IH | d IH
                              | d IH | d IH | d IH]; intros acc;
    [reflexivity | ..];
    cbn [NilEmpty.string_of_uint digits];
    match goal with
    | |- context [digit_value ?c] =>
        let v := eval vm_compute in (digit_value c) in
        change (digit_value c) with v
    end;
    cbv iota beta;
    match goal with
    | |- context [(?k <? 10)%Z] => change (k <? 10)%Z with true
    end;
    cbv iota; rewrite IH; destruct d; cbn [read default]; rewrite ?Z.add_0_r;
    reflexivity.
Qed.

Lemma read_revapp d e acc :
  read (Decimal.revapp d e) acc = read e (read (Decimal.rev d) acc).
Proof.
  unfold Decimal.rev. revert e acc.
  induction d as [| d IH | d IH | d IH | d IH | d IH | d IH | d IH
                  | d IH | d IH | d IH]; intros e acc;
    [reflexivity | ..];
    cbn [Decimal.revapp]; rewrite IH;
    match goal with
    | |- _ = read e (read (Decimal.revapp d ?x) acc) => rewrite (IH x)
    end; reflexivity.
Qed.

Lemma read_little d :
  read (Decimal.rev d) 0 = Z.of_N (DecimalPos.Unsigned.of_lu d).
Proof.
  induction d as [| d IH | d IH | d IH | d IH | d IH | d IH | d IH
                  | d IH | d IH | d IH];
    [reflexivity | ..];
    unfold Decimal.rev; cbn [Decimal.revapp DecimalPos.Unsigned.of_lu];
    rewrite read_revapp, IH; cbn [read]; lia.
Qed.

Lemma read_positive p : read (Pos.to_uint p) 0 = Z.pos p.
Proof.
  unfold Pos.to_uint. rewrite read_little.
  rewrite <- DecimalPos.Unsigned.of_lu_rev.
  change (Decimal.rev (Pos.to_little_uint p)) with (Pos.to_uint p).
  now rewrite DecimalPos.Unsigned.of_to.
Qed.

(** ** [parseInt] on what the tunnel prints *)

Lemma hex_prefix_decimal s : all_decimal s = true -> hex_prefix s = false.
Proof.
  destruct s as [| c0 [| c1 s]]; cbn [all_decimal hex_prefix]; try reflexivity.
  intros H. apply andb_prop in H as [_ H]. apply andb_prop in H as [H _].
  destruct (is_decimal_plain c1 H) as (_ & _ & _ & _ & -> & -> & _).
  apply andb_false_r.
Qed.

Lemma all_decimal_ascii s : all_decimal s = true -> all_ascii s = true.
Proof.
  induction s as [| c s IH]; cbn [all_decimal all_ascii]; [reflexivity |].
  intros H. apply andb_prop in H as [Hc Hs]. rewrite (IH Hs), andb_true_r.
  destruct c as [[] [] [] [] [] [] [] []]; vm_compute in Hc; try discriminate Hc;
    reflexivity.
Qed.

Lemma parseInt_decimal c rest radix :
  radix = None \/ radix = Some 10%Z ->
  all_decimal (String c rest) = true ->
  parseInt (Some (String c rest)) radix
  = toNumber false (digits 10 None (String c rest))
  /\ parseInt (Some (String "-" (String c rest))) radix
     = toNumber true (digits 10 None (String c rest)).
Proof.
  intros Hradix Hall. pose proof (hex_prefix_decimal _ Hall) as Hhex.
  pose proof (all_decimal_ascii _ Hall) as Hascii.
  assert (Hminus : all_ascii (String "-" (String c rest)) = true)
    by (cbn [all_ascii] in *; now rewrite Hascii).
  cbn [all_decimal] in Hall. apply andb_prop in Hall as [Hc _].
  destruct (is_decimal_plain c Hc) as (Hw & Hm & Hp & _).
  unfold parseInt, toNumber. rewrite Hascii, Hminus. cbn [negb trim_start].
  rewrite Hw.
  change (is_white "-") with false. cbv iota. rewrite Hm, Hp.
  change (Ascii.eqb "-" "-") with true. cbn [orb]. cbv iota. rewrite Hhex.
  destruct Hradix as [-> | ->]; cbn -[digits exact];
    change (precise 10) with true; cbn [andb];
    destruct (digits 10 None (String c rest)); split; reflexivity.
Qed.

Lemma numeral_cons d :
  d <> Decimal.Nil ->
  exists c rest, NilEmpty.string_of_uint d = String c rest.
Proof. destruct d; [contradiction | ..]; intros _; cbn; eauto. Qed.

Lemma to_uint_cons p : Pos.to_uint p <> Decimal.Nil.
Proof.
  intros H. pose proof (read_positive p) as Hr. rewrite H in Hr. discriminate.
Qed.

(** The decimal rendering of an integer up to 2^53, as [String(n)]
    and [JSON.stringify(n)] print it, is read back by [parseInt], with
    the radix 10 or without a radix. *)
Lemma parseInt_numeral n radix :
  radix = None \/ radix = Some 10%Z ->
  exact n = true ->
  parseInt (Some (NilZero.string_of_int (Z.to_int n))) radix = Integer n.
Proof.
  intros Hradix Hn. destruct n as [| p | p]; cbn [Z.to_int NilZero.string_of_int].
  - destruct Hradix as [-> | ->]; vm_compute; reflexivity.
  - pose proof (to_uint_cons p) as Hne.
    destruct (numeral_cons _ Hne) as (c & rest & Hs).
    assert (Hz : NilZero.string_of_uint (Pos.to_uint p) = String c rest).
    { unfold NilZero.string_of_uint. now destruct (Pos.to_uint p). }
    rewrite Hz.
    destruct (parseInt_decimal c rest radix Hradix) as [-> _].
    { rewrite <- Hs. apply numeral_decimal. }
    rewrite <- Hs, digits_numeral.
    assert (Hr : read (Pos.to_uint p) 0 = Z.pos p) by apply read_positive.
    destruct (Pos.to_uint p); [contradiction | ..]; cbn [default toNumber];
      rewrite Hr, Hn; reflexivity.
  - pose proof (to_uint_cons p) as Hne.
    destruct (numeral_cons _ Hne) as (c & rest & Hs).
    assert (Hz : NilZero.string_of_uint (Pos.to_uint p) = String c rest).
    { unfold NilZero.string_of_uint. now destruct (Pos.to_uint p). }
    rewrite Hz.
    destruct (parseInt_decimal c rest radix Hradix) as [_ ->].
    { rewrite <- Hs. apply numeral_decimal. }
    rewrite <- Hs, digits_numeral.
    assert (Hr : read (Pos.to_uint p) 0 = Z.pos p) by apply read_positive.
    assert (Hp : exact (Z.pos p) = true) by exact Hn.
    destruct (Pos.to_uint p); [contradiction | ..]; cbn [default toNumber];
      rewrite Hr, Hp; reflexivity.
Qed.

Lemma numeral_free n c :
  is_decimal c = false -> Ascii.eqb "-" c = false ->
  occurs c (NilZero.string_of_int (Z.to_int n)) = false.
Proof.
  intros Hc Hm.
  assert (Hu : forall d, all_decimal (NilZero.string_of_uint d) = true).
  { intros d. unfold NilZero.string_of_uint.
    destruct d; try apply numeral_decimal. reflexivity. }
  destruct n as [| p | p]; cbn [Z.to_int NilZero.string_of_int].
  - apply all_decimal_free; [exact Hc | reflexivity].
  - apply all_decimal_free; [exact Hc | apply Hu].
  - cbn [occurs]. rewrite Hm. apply all_decimal_free; [exact Hc | apply Hu].
Qed.

(** X8.  A pair printed by [toString] is read back by the one-string
    constructor: for a host without a colon and an integer port up to
    2^53 in magnitude, [pair.toString()] is the host, a colon and the
    decimal numeral of the port, and [new HostPortPair] of that string
    has the host and the port of [pair]. *)
Theorem host_port_round_trip (h : string) (n : Z) :
  occurs ":" h = false ->
  exact n = true ->
  toString {| host := Some h; port := Some n |}
  = Some (h +:+ ":" +:+ NilZero.string_of_int (Z.to_int n))
  /\ newHostPortPair (h +:+ ":" +:+ NilZero.string_of_int (Z.to_int n))
     = Some {| host := Some h; port := Some n |}.
Proof.
  intros Hh Hn. unfold newHostPortPair, toString. cbn [host port]. rewrite Hn.
  split; [reflexivity |].
  change (":" +:+ NilZero.string_of_int (Z.to_int n))
    with (String ":" (NilZero.string_of_int (Z.to_int n))).
  rewrite (split_append ":" h _ Hh).
  rewrite (split_free ":" (NilZero.string_of_int (Z.to_int n)))
    by (apply numeral_free; reflexivity).
  cbn [nth_error]. rewrite parseInt_numeral by (auto). reflexivity.
Qed.

End UtilsFacts.

(* ===================================================================== *)
(** * What the passphrase file permits *)
(* ===================================================================== *)

Module LoaderFacts.
Import Wire Server Acl Utils Loader UtilsFacts.

(** Dropping [NaN] from an array does not change whether [indexOf]
    finds a number in it. *)
Lemma numbers_indexOf l v i j :
  (0 <= i)%Z -> (0 <= j)%Z ->
  (indexOfNumber l v i = (-1)%Z
   <-> Server.indexOf_from (numbers l) v j = (-1)%Z).
Proof.
  revert i j. induction l as [| [x |] l IH]; intros i j Hi Hj;
    cbn [indexOfNumber Server.indexOf_from].
  - reflexivity.
  - change (numbers (Some x :: l)) with (x :: numbers l).
    cbn [Server.indexOf_from]. destruct (Z.eqb x v); cbv iota.
    + split; intros H; exfalso; lia.
    + apply IH; lia.
  - change (numbers (None :: l)) with (numbers l). apply IH; lia.
Qed.

Lemma entry_number_Some e n : entry_number e = Some n <-> entry_port e = Integer n.
Proof.
  unfold entry_number. destruct (entry_port e); split; congruence.
Qed.

(** ** One entry *)

Lemma push_Returns allowedHosts e acc' :
  push allowedHosts (entry_host e) (entry_port e) = Returns acc' ->
  entry_port e <> Unknown
  /\ acc' = <[entry_host e :=
               default [] (allowedHosts !! entry_host e) ++ [entry_number e]]>
             allowedHosts.
Proof.
  unfold push, entry_number. destruct (entry_port e); intros [=]; subst;
    split; (discriminate || reflexivity).
Qed.

Lemma addAllowed_Returns allowedHosts e acc' :
  clean allowedHosts ->
  addAllowed allowedHosts e = Returns acc' ->
  inherited (entry_host e) = false
  /\ entry_port e <> Unknown
  /\ clean acc'
  /\ forall h,
       acc' !! h
       = if decide (entry_host e = h)
         then Some (default [] (allowedHosts !! h) ++ [entry_number e])
         else allowedHosts !! h.
Proof.
  intros Hclean. unfold addAllowed, get.
  destruct (allowedHosts !! entry_host e) as [array |] eqn:Hh.
  - intros H. apply push_Returns in H as [Hport ->]. rewrite Hh.
    pose proof (Hclean _ (ex_intro _ array Hh)) as Hhost.
    split; [exact Hhost |]. split; [exact Hport |]. split.
    + intros k [v Hk]. destruct (decide (entry_host e = k)) as [<- | Hne];
        [exact Hhost |].
      rewrite lookup_insert_ne in Hk by assumption. eauto.
    + intros h. destruct (decide (entry_host e = h)) as [<- | Hne].
      * now rewrite lookup_insert_eq, Hh.
      * now rewrite lookup_insert_ne.
  - destruct (inherited (entry_host e)) eqn:Hhost; [discriminate |].
    intros H. apply push_Returns in H as [Hport ->].
    rewrite lookup_insert_eq.
    split; [reflexivity |]. split; [exact Hport |]. split.
    + intros k [v Hk]. destruct (decide (entry_host e = k)) as [<- | Hne];
        [exact Hhost |].
      rewrite !lookup_insert_ne in Hk by assumption. eauto.
    + intros h. destruct (decide (entry_host e = h)) as [<- | Hne].
      * now rewrite lookup_insert_eq, Hh.
      * now rewrite !lookup_insert_ne.
Qed.

Lemma addAllowed_plain allowedHosts e :
  clean allowedHosts ->
  inherited (entry_host e) = false -> entry_port e <> Unknown ->
  exists acc', addAllowed allowedHosts e = Returns acc'.
Proof.
  intros Hclean Hhost Hport. unfold addAllowed, get, push. rewrite Hhost.
  destruct (allowedHosts !! entry_host e); destruct (entry_port e);
    try contradiction; eauto.
Qed.

(** ** The list of an item *)

Lemma plain_cons e entries :
  plain (e :: entries)
  <-> (inherited (entry_host e) = false /\ entry_port e <> Unknown)
      /\ plain entries.
Proof.
  unfold plain. split.
  - intros H. split; [apply H; now left |]. intros x Hx. apply H. now right.
  - intros [He H] x Hx. apply elem_of_cons in Hx as [-> | Hx]; auto.
Qed.

(** When the loop over the list returns, every entry was plain, and
    each host has the numbers of its entries, in the order of the
    file. *)
Lemma forEach_addAllowed entries allowedHosts table :
  clean allowedHosts ->
  forEach addAllowed entries allowedHosts = Returns table ->
  plain entries
  /\ forall h,
       table !! h
       = match allowedHosts !! h, entries_of h entries with
         | None, [] => None
         | ports, own => Some (default [] ports ++ map entry_number own)
         end.
Proof.
  revert allowedHosts. induction entries as [| e entries IH];
    intros allowedHosts Hclean; cbn [forEach].
  - intros [= <-]. split.
    + intros x Hx. now apply elem_of_nil in Hx.
    + intros h. cbn. destruct (allowedHosts !! h); cbn; now rewrite ?app_nil_r.
  - destruct (addAllowed allowedHosts e) as [acc' | |] eqn:Hadd; try discriminate.
    intros Hrun.
    destruct (addAllowed_Returns _ _ _ Hclean Hadd)
      as (Hhost & Hport & Hclean' & Hlookup).
    destruct (IH acc' Hclean' Hrun) as [Hplain Htable].
    split; [apply plain_cons; split; [split; assumption | exact Hplain] |].
    intros h. rewrite Htable, Hlookup. unfold entries_of.
    rewrite filter_cons.
    repeat case_decide; try contradiction; [| reflexivity].
    destruct (allowedHosts !! h); cbn [default map app]; unfold Datatypes.id;
      rewrite <- ?app_assoc; reflexivity.
Qed.

Lemma forEach_plain entries allowedHosts :
  clean allowedHosts -> plain entries ->
  exists table, forEach addAllowed entries allowedHosts = Returns table.
Proof.
  revert allowedHosts. induction entries as [| e entries IH];
    intros allowedHosts Hclean Hplain; cbn [forEach]; [eauto |].
  apply plain_cons in Hplain as [[Hhost Hport] Hplain].
  destruct (addAllowed_plain allowedHosts e Hclean Hhost Hport) as [acc' Hadd].
  rewrite Hadd. apply IH; [| exact Hplain].
  now destruct (addAllowed_Returns _ _ _ Hclean Hadd) as (_ & _ & Hclean' & _).
Qed.

Lemma clean_empty : clean ∅.
Proof. intros k [v Hk]. rewrite lookup_empty in Hk. discriminate. Qed.

(** An item is loaded exactly when the entries of its list are
    plain. *)
Lemma loadItem_plain item entries :
  item_allowed item = Some entries ->
  ((exists credential, loadItem item = Returns credential) <-> plain entries).
Proof.
  intros Hi. unfold loadItem. rewrite Hi. split.
  - intros [credential H].
    destruct (forEach addAllowed entries ∅) as [table | |] eqn:Hrun;
      try discriminate.
    now destruct (forEach_addAllowed _ _ _ clean_empty Hrun).
  - intros Hplain. destruct (forEach_plain entries ∅ clean_empty Hplain) as [t ->].
    eauto.
Qed.

Lemma loaded_entry item entries credential :
  item_allowed item = Some entries ->
  loadItem item = Returns credential ->
  plain entries
  /\ exists table,
       allowed credential = Some table
       /\ forall h,
            table !! h
            = match entries_of h entries with
              | [] => None
              | own => Some (numbers (map entry_number own))
              end.
Proof.
  intros Hi. unfold loadItem. rewrite Hi.
  destruct (forEach addAllowed entries ∅) as [table | |] eqn:Hrun; try discriminate.
  intros [= <-]. destruct (forEach_addAllowed _ _ _ clean_empty Hrun) as [Hplain Ht].
  split; [exact Hplain |].
  exists (numbers <$> table). split; [reflexivity |].
  intros h. rewrite lookup_fmap, Ht, lookup_empty.
  now destruct (entries_of h entries).
Qed.

Lemma port_allowed_numbers own port :
  port_allowed (numbers (map entry_number own)) port = true
  <-> exists e, e ∈ own
        /\ (entry_port e = Integer 0%Z
            \/ exists n, port = Some n /\ entry_port e = Integer n).
Proof.
  assert (Hin : forall n, n ∈ numbers (map entry_number own)
                          <-> exists e, e ∈ own /\ entry_port e = Integer n).
  { intros n. unfold numbers. rewrite list_elem_of_omap. split.
    - intros (o & Ho & Hn). destruct o as [m |]; [| discriminate].
      injection Hn as ->. apply list_elem_of_fmap in Ho as (e & He & Hin).
      exists e. split; [exact Hin |]. now apply entry_number_Some.
    - intros (e & He & Hn). exists (Some n). split; [| reflexivity].
      apply list_elem_of_fmap. exists e. split; [| exact He].
      symmetry. now apply entry_number_Some. }
  unfold port_allowed. rewrite orb_true_iff, !bool_decide_eq_true. split.
  - intros [H | H].
    + destruct port as [n |]; [| discriminate].
      apply bool_decide_eq_true in H. apply Hin in H as (e & He & Hn). eauto 7.
    + apply Hin in H as (e & He & Hn). eauto.
  - intros (e & He & [H0 | (n & -> & Hn)]).
    + right. apply Hin. eauto.
    + left. apply bool_decide_eq_true, Hin. eauto.
Qed.

Lemma entries_of_host e h entries : e ∈ entries_of h entries -> entry_host e = h.
Proof. unfold entries_of. intros H. now apply list_elem_of_filter in H as [H _]. Qed.

Lemma entries_of_plain h entries :
  plain entries -> entries_of h entries <> [] -> inherited h = false.
Proof.
  intros Hplain Hne. destruct (entries_of h entries) as [| e own] eqn:Hown;
    [contradiction |].
  assert (He : e ∈ entries_of h entries) by (rewrite Hown; now left).
  pose proof (entries_of_host _ _ _ He) as <-.
  apply list_elem_of_filter in He as [_ He]. now apply Hplain.
Qed.

Lemma verdict_loaded item entries credential hostPort :
  item_allowed item = Some entries ->
  loadItem item = Returns credential ->
  verdict credential hostPort
  = if inherited (key (host hostPort)) then Crash
    else if port_allowed
              (numbers (map entry_number (deciding (key (host hostPort)) entries)))
              (port hostPort)
         then Permit else Forbid.
Proof.
  intros Hi Hload.
  destruct (loaded_entry item entries credential Hi Hload)
    as (Hplain & table & Htable & Hlookup).
  unfold verdict, deciding. rewrite Htable, !Hlookup.
  destruct (entries_of (key (host hostPort)) entries) as [| e own] eqn:Hown.
  - destruct (inherited (key (host hostPort))); [reflexivity |].
    destruct (entries_of "*" entries); [| reflexivity].
    cbn. unfold port_allowed.
    rewrite (bool_decide_eq_false_2 (0%Z ∈ [])) by apply not_elem_of_nil.
    destruct (port hostPort) as [n |]; [| reflexivity].
    now rewrite (bool_decide_eq_false_2 (n ∈ [])) by apply not_elem_of_nil.
  - rewrite (entries_of_plain (key (host hostPort)) entries Hplain)
      by (rewrite Hown; discriminate).
    reflexivity.
Qed.

(** X9.  What a credential of the passphrase file permits.  When the
    loader returns the credential of an item with a list, every entry
    of the list names a host that is no member of [Object.prototype],
    and then: a target is permitted if and only if its host is no such
    member, and one of the entries that decide about its host (the
    entries of the host itself when there are some, those of the host
    [*] otherwise) has the port [*] or a port that [parseInt] reads as
    [0], or has the requested port; and the START of a target whose
    host is such a member throws. *)
Theorem loaded_credential_permits
    (item : Item) (entries : list string) (credential : ICredential)
    (hostPort : HostPortPair) :
  item_allowed item = Some entries ->
  loadItem item = Returns credential ->
  plain entries
  /\ (verdict credential hostPort = Permit
      <-> inherited (key (host hostPort)) = false
          /\ exists e, e ∈ deciding (key (host hostPort)) entries
               /\ (entry_port e = Integer 0%Z
                   \/ exists n, port hostPort = Some n /\ entry_port e = Integer n))
  /\ (verdict credential hostPort = Crash
      <-> inherited (key (host hostPort)) = true).
Proof.
  intros Hi Hload.
  split; [now destruct (loaded_entry item entries credential Hi Hload) |].
  rewrite (verdict_loaded item entries credential hostPort Hi Hload).
  rewrite <- port_allowed_numbers.
  destruct (inherited (key (host hostPort))).
  - split; split; try reflexivity; try discriminate. now intros [? _].
  - destruct (port_allowed _ (port hostPort)); split; split;
      try discriminate; try (intros [_ ?]; discriminate); auto.
Qed.

Lemma in_deciding e entries :
  e ∈ entries -> e ∈ deciding (entry_host e) entries.
Proof.
  intros Hin.
  assert (Hown : e ∈ entries_of (entry_host e) entries).
  { unfold entries_of. apply list_elem_of_filter. now split. }
  unfold deciding. destruct (entries_of (entry_host e) entries); [| exact Hown].
  now apply elem_of_nil in Hown.
Qed.

Lemma entry_standard h piece :
  occurs ":" h = false -> occurs ":" piece = false ->
  entry_host (h +:+ String ":" piece) = h
  /\ entry_piece (h +:+ String ":" piece) = Some piece.
Proof.
  intros Hh Hp. unfold entry_host, entry_piece.
  rewrite (split_append ":" h piece Hh), (split_free ":" piece Hp). now split.
Qed.

(** A listed entry permits the targets of its host that it names. *)
Lemma entry_permits item entries credential e hostPort :
  item_allowed item = Some entries ->
  loadItem item = Returns credential ->
  e ∈ entries ->
  key (host hostPort) = entry_host e ->
  (entry_port e = Integer 0%Z
   \/ exists n, port hostPort = Some n /\ entry_port e = Integer n) ->
  verdict credential hostPort = Permit.
Proof.
  intros Hi Hload Hin Hhost Hport.
  destruct (loaded_entry item entries credential Hi Hload) as (Hplain & _).
  rewrite (verdict_loaded item entries credential hostPort Hi Hload), Hhost.
  destruct (Hplain e Hin) as [-> _].
  assert (H : port_allowed
                (numbers (map entry_number (deciding (entry_host e) entries)))
                (port hostPort) = true).
  { apply port_allowed_numbers. exists e. split; [now apply in_deciding | exact Hport]. }
  now rewrite H.
Qed.

(** X10.  An entry in the form that [toString] prints permits its
    target, and an entry [host:*] permits every port of the host: when
    the loader returns the credential of an item, for a host without a
    colon, if the list of the item holds the string that [toString]
    prints for a pair, the pair is permitted, and if it holds
    [host:*], every pair of that host is. *)
Theorem listed_target_is_permitted
    (item : Item) (entries : list string) (credential : ICredential) (h : string) :
  item_allowed item = Some entries ->
  loadItem item = Returns credential ->
  occurs ":" h = false ->
  (forall n printed,
     toString {| host := Some h; port := Some n |} = Some printed ->
     printed ∈ entries ->
     verdict credential {| host := Some h; port := Some n |} = Permit)
  /\ ((h +:+ ":*") ∈ entries ->
      forall p, verdict credential {| host := Some h; port := p |} = Permit).
Proof.
  intros Hi Hload Hh. split.
  - intros n printed Hprinted Hin.
    unfold toString in Hprinted. cbn [host port] in Hprinted.
    destruct (exact n) eqn:Hn; [| discriminate]. injection Hprinted as <-.
    change (":" +:+ NilZero.string_of_int (Z.to_int n))
      with (String ":" (NilZero.string_of_int (Z.to_int n))) in Hin.
    set (e := h +:+ String ":" (NilZero.string_of_int (Z.to_int n))) in *.
    destruct (entry_standard h (NilZero.string_of_int (Z.to_int n)) Hh)
      as [Hhost Hpiece]; [apply numeral_free; reflexivity |].
    fold e in Hhost, Hpiece.
    apply (entry_permits item entries credential e _ Hi Hload Hin).
    { cbn [host key]. now rewrite Hhost. }
    right. exists n. split; [reflexivity |]. unfold entry_port. rewrite Hpiece.
    assert (Hstar : is_str (Some (NilZero.string_of_int (Z.to_int n))) "*" = false).
    { cbn [is_str]. apply String.eqb_neq. intros Heq.
      pose proof (numeral_free n "*" eq_refl eq_refl) as Hfree.
      rewrite Heq in Hfree. discriminate. }
    rewrite Hstar. apply parseInt_numeral; [now right | exact Hn].
  - intros Hin p.
    change (h +:+ ":*") with (h +:+ String ":" "*") in Hin.
    destruct (entry_standard h "*" Hh eq_refl) as [Hhost Hpiece].
    apply (entry_permits item entries credential _ _ Hi Hload Hin).
    { cbn [host key]. now rewrite Hhost. }
    left. unfold entry_port. now rewrite Hpiece.
Qed.

(** Without a radix [parseInt] reads what it reads with the radix 10,
    except behind the prefix [0x], where the radix 10 reads [0]. *)
Lemma parseInt_radix10 input n :
  parseInt input None = Integer n ->
  parseInt input (Some 10%Z) = Integer n
  \/ parseInt input (Some 10%Z) = Integer 0%Z.
Proof.
  unfold parseInt.
  destruct (all_ascii match input with Some s => s | None => "undefined" end);
    cbn [negb]; [| discriminate].
  set (S := trim_start match input with Some s => s | None => "undefined" end).
  set (negative := match S with String c _ => Ascii.eqb c "-" | _ => false end).
  set (S1 := match S with
             | String c rest => if Ascii.eqb c "-" || Ascii.eqb c "+" then rest else S
             | EmptyString => S
             end).
  cbn [default]. unfold Datatypes.id. change (negb (0 =? 0)%Z) with false.
  change (negb (10 =? 0)%Z && ((10 <? 2)%Z || (36 <? 10)%Z)) with false.
  change (((10 =? 0)%Z || (10 =? 16)%Z) && hex_prefix S1) with false.
  change (((0 =? 0)%Z || (0 =? 16)%Z) && hex_prefix S1) with (hex_prefix S1).
  cbv iota. change (0 =? 0)%Z with true. change (10 =? 0)%Z with false. cbv iota.
  clearbody negative S1. clear S.
  destruct (hex_prefix S1) eqn:Hhex; [| now left].
  intros _. right.
  destruct S1 as [| c0 [| c1 rest]]; try discriminate.
  cbn [hex_prefix] in Hhex. apply andb_prop in Hhex as [H0 Hx].
  apply Ascii.eqb_eq in H0 as ->.
  assert (Hd : digits 10 None (String "0" (String c1 rest)) = Some 0%Z).
  { cbn [digits]. change (digit_value "0") with (Some 0%Z). cbv iota beta.
    change (0 <? 10)%Z with true. cbv iota. cbn [digits].
    apply orb_prop in Hx as [Hx | Hx]; apply Ascii.eqb_eq in Hx as ->; reflexivity. }
  rewrite Hd. now destruct negative.
Qed.

(** X11.  The client and the passphrase file read a target alike: when
    the loader returns the credential of an item, if the argument
    [target] of the client is an entry of the list of the item and its
    port is a number up to 2^53, the pair that the client requests in
    START is permitted by that credential. *)
Theorem client_target_is_permitted
    (item : Item) (entries : list string) (credential : ICredential)
    (target : string) (hostPort : HostPortPair) (n : Z) :
  item_allowed item = Some entries ->
  loadItem item = Returns credential ->
  target ∈ entries ->
  newHostPortPair target = Some hostPort ->
  port hostPort = Some n ->
  verdict credential hostPort = Permit.
Proof.
  intros Hi Hload Hin Hpair Hport.
  assert (Hp : parseInt (entry_piece target) None = Integer n
               /\ key (host hostPort) = entry_host target).
  { unfold newHostPortPair in Hpair. fold (entry_piece target) in Hpair.
    unfold entry_host.
    destruct (split_first ":" target) as (first & rest & Hsplit).
    rewrite Hsplit in *. cbn [nth_error] in *.
    destruct (parseInt (entry_piece target) None) as [| m |];
      [| | discriminate]; injection Hpair as <-; cbn [port host key] in *.
    - discriminate.
    - injection Hport as ->. now split. }
  destruct Hp as [Hp Hhost].
  apply (entry_permits item entries credential target _ Hi Hload Hin Hhost).
  unfold entry_port.
  destruct (is_str (entry_piece target) "*") eqn:Hstar; [now left |].
  destruct (parseInt_radix10 _ _ Hp) as [H10 | H10]; [| now left].
  right. eauto.
Qed.

(** ** The table *)

Lemma forEach_addCredential items (acc creds : gmap string ICredential) :
  forEach addCredential items acc = Returns creds ->
  (forall item, item ∈ items ->
     item_passphrase item <> "__proto__"
     /\ exists credential, loadItem item = Returns credential)
  /\ forall p,
       creds !! p
       = match last (filter (fun item => item_passphrase item = p) items) with
         | Some item =>
             match loadItem item with
             | Returns credential => Some credential
             | _ => None
             end
         | None => acc !! p
         end.
Proof.
  revert acc. induction items as [| item items IH]; intros acc; cbn [forEach].
  - intros [= <-]. split; [| reflexivity].
    intros item H. now apply elem_of_nil in H.
  - unfold addCredential at 1.
    destruct (loadItem item) as [credential | |] eqn:Hitem; try discriminate.
    destruct (String.eqb_spec (item_passphrase item) "__proto__") as [| Hproto];
      [discriminate |].
    intros Hrun. destruct (IH _ Hrun) as [Hall Hlookup]. split.
    + intros x Hx. apply elem_of_cons in Hx as [-> | Hx]; [| now apply Hall].
      split; [exact Hproto | eauto].
    + intros p. rewrite Hlookup, filter_cons. case_decide as Hp.
      * rewrite last_cons.
        destruct (last (filter _ items)); [reflexivity |].
        rewrite <- Hp, lookup_insert_eq, Hitem. reflexivity.
      * destruct (last (filter _ items)); [reflexivity |].
        now rewrite lookup_insert_ne.
Qed.

(** X12.  When the loader returns the table of the passphrase file,
    the credential of a passphrase is the one loaded from the last item
    of the file with that passphrase, and a CONNECT is accepted exactly
    when its passphrase is not empty and is the passphrase of an item
    of the file or the name of a member of [Object.prototype]. *)
Theorem file_decides_authentication
    (items : list Item) (creds : gmap string ICredential) :
  load items = Returns creds ->
  (forall p credential,
     creds !! p = Some credential
     <-> exists item,
           last (filter (fun item => item_passphrase item = p) items) = Some item
           /\ loadItem item = Returns credential)
  /\ (forall body,
        isAuthenticated (Some creds) body = true
        <-> exists p,
              body_passphrase body = Some p /\ p <> EmptyString
              /\ ((exists item, item ∈ items /\ item_passphrase item = p)
                  \/ inherited p = true)).
Proof.
  intros Hrun. destruct (forEach_addCredential items ∅ creds Hrun) as [Hall Hlookup].
  assert (Hlast : forall p item,
             last (filter (fun item => item_passphrase item = p) items) = Some item ->
             item ∈ items /\ item_passphrase item = p).
  { intros p item Hl.
    apply last_Some_elem_of, list_elem_of_filter in Hl as [Hp Hin]. now split. }
  assert (Hload : forall p credential,
     creds !! p = Some credential
     <-> exists item,
           last (filter (fun item => item_passphrase item = p) items) = Some item
           /\ loadItem item = Returns credential).
  { intros p credential. rewrite Hlookup, lookup_empty. split.
    - destruct (last (filter _ items)) as [item |]; [| discriminate].
      destruct (loadItem item) as [c | |] eqn:Hc; try discriminate.
      intros [= ->]. eauto.
    - intros (item & -> & ->). reflexivity. }
  split; [exact Hload |].
  assert (Hsome : forall p, is_Some (creds !! p)
                            <-> exists item, item ∈ items /\ item_passphrase item = p).
  { intros p. split.
    - intros [c Hc]. apply Hload in Hc as (item & Hl & _).
      exists item. now apply Hlast.
    - intros (item & Hin & Hp).
      assert (Hf : item ∈ filter (fun item => item_passphrase item = p) items)
        by now apply list_elem_of_filter.
      destruct (filter _ items) as [| x l] eqn:Hfl using rev_ind.
      + now apply elem_of_nil in Hf.
      + assert (Hx : last (filter (fun item => item_passphrase item = p) items)
                     = Some x) by (rewrite Hfl; apply last_snoc).
        destruct (Hlast p x Hx) as [Hxin _].
        destruct (Hall x Hxin) as [_ [c Hc]].
        exists c. apply Hload. eauto. }
  intros body. unfold isAuthenticated, get.
  destruct (body_passphrase body) as [p |]; cbn [truthy negb key].
  - destruct (String.eqb_spec p EmptyString) as [-> | Hne]; cbn [negb].
    + split; [discriminate |]. intros (p & [= <-] & Hp & _). contradiction.
    + split.
      * intros H. exists p. split; [reflexivity |]. split; [exact Hne |].
        destruct (creds !! p) as [c |] eqn:Hc.
        -- left. apply Hsome. eauto.
        -- right. destruct (inherited p); [reflexivity | discriminate].
      * intros (p' & [= <-] & _ & [Hitem | Hmember]).
        -- apply Hsome in Hitem as [c ->]. reflexivity.
        -- destruct (creds !! p); [reflexivity |]. now rewrite Hmember.
  - split; [discriminate |]. intros (p & H & _). discriminate.
Qed.

End LoaderFacts.

(* ===================================================================== *)
(** * One chunk through both ends *)
(* ===================================================================== *)

Module TunnelFacts.
Import Wire Base64Facts.

(** X13.  A chunk that the client forwards reaches the target socket
    unchanged: the TRAFFIC message that the [data] listener of a local
    socket sends for a chunk, handled by the relay on a session that
    tracks the connection id, writes exactly the bytes of the chunk to
    the socket of that connection, and nothing else happens. *)
Theorem chunk_reaches_target
    (data : list byte) (k : nat) (id conn sock : string)
    (hostPort : HostPortPair)
    (connections : gmap string Server.SocketConnection)
    (s : Client.State) (st : Server.State) :
  Client.wsConnection s = Some k ->
  Client.connectionId s = Some id ->
  id <> EmptyString ->
  Server.sockets st !! conn = Some connections ->
  connections !! id
  = Some {| Server.target := hostPort; Server.socket := Some sock |} ->
  exists body,
    Client.effects (Client.forward data s)
    = Client.effects s ++ [Client.SendJSON k body]
    /\ is_str (body_type body) "TRAFFIC" = true
    /\ Server.onTraffic conn body st
       = (Server.set_writes (Server.writes st ++ [(conn, id)])
            (Server.emit (Server.SocketWrite sock data) st),
          Normal).
Proof.
  intros Hk Hid Hne Hconn Hentry. unfold Client.forward. rewrite Hk, Hid.
  eexists. split; [reflexivity |]. split; [reflexivity |].
  unfold Server.onTraffic.
  cbn [body_id body_data body_type request truthy Server.key].
  destruct (String.eqb_spec id EmptyString) as [-> | _]; [contradiction |].
  rewrite Hconn. cbn [negb]. unfold get. rewrite ?Hconn, Hentry.
  cbn [Server.socket]. now rewrite decode_encode.
Qed.

(** X14.  A chunk that the target sends reaches the local client
    unchanged: the frame that the [data] listener of a target socket
    sends for a chunk that is not empty, handled by the client, is
    written as the same bytes to the attached local socket, or is put
    at the end of the queue when no local client is attached. *)
Theorem chunk_reaches_client
    (data : list byte) (id conn : string)
    (st : Server.State) (s : Client.State) :
  Server.streams st !! id = Some conn ->
  id <> EmptyString ->
  data <> [] ->
  exists body,
    Server.onSocketData id data st
    = (Server.sendJSON conn body st, Normal)
    /\ Client.onConnection body s
       = (match Client.client s with
          | Some socket => Client.emit (Client.SocketWrite socket data) s
          | None => Client.set_buffers (Client.buffers s ++ [data]) s
          end, Normal).
Proof.
  intros Hstream Hid Hdata. unfold Server.onSocketData. rewrite Hstream.
  eexists. split; [reflexivity |].
  unfold Client.onConnection.
  cbn [body_connection body_status body_data reply truthy].
  destruct (String.eqb_spec id EmptyString) as [-> | _]; [contradiction |].
  assert (Henc : String.eqb (Base64.encode data) EmptyString = false).
  { destruct data as [| a [| b [| c rest]]]; [contradiction | | |]; reflexivity. }
  rewrite Henc. cbn [negb default]. unfold Datatypes.id.
  rewrite decode_encode. now destruct (Client.client s).
Qed.

End TunnelFacts.

(* ===================================================================== *)
(** * The order of the client's messages *)
(* ===================================================================== *)

Module ClientOrder.
Import Wire Client Pipeline.

Lemma in_order_snoc passphrase log e :
  in_order passphrase log -> greeted passphrase log e ->
  in_order passphrase (log ++ [e]).
Proof.
  intros Hlog He before x after Heq.
  destruct after as [| a after _] using rev_ind.
  - apply app_inj_tail in Heq as [-> ->]. exact He.
  - change (before ++ x :: after ++ [a]) with (before ++ (x :: after) ++ [a]) in Heq.
    rewrite app_assoc in Heq. apply app_inj_tail in Heq as [-> _].
    now apply (Hlog before x after).
Qed.

Lemma greeted_more passphrase log more e :
  greeted passphrase log e -> greeted passphrase (log ++ more) e.
Proof.
  intros H k body He. destruct (H k body He) as [Hb | Hin]; [now left |].
  right. apply elem_of_app. now left.
Qed.

Lemma in_order_app passphrase log added :
  in_order passphrase log -> Forall (greeted passphrase log) added ->
  in_order passphrase (log ++ added).
Proof.
  revert log. induction added as [| e added IH]; intros log Hlog Hall.
  - now rewrite app_nil_r.
  - change (log ++ e :: added) with (log ++ [e] ++ added). rewrite app_assoc.
    inversion Hall as [| ? ? He Hrest]; subst.
    apply IH.
    + now apply in_order_snoc.
    + eapply Forall_impl; [exact Hrest |]. intros x Hx. now apply greeted_more.
Qed.

(** A callback that appends [added] to the log, each message of it on
    a connection that was greeted, and that neither stores nor opens a
    connection. *)
Lemma introduced_step passphrase s s' added :
  introduced passphrase s ->
  effects s' = effects s ++ added ->
  Forall (greeted passphrase (effects s)) added ->
  (forall k, wsConnection s' = Some k ->
     wsConnection s = Some k \/ SendJSON k (greeting passphrase) ∈ effects s') ->
  (forall k, links s' !! k = Some Open ->
     links s !! k = Some Open \/ SendJSON k (greeting passphrase) ∈ effects s') ->
  introduced passphrase s'.
Proof.
  intros [Hc Ho Hl] Heff Hall Hc' Ho'. split.
  - intros k H. destruct (Hc' k H) as [H' | H']; [| exact H'].
    rewrite Heff. apply elem_of_app. left. now apply Hc.
  - intros k H. destruct (Ho' k H) as [H' | H']; [| exact H'].
    rewrite Heff. apply elem_of_app. left. now apply Ho.
  - rewrite Heff. now apply in_order_app.
Qed.

Lemma silent passphrase log e :
  (forall k body, e <> SendJSON k body) -> greeted passphrase log e.
Proof. intros H k body He. now destruct (H k body). Qed.

Lemma flush_log socket queue s :
  effects (flush socket queue s) = effects s ++ map (SocketWrite socket) queue
  /\ wsConnection (flush socket queue s) = wsConnection s
  /\ links (flush socket queue s) = links s.
Proof.
  revert s. induction queue as [| buffer rest IH]; intros s; cbn [flush map].
  - now rewrite app_nil_r.
  - destruct (IH (emit (SocketWrite socket buffer) (set_buffers rest s)))
      as (-> & -> & ->).
    cbn. now rewrite <- app_assoc.
Qed.

Section Order.
Variable JSON_parse : string -> Parsed.
Variable passphrase : option string.
Variable host : string.
Variable port : option Z.

Local Abbreviation exec := (Client.exec JSON_parse passphrase host port).
Local Abbreviation step := (Client.step JSON_parse passphrase host port).
Local Abbreviation run := (Client.run JSON_parse passphrase host port).
Local Abbreviation introduced := (Pipeline.introduced passphrase).

Local Ltac logged Hs :=
  eapply (introduced_step passphrase _ _ _ Hs);
  [ cbn; first [ symmetry; apply app_nil_r
               | rewrite <- ?app_assoc; reflexivity ]
  | repeat first [apply List.Forall_nil | apply List.Forall_cons];
    try (apply silent; intros ? ? ?; discriminate)
  | cbn; auto | cbn; auto ].

Lemma onCommand_introduced k body s :
  introduced s -> links s !! k = Some Open ->
  introduced (onCommand host port k body s).
Proof.
  intros Hs Hopen. unfold onCommand.
  repeat match goal with
         | |- context [if ?x then _ else _] => destruct x
         end; try exact Hs; logged Hs.
  intros ? ? [= <- <-]. right. apply (open_greeted _ _ Hs k Hopen).
Qed.

Lemma onConnection_introduced body s :
  introduced s -> introduced (fst (onConnection body s)).
Proof.
  intros Hs. unfold onConnection.
  repeat match goal with
         | |- context [if ?x then _ else _] => destruct x
         | |- context [match client s with _ => _ end] => destruct (client s)
         end; try exact Hs; logged Hs.
Qed.

Lemma onEstablished_introduced k body s :
  introduced s -> introduced (onEstablished k body s).
Proof.
  intros Hs. unfold onEstablished.
  destruct (is_str (body_status body) "ESTABLISHED"); [| exact Hs].
  destruct (lock s) as [[kind [| k' |]] |]; try exact Hs.
  destruct (Nat.eqb k k'); [| exact Hs].
  eapply (introduced_step passphrase s _ [] Hs);
    [cbn; now rewrite app_nil_r | constructor | cbn; auto | cbn; auto].
Qed.

Lemma onMessage_introduced k message s :
  introduced s -> links s !! k = Some Open ->
  introduced (fst (Client.onMessage JSON_parse host port k message s)).
Proof.
  intros Hs Hopen. unfold Client.onMessage.
  destruct message as [utf8Data | binaryData]; [| exact Hs].
  destruct (JSON_parse utf8Data) as [| | body]; try exact Hs.
  pose proof (onCommand_introduced k body s Hs Hopen) as H1.
  set (s1 := onCommand host port k body s) in *.
  destruct (exited s1); [exact H1 |].
  pose proof (onConnection_introduced body s1 H1) as H2.
  destruct (onConnection body s1) as [s2 [| e]]; cbn [fst] in *; [| exact H2].
  destruct (exited s2); [exact H2 |]. now apply onEstablished_introduced.
Qed.

Lemma forward_introduced data s :
  introduced s -> introduced (forward data s).
Proof.
  intros Hs. unfold forward. destruct (wsConnection s) as [k |] eqn:Hk;
    [| exact Hs].
  logged Hs. intros ? ? [= <- <-]. right. apply (current_greeted _ _ Hs k Hk).
Qed.

Lemma release_introduced s : introduced s -> introduced (release s).
Proof.
  intros Hs. unfold release.
  destruct (waiting s);
    (eapply (introduced_step passphrase s _ [] Hs);
     [cbn; now rewrite app_nil_r | constructor | cbn; auto | cbn; auto]).
Qed.

Lemma startConnection_introduced kind s :
  introduced s -> introduced (startConnection kind s).
Proof.
  intros Hs. unfold startConnection.
  eapply (introduced_step passphrase s _ [WsConnect (clients s)] Hs);
    [reflexivity | | cbn; auto |].
  - repeat first [apply List.Forall_nil | apply List.Forall_cons]. apply silent. intros ? ? ?; discriminate.
  - cbn. intros k. destruct (decide (clients s = k)) as [<- | Hne].
    + rewrite lookup_insert_eq. discriminate.
    + rewrite lookup_insert_ne by assumption. auto.
Qed.

Lemma onResume_introduced s : introduced s -> introduced (fst (onResume s)).
Proof.
  intros Hs. unfold onResume.
  destruct (lock s) as [[[| data] [| k |]] |]; cbn [fst]; try exact Hs.
  - now apply startConnection_introduced.
  - pose proof (release_introduced s Hs) as Hr.
    eapply (introduced_step passphrase _ _ [] Hr);
      [cbn; now rewrite app_nil_r | constructor | cbn; auto | cbn; auto].
  - destruct (isConnected s); cbn [negb fst].
    + now apply forward_introduced, release_introduced.
    + now apply startConnection_introduced.
  - now apply forward_introduced, release_introduced.
Qed.

Lemma step_introduced ev s : introduced s -> introduced (fst (step ev s)).
Proof.
  intros Hs. unfold Client.step. destruct (exited s); [exact Hs |].
  destruct ev as [socket | socket data | socket | | k | k | k message | k].
  - unfold onLocalConnection. cbn [client set_accepted buffers].
    destruct (client s); cbn [fst]; [logged Hs |].
    match goal with
    | |- context [flush ?a ?b ?c] =>
        destruct (flush_log a b c) as (He & Hc & Hl)
    end.
    eapply (introduced_step passphrase s _ _ Hs);
      [exact He | | rewrite Hc; cbn; auto | rewrite Hl; cbn; auto].
    apply Forall_forall. intros e Hin.
    apply list_elem_of_fmap in Hin as (b & -> & _).
    apply silent. intros ? ? ?; discriminate.
  - unfold onLocalData. destruct (bool_decide _); [| exact Hs].
    destruct (lock s);
      (eapply (introduced_step passphrase s _ [] Hs);
       [cbn; now rewrite app_nil_r | constructor | cbn; auto | cbn; auto]).
  - unfold onLocalClose. destruct (bool_decide _); [| exact Hs].
    cbn [wsConnection set_accepted]. destruct (wsConnection s); cbn [fst].
    + logged Hs.
    + eapply (introduced_step passphrase s _ [] Hs);
        [cbn; now rewrite app_nil_r | constructor | cbn; auto | cbn; auto].
  - now apply onResume_introduced.
  - unfold onWsConnect. destruct (links s !! k) as [[| |] |]; try exact Hs.
    cbn [fst].
    assert (Hin : SendJSON k (greeting passphrase)
                    ∈ effects s ++ [SendJSON k (greeting passphrase)]).
    { apply elem_of_app. right. now left. }
    eapply (introduced_step passphrase s _ [SendJSON k (greeting passphrase)] Hs);
      [reflexivity | | |].
    + repeat first [apply List.Forall_nil | apply List.Forall_cons]. intros ? ? [= <- <-]. now left.
    + cbn. intros k' [= <-]. now right.
    + cbn. intros k'. destruct (decide (k = k')) as [<- | Hne].
      * intros _. now right.
      * rewrite lookup_insert_ne by assumption. auto.
  - unfold onWsConnectFailed. destruct (links s !! k) as [[| |] |]; try exact Hs.
    logged Hs.
  - destruct (links s !! k) as [[| |] |] eqn:Hopen; try exact Hs.
    now apply onMessage_introduced.
  - unfold onWsClose. destruct (links s !! k) as [[| |] |]; try exact Hs.
    eapply (introduced_step passphrase s _ [] Hs);
      [cbn; now rewrite app_nil_r | constructor | cbn; auto |].
    cbn. intros k'. destruct (decide (k = k')) as [<- | Hne].
    + rewrite lookup_insert_eq. discriminate.
    + rewrite lookup_insert_ne by assumption. auto.
Qed.

Lemma run_introduced evs s : introduced s -> introduced (run evs s).
Proof.
  revert s. induction evs as [| ev evs IH]; intros s Hs; simpl.
  - exact Hs.
  - apply IH. pose proof (step_introduced ev s Hs) as H. unfold Client.exec.
    destruct (step ev s) as [s' [| e]]; cbn [fst] in H; [exact H |].
    logged H.
Qed.

End Order.

(** X15.  On every WebSocket connection the client speaks CONNECT
    first: a START or TRAFFIC message is sent on a connection only
    after the CONNECT message, with the configured passphrase, was sent
    on that connection. *)
Theorem client_connects_first
    (JSON_parse : string -> Parsed) (passphrase : option string)
    (host : string) (port : option Z)
    (evs : list Event) (before after : list Effect) (k : nat) (body : Body) :
  effects (Client.run JSON_parse passphrase host port evs initial)
  = before ++ SendJSON k body :: after ->
  body = greeting passphrase \/ SendJSON k (greeting passphrase) ∈ before.
Proof.
  intros Hlog.
  assert (Hinit : introduced passphrase initial).
  { split; cbn; try discriminate. intros b e a H. now destruct b. }
  pose proof (log_in_order _ _
                (run_introduced JSON_parse passphrase host port evs initial Hinit))
    as Hord.
  exact (Hord before _ after Hlog k body eq_refl).
Qed.

End ClientOrder.

(* ===================================================================== *)
(** * The properties at work on the example sessions *)
(* ===================================================================== *)

Module TraceExamples.
Import Wire Traces.

(** ** The relay *)

Lemma connected_session :
  is_Some (Server.sockets
             (Server.run Json.parse None
                [Server.Message "c1" (Scenario.frame (Scenario.CONNECT None)) "u0"]
                Server.initial) !! "c1").
Proof. eexists. vm_compute. reflexivity. Qed.

Lemma session_mapping_persists_witness :
  is_Some (Server.sockets
             (Server.run Json.parse None
                [Server.Message "c1" (Scenario.frame (Scenario.CONNECT None)) "u0"]
                Server.initial) !! "c1")
  /\ is_Some (Server.sockets
                (Server.run Json.parse None
                   [Server.ConnClosed "c1"; Server.SocketClose "id1" false]
                   (Server.run Json.parse None
                      [Server.Message "c1" (Scenario.frame (Scenario.CONNECT None))
                         "u0"]
                      Server.initial)) !! "c1").
Proof.
  split; [exact connected_session |].
  apply RelayTraces.session_mapping_persists. exact connected_session.
Defined.



Lemma established_never_closed : Server.ConnClosed "c1" ∉ Scenario.established.
Proof.
  unfold Scenario.established, Scenario.handshake. cbn [app]. intros H.
  repeat (apply elem_of_cons in H as [H | H]; [discriminate H |]).
  now apply elem_of_nil in H.
Qed.

Lemma established_session :
  Server.sockets (Server.run Json.parse None Scenario.established Server.initial)
    !! "c1"
  = Some {[ "id1" := {| Server.target := Scenario.example_com;
                        Server.socket := Some "id1" |} ]}.
Proof. vm_compute. reflexivity. Qed.

Lemma close_ends_every_socket_witness :
  (Server.ConnClosed "c1" ∉ Scenario.established)
  /\ exists st' ends connections',
       Server.onConnClose "c1"
         (Server.run Json.parse None Scenario.established Server.initial)
       = (st', Normal)
       /\ Server.effects st'
          = Server.effects
              (Server.run Json.parse None Scenario.established Server.initial)
            ++ map Server.SocketEnd ends
       /\ "id1" ∈ ends
       /\ Server.sockets st' !! "c1" = Some connections'.
Proof.
  split; [exact established_never_closed |].
  destruct (RelayIsolation.close_ends_every_socket Json.parse None
              Scenario.established "c1" _ _ eq_refl established_never_closed
              established_session)
    as (st' & ends & connections' & Hrun & Heff & _ & Hends & Hm & _).
  exists st', ends, connections'. split; [exact Hrun |]. split; [exact Heff |].
  split; [| exact Hm].
  apply Hends. eexists. apply lookup_singleton_eq.
Defined.

Lemma two_sessions_uuids : Invariants.uuids two_sessions = ["u0"; "u1"; "id1"].
Proof. vm_compute. reflexivity. Qed.

Lemma two_sessions_distinct : NoDup (Invariants.uuids two_sessions).
Proof.
  rewrite two_sessions_uuids.
  repeat (apply NoDup_cons; split;
          [intros H; repeat (apply elem_of_cons in H as [H | H]; [discriminate H |]);
           now apply elem_of_nil in H |]).
  apply NoDup_nil. exact I.
Qed.

Lemma two_sessions_owner :
  RelayLog.tracks (Server.run Json.parse None two_sessions Server.initial) "c1" "id1".
Proof.
  eexists. split; [vm_compute; reflexivity |]. eexists. vm_compute. reflexivity.
Qed.

Lemma two_sessions_other :
  is_Some (Server.sockets (Server.run Json.parse None two_sessions Server.initial)
             !! "c2").
Proof. eexists. vm_compute. reflexivity. Qed.

Lemma traffic_cannot_cross_sessions_witness :
  NoDup (Invariants.uuids two_sessions)
  /\ RelayLog.tracks (Server.run Json.parse None two_sessions Server.initial)
       "c1" "id1"
  /\ Server.onTraffic "c2" (Scenario.TRAFFIC (Some "id1") "TQ==")
       (Server.run Json.parse None two_sessions Server.initial)
     = (Server.sendJSON "c2"
          (reply (Some "TRAFFIC") None (Some "id1") (Some "INVALIDID") None None)
          (Server.run Json.parse None two_sessions Server.initial),
        Normal).
Proof.
  split; [exact two_sessions_distinct |]. split; [exact two_sessions_owner |].
  apply (RelayIsolation.traffic_cannot_cross_sessions Json.parse None two_sessions
           "c1" "c2" "id1" (Scenario.TRAFFIC (Some "id1") "TQ==") _ eq_refl
           two_sessions_distinct two_sessions_owner).
  - discriminate.
  - exact two_sessions_other.
  - discriminate.
  - reflexivity.
Defined.

Lemma established_log :
  Server.effects (Server.run Json.parse None Scenario.established Server.initial)
  = [Server.SendJSON "c1" (reply (Some "CONNECT") None None None None None);
     Server.SendJSON "c1" (RelayLog.connecting "id1");
     Server.NetConnect "id1" Scenario.example_com]
    ++ Server.SendJSON "c1" (reply None (Some "ESTABLISHED") (Some "id1") None None None)
       :: [].
Proof. vm_compute. reflexivity. Qed.

Lemma frames_follow_connecting_witness :
  Server.effects (Server.run Json.parse None Scenario.established Server.initial)
  = [Server.SendJSON "c1" (reply (Some "CONNECT") None None None None None);
     Server.SendJSON "c1" (RelayLog.connecting "id1");
     Server.NetConnect "id1" Scenario.example_com]
    ++ Server.SendJSON "c1" (reply None (Some "ESTABLISHED") (Some "id1") None None None)
       :: []
  /\ (Server.SendJSON "c1" (RelayLog.connecting "id1")
        ∈ [Server.SendJSON "c1" (reply (Some "CONNECT") None None None None None);
           Server.SendJSON "c1" (RelayLog.connecting "id1");
           Server.NetConnect "id1" Scenario.example_com]).
Proof.
  split; [exact established_log |].
  exact (RelayOrder.frames_follow_connecting Json.parse None Scenario.established
           _ _ "c1" "id1" _ established_log eq_refl eq_refl).
Defined.

(** ** The client *)

Lemma attached_arrival :
  Pipeline.arrival (Client.LocalData "a" ClientScenario.chunk1)
    (Client.run Json.parse None "example.com" (Some 80%Z)
       (ClientScenario.connect 0 "id1" ++ [Client.LocalConnection "a"])
       Client.initial)
  = [ClientScenario.chunk1].
Proof. vm_compute. reflexivity. Qed.

Lemma upstream_keeps_order_witness :
  Pipeline.pipeline
    (Client.exec Json.parse None "example.com" (Some 80%Z)
       (Client.run Json.parse None "example.com" (Some 80%Z)
          (ClientScenario.connect 0 "id1" ++ [Client.LocalConnection "a"])
          Client.initial)
       (Client.LocalData "a" ClientScenario.chunk1))
  = Pipeline.pipeline
      (Client.run Json.parse None "example.com" (Some 80%Z)
         (ClientScenario.connect 0 "id1" ++ [Client.LocalConnection "a"])
         Client.initial)
    ++ map Base64.encode [ClientScenario.chunk1].
Proof.
  rewrite <- attached_arrival.
  exact (PipelineFacts.upstream_keeps_order Json.parse None "example.com"
           (Some 80%Z)
           (ClientScenario.connect 0 "id1" ++ [Client.LocalConnection "a"])
           (Client.LocalData "a" ClientScenario.chunk1) _ eq_refl).
Defined.

Lemma downstream_keeps_order_witness :
  Pipeline.drained
    (Client.run Json.parse None "example.com" (Some 80%Z)
       (ClientScenario.connect 0 "id1" ++ [Client.LocalConnection "a"])
       Client.initial)
  /\ Pipeline.grows Json.parse
       (Client.WsMessage 0
          (ClientScenario.frame
             (Frames.payload "id1" (Base64.encode ClientScenario.chunk1))))
       (Client.run Json.parse None "example.com" (Some 80%Z)
          (ClientScenario.connect 0 "id1" ++ [Client.LocalConnection "a"])
          Client.initial)
       (Client.exec Json.parse None "example.com" (Some 80%Z)
          (Client.run Json.parse None "example.com" (Some 80%Z)
             (ClientScenario.connect 0 "id1" ++ [Client.LocalConnection "a"])
             Client.initial)
          (Client.WsMessage 0
             (ClientScenario.frame
                (Frames.payload "id1" (Base64.encode ClientScenario.chunk1))))).
Proof.
  exact (PipelineFacts.downstream_keeps_order Json.parse None "example.com"
           (Some 80%Z)
           (ClientScenario.connect 0 "id1" ++ [Client.LocalConnection "a"])
           (Client.WsMessage 0
              (ClientScenario.frame
                 (Frames.payload "id1" (Base64.encode ClientScenario.chunk1))))
           _ eq_refl).
Defined.

Lemma ready_log :
  Client.effects
    (Client.run Json.parse None "example.com" (Some 80%Z)
       (ClientScenario.connect 0 "id1") Client.initial)
  = [Client.WsConnect 0; Client.SendJSON 0 (Pipeline.greeting None)]
    ++ Client.SendJSON 0
         (request (Some "START") None (Some "example.com") (Some 80%Z) None None)
       :: [].
Proof. vm_compute. reflexivity. Qed.

Lemma client_connects_first_witness :
  Client.effects
    (Client.run Json.parse None "example.com" (Some 80%Z)
       (ClientScenario.connect 0 "id1") Client.initial)
  = [Client.WsConnect 0; Client.SendJSON 0 (Pipeline.greeting None)]
    ++ Client.SendJSON 0
         (request (Some "START") None (Some "example.com") (Some 80%Z) None None)
       :: []
  /\ (request (Some "START") None (Some "example.com") (Some 80%Z) None None
      = Pipeline.greeting None
      \/ Client.SendJSON 0 (Pipeline.greeting None)
           ∈ [Client.WsConnect 0; Client.SendJSON 0 (Pipeline.greeting None)]).
Proof.
  split; [exact ready_log |].
  exact (ClientOrder.client_connects_first Json.parse None "example.com"
           (Some 80%Z) (ClientScenario.connect 0 "id1") _ _ 0 _ ready_log).
Defined.

(** ** One chunk through both ends *)

Lemma ready_connection : Client.wsConnection ClientScenario.ready = Some 0.
Proof. vm_compute. reflexivity. Qed.

Lemma ready_id : Client.connectionId ClientScenario.ready = Some "id1".
Proof. vm_compute. reflexivity. Qed.

Lemma relay_session :
  Server.sockets relay_established !! "c1"
  = Some {[ "id1" := {| Server.target := Scenario.example_com;
                        Server.socket := Some "id1" |} ]}.
Proof. vm_compute. reflexivity. Qed.

Lemma relay_stream : Server.streams relay_established !! "id1" = Some "c1".
Proof. vm_compute. reflexivity. Qed.

Lemma chunk_reaches_target_witness :
  Client.wsConnection ClientScenario.ready = Some 0
  /\ Client.connectionId ClientScenario.ready = Some "id1"
  /\ exists body,
       Client.effects (Client.forward ClientScenario.chunk1 ClientScenario.ready)
       = Client.effects ClientScenario.ready ++ [Client.SendJSON 0 body]
       /\ is_str (body_type body) "TRAFFIC" = true
       /\ Server.onTraffic "c1" body relay_established
          = (Server.set_writes (Server.writes relay_established ++ [("c1", "id1")])
               (Server.emit (Server.SocketWrite "id1" ClientScenario.chunk1)
                  relay_established),
             Normal).
Proof.
  split; [exact ready_connection |]. split; [exact ready_id |].
  apply (TunnelFacts.chunk_reaches_target ClientScenario.chunk1 0 "id1" "c1" "id1"
           Scenario.example_com
           {[ "id1" := {| Server.target := Scenario.example_com;
                          Server.socket := Some "id1" |} ]}
           ClientScenario.ready relay_established
           ready_connection ready_id).
  - discriminate.
  - exact relay_session.
  - apply lookup_singleton_eq.
Defined.

Lemma chunk_reaches_client_witness :
  Server.streams relay_established !! "id1" = Some "c1"
  /\ exists body,
       Server.onSocketData "id1" ClientScenario.chunk1 relay_established
       = (Server.sendJSON "c1" body relay_established, Normal)
       /\ Client.onConnection body ClientScenario.attached
          = (match Client.client ClientScenario.attached with
             | Some socket =>
                 Client.emit (Client.SocketWrite socket ClientScenario.chunk1)
                   ClientScenario.attached
             | None =>
                 Client.set_buffers
                   (Client.buffers ClientScenario.attached ++ [ClientScenario.chunk1])
                   ClientScenario.attached
             end, Normal).
Proof.
  split; [exact relay_stream |].
  apply (TunnelFacts.chunk_reaches_client ClientScenario.chunk1 "id1" "c1"
           relay_established ClientScenario.attached relay_stream);
    discriminate.
Defined.

(** ** Targets and the passphrase file *)

Lemma host_port_round_trip_witness :
  Utils.occurs ":" "example.com" = false
  /\ Utils.exact 80 = true
  /\ Utils.toString Scenario.example_com = Some "example.com:80"
  /\ Utils.newHostPortPair "example.com:80" = Some Scenario.example_com.
Proof.
  split; [reflexivity |]. split; [reflexivity |].
  exact (UtilsFacts.host_port_round_trip "example.com" 80 eq_refl eq_refl).
Defined.

(** The credential of the examples is what the loader makes of its
    item. *)
Lemma item_abc_loaded : Loader.loadItem item_abc = Loader.Returns Scenario.credential_abc.
Proof. vm_compute. reflexivity. Qed.

(** An entry for a host that names a member of [Object.prototype]
    stops the loader; a port beyond 2^53 is not followed. *)
Example item_constructor_throws :
  Loader.loadItem {| Loader.item_passphrase := "abc";
                     Loader.item_allowed := Some ["constructor:80"] |}
  = Loader.Throws TypeError.
Proof. vm_compute. reflexivity. Qed.

Example item_beyond_outside :
  Loader.loadItem {| Loader.item_passphrase := "abc";
                     Loader.item_allowed := Some ["example.com:9007199254740993"] |}
  = Loader.Outside.
Proof. vm_compute. reflexivity. Qed.

Lemma loaded_credential_permits_witness :
  Loader.item_allowed item_abc = Some ["example.com:80"; "*:443"]
  /\ Loader.loadItem item_abc = Loader.Returns Scenario.credential_abc
  /\ Loader.plain ["example.com:80"; "*:443"]
  /\ (Acl.verdict Scenario.credential_abc Scenario.example_com = Acl.Permit
      <-> inherited (Server.key (host Scenario.example_com)) = false
          /\ exists e,
               e ∈ Loader.deciding (Server.key (host Scenario.example_com))
                     ["example.com:80"; "*:443"]
               /\ (Loader.entry_port e = Utils.Integer 0%Z
                   \/ exists n, port Scenario.example_com = Some n
                                /\ Loader.entry_port e = Utils.Integer n)).
Proof.
  split; [reflexivity |]. split; [exact item_abc_loaded |].
  destruct (LoaderFacts.loaded_credential_permits item_abc
              ["example.com:80"; "*:443"] Scenario.credential_abc
              Scenario.example_com eq_refl item_abc_loaded)
    as (Hplain & Hpermit & _).
  split; [exact Hplain | exact Hpermit].
Defined.

Lemma example_com_printed :
  Utils.toString {| host := Some "example.com"; port := Some 80%Z |}
  = Some "example.com:80".
Proof. vm_compute. reflexivity. Qed.

Lemma listed_target_is_permitted_witness :
  Loader.item_allowed item_abc = Some ["example.com:80"; "*:443"]
  /\ Loader.loadItem item_abc = Loader.Returns Scenario.credential_abc
  /\ Utils.occurs ":" "example.com" = false
  /\ Utils.toString {| host := Some "example.com"; port := Some 80%Z |}
     = Some "example.com:80"
  /\ ("example.com:80" ∈ ["example.com:80"; "*:443"])
  /\ Acl.verdict Scenario.credential_abc
       {| host := Some "example.com"; port := Some 80%Z |} = Acl.Permit.
Proof.
  assert (Hin : "example.com:80" ∈ ["example.com:80"; "*:443"])
    by apply list_elem_of_here.
  split; [reflexivity |]. split; [exact item_abc_loaded |].
  split; [reflexivity |]. split; [exact example_com_printed |].
  split; [exact Hin |].
  destruct (LoaderFacts.listed_target_is_permitted item_abc
              ["example.com:80"; "*:443"] Scenario.credential_abc "example.com"
              eq_refl item_abc_loaded eq_refl)
    as [Hlisted _].
  exact (Hlisted 80%Z "example.com:80" example_com_printed Hin).
Defined.

Lemma example_target :
  Utils.newHostPortPair "example.com:80" = Some Scenario.example_com.
Proof. vm_compute. reflexivity. Qed.

Lemma client_target_is_permitted_witness :
  ("example.com:80" ∈ ["example.com:80"; "*:443"])
  /\ Utils.newHostPortPair "example.com:80" = Some Scenario.example_com
  /\ Acl.verdict Scenario.credential_abc Scenario.example_com = Acl.Permit.
Proof.
  assert (Hin : "example.com:80" ∈ ["example.com:80"; "*:443"])
    by apply list_elem_of_here.
  split; [exact Hin |]. split; [exact example_target |].
  exact (LoaderFacts.client_target_is_permitted item_abc
           ["example.com:80"; "*:443"] Scenario.credential_abc "example.com:80"
           Scenario.example_com 80 eq_refl item_abc_loaded Hin example_target
           eq_refl).
Defined.

Lemma file_abc_loaded : Loader.load [item_abc] = Loader.Returns Scenario.table_abc.
Proof. vm_compute. reflexivity. Qed.

(** A file with the passphrase [__proto__] is not followed. *)
Example file_proto_outside :
  Loader.load [{| Loader.item_passphrase := "__proto__";
                  Loader.item_allowed := None |}]
  = Loader.Outside.
Proof. vm_compute. reflexivity. Qed.

Lemma file_decides_authentication_witness :
  Loader.load [item_abc] = Loader.Returns Scenario.table_abc
  /\ Server.isAuthenticated (Some Scenario.table_abc)
       (Scenario.CONNECT (Some "abc")) = true
  /\ Server.isAuthenticated (Some Scenario.table_abc)
       (Scenario.CONNECT (Some "constructor")) = true.
Proof.
  split; [exact file_abc_loaded |].
  destruct (LoaderFacts.file_decides_authentication [item_abc] Scenario.table_abc
              file_abc_loaded) as [_ Haccepted].
  split; apply Haccepted.
  - exists "abc". split; [reflexivity |]. split; [discriminate |].
    left. exists item_abc. split; [apply list_elem_of_here | reflexivity].
  - exists "constructor". split; [reflexivity |]. split; [discriminate |].
    right. reflexivity.
Defined.

End TraceExamples.
